(** * Puzzle-Solver: the search engines of [puzzle_tools.py]

    A shallow embedding of [depth_first_solve], [dfs_path_maker],
    [breadth_first_solve], [breadth_first_search] and [PuzzleNode.__eq__],
    together with the puzzles of [word_ladder_puzzle.py],
    [grid_peg_solitaire_puzzle.py] and [mn_puzzle.py].

    Python objects of class [PuzzleNode] live in a store (a list indexed by
    address); a node refers to its parent and to its children by address, so
    that the in-place updates of [children] made by the two path
    reconstructions act on the shared objects. *)

From Stdlib Require Import String Ascii.
From stdpp Require Import base gmap sets list strings.

Set Default Proof Using "Type".

(** ** The puzzle interface

    The class [Puzzle] of [puzzle.py] is abstract: the engines use its
    methods [is_solved], [extensions], [__str__] and [__eq__] only, which
    every puzzle overrides. *)

Class Puzzle (State : Type) := {
  is_solved : State → bool;
  extensions : State → list State;
  str : State → string;
  puzzle_eq : State → State → bool
}.

(** ** Nodes and the store *)

Abbreviation addr := nat.

Record PuzzleNode (State : Type) := mkNode {
  puzzle : State;
  children : list addr;
  parent : option addr
}.
Arguments mkNode {State} _ _ _.
Arguments puzzle {State} _.
Arguments children {State} _.
Arguments parent {State} _.

(** What a call of an engine leaves behind: [Returned (Some r)] is the node
    at address [r], [Returned None] is Python's [None]; [OutOfFuel] says
    that the loops were cut before the call returned. *)
Inductive result := OutOfFuel | Returned (r : option addr).

Record run (State : Type) := mkRun {
  run_result : result;
  run_heap : list (PuzzleNode State);
  (* the states on which [extensions()] was called, in call order *)
  run_calls : list State
}.
Arguments mkRun {State} _ _ _.
Arguments run_result {State} _.
Arguments run_heap {State} _.
Arguments run_calls {State} _.

Section Engines.
Context {State : Type} {PZ : Puzzle State}.

Local Abbreviation heap := (list (PuzzleNode State)).

(** [PuzzleNode(p, parent=par)]: the constructor leaves [children] empty
    when none are given. *)
Definition new_node (h : heap) (p : State) (par : option addr)
  : heap * addr :=
  (h ++ [mkNode p [] par], length h).

(** [node.children.append(child)] *)
Definition append_child (h : heap) (node child : addr) : heap :=
  match h !! node with
  | Some nd => <[node := mkNode (puzzle nd) (children nd ++ [child]) (parent nd)]> h
  | None => h
  end.

(** [node.children = [child]] *)
Definition set_children (h : heap) (node : addr) (cs : list addr) : heap :=
  match h !! node with
  | Some nd => <[node := mkNode (puzzle nd) cs (parent nd)]> h
  | None => h
  end.

(** *** Depth first *)

(** [while node.parent is not None: child = node; node = node.parent;
    node.children.append(child)] and then [return node]. *)
Fixpoint dfs_path_maker (fuel : nat) (h : heap) (node : addr)
  : option (heap * addr) :=
  match fuel with
  | 0 => None
  | S fuel' =>
      match h !! node with
      | None => None
      | Some nd =>
          match parent nd with
          | None => Some (h, node)
          | Some par => dfs_path_maker fuel' (append_child h par node) par
          end
      end
  end.

(** One round of [for p in puzzle.extensions():
    stack.append(PuzzleNode(p, parent=PuzzleNode(puzzle)))]. *)
Definition seed_step (init : State) (acc : heap * list addr) (p : State)
  : heap * list addr :=
  let '(h0, stack) := acc in
  let '(h1, root) := new_node h0 init None in
  let '(h2, n) := new_node h1 p (Some root) in
  (h2, stack ++ [n]).

(** One round of [for p in current.puzzle.extensions():
    stack.appendleft(PuzzleNode(p, parent=current))]. *)
Definition push_step (current : addr) (acc : heap * list addr) (p : State)
  : heap * list addr :=
  let '(h0, stack) := acc in
  let '(h1, n) := new_node h0 p (Some current) in
  (h1, n :: stack).

(** The [while len(stack) > 0] loop; [stack.popleft()] takes the head.
    The work list holds addresses of the store only ([dfs_inv_some]
    below); the case of an address outside it is there for totality. *)
Fixpoint dfs_loop (pm_fuel fuel : nat) (h : heap) (visited : gset string)
    (stack : list addr) (calls : list State) : run State :=
  match fuel with
  | 0 => mkRun OutOfFuel h calls
  | S fuel' =>
      match stack with
      | [] => mkRun (Returned None) h calls
      | current :: stack' =>
          match h !! current with
          | None => mkRun OutOfFuel h calls
          | Some nd =>
              if decide (str (puzzle nd) ∈ visited)
              then dfs_loop pm_fuel fuel' h visited stack' calls
              else
                let visited' := visited ∪ {[str (puzzle nd)]} in
                if is_solved (puzzle nd)
                then
                  match dfs_path_maker pm_fuel h current with
                  | Some (h', r) => mkRun (Returned (Some r)) h' calls
                  | None => mkRun OutOfFuel h calls
                  end
                else
                  let '(h', stack'') :=
                    fold_left (push_step current) (extensions (puzzle nd))
                              (h, stack') in
                  dfs_loop pm_fuel fuel' h' visited' stack''
                           (calls ++ [puzzle nd])
          end
      end
  end.

Definition depth_first_solve (fuel : nat) (init : State) : run State :=
  if is_solved init
  then let '(h, r) := new_node [] init None in
       mkRun (Returned (Some r)) h []
  else
    let visited : gset string := {[str init]} in
    let '(h, stack) := fold_left (seed_step init) (extensions init) ([], []) in
    dfs_loop fuel fuel h visited stack [init].

(** *** Breadth first *)

(** [while snode.parent: snode.parent.children = [snode];
    snode = snode.parent] and then [return [snode]].  A [PuzzleNode] has
    neither [__bool__] nor [__len__], so the test is [is not None]. *)
Fixpoint bfs_rewire (fuel : nat) (h : heap) (snode : addr)
  : option (heap * list addr) :=
  match fuel with
  | 0 => None
  | S fuel' =>
      match h !! snode with
      | None => None
      | Some nd =>
          match parent nd with
          | None => Some (h, [snode])
          | Some par => bfs_rewire fuel' (set_children h par [snode]) par
          end
      end
  end.

(** One round of [for ext in cwn.puzzle.extensions(): if str(ext) not in
    visited: pn = PuzzleNode(ext); pn.parent = cwn; que.append(pn)]. *)
Definition enqueue_step (visited : gset string) (cwn : addr)
    (acc : heap * list addr) (ext : State) : heap * list addr :=
  let '(h0, que) := acc in
  if decide (str ext ∈ visited) then (h0, que)
  else
    let '(h1, pn) := new_node h0 ext None in
    let h2 := match h1 !! pn with
              | Some nd => <[pn := mkNode (puzzle nd) (children nd) (Some cwn)]> h1
              | None => h1
              end in
    (h2, que ++ [pn]).

(** The [while len(que) != 0] loop of [breadth_first_search]; its value
    is the returned list, [Some None] when the loop falls through and
    Python returns [None], and [None] when the fuel runs out. *)
Fixpoint bfs_loop (rw_fuel fuel : nat) (h : heap) (visited : gset string)
    (que : list addr) (calls : list State)
  : option (option (list addr)) * heap * list State :=
  match fuel with
  | 0 => (None, h, calls)
  | S fuel' =>
      match que with
      | [] => (Some None, h, calls)
      | cwn :: que' =>
          match h !! cwn with
          | None => (None, h, calls)
          | Some nd =>
              let visited' := visited ∪ {[str (puzzle nd)]} in
              let '(h', que'') :=
                fold_left (enqueue_step visited' cwn) (extensions (puzzle nd))
                          (h, que') in
              let calls' := calls ++ [puzzle nd] in
              if is_solved (puzzle nd)
              then
                match bfs_rewire rw_fuel h' cwn with
                | Some (h'', path) => (Some (Some path), h'', calls')
                | None => (None, h', calls')
                end
              else bfs_loop rw_fuel fuel' h' visited' que'' calls'
          end
      end
  end.

Definition breadth_first_search (fuel : nat) (h : heap) (parent : addr)
  : option (option (list addr)) * heap * list State :=
  bfs_loop fuel fuel h ∅ [parent] [].

(** [if path: return path[0] else: return None] *)
Definition breadth_first_solve (fuel : nat) (init : State) : run State :=
  let '(h, p) := new_node [] init None in
  match breadth_first_search fuel h p with
  | (None, h', calls) => mkRun OutOfFuel h' calls
  | (Some (Some (r :: _)), h', calls) => mkRun (Returned (Some r)) h' calls
  | (Some _, h', calls) => mkRun (Returned None) h' calls
  end.

(** *** Equality of nodes *)

(** What [PuzzleNode.__eq__] may be handed as [other]: a node, or a value
    of another type. *)
Inductive pyvalue := NodeRef (a : addr) | OtherValue.

(** [x in l] on a list of nodes: true at the first [e] of [l] such that
    [x is e or x == e], false when there is none; [eq] is [==]. *)
Fixpoint node_in (eq : addr → addr → option bool) (x : addr)
    (l : list addr) : option bool :=
  match l with
  | [] => Some false
  | e :: l' =>
      if decide (x = e) then Some true
      else match eq x e with
           | None => None
           | Some true => Some true
           | Some false => node_in eq x l'
           end
  end.

(** [all([x in l for x in xs])]: the comprehension runs every test before
    [all] looks at the outcomes. *)
Fixpoint all_in (eq : addr → addr → option bool) (xs l : list addr)
  : option bool :=
  match xs with
  | [] => Some true
  | x :: xs' =>
      match node_in eq x l with
      | None => None
      | Some b =>
          match all_in eq xs' l with
          | None => None
          | Some bs => Some (b && bs)
          end
      end
  end.

(** [PuzzleNode.__eq__]; [None] when the nesting of the calls exceeds
    [fuel].  The [and] chain stops at its first false operand. *)
Fixpoint node_eq (fuel : nat) (h : heap) (self : addr) (other : pyvalue)
  : option bool :=
  match fuel with
  | 0 => None
  | S fuel' =>
      match other with
      | OtherValue => Some false
      | NodeRef o =>
          match h !! self, h !! o with
          | Some s, Some t =>
              if puzzle_eq (puzzle s) (puzzle t)
              then
                let eq x e := node_eq fuel' h x (NodeRef e) in
                match all_in eq (children t) (children s) with
                | None => None
                | Some false => Some false
                | Some true => all_in eq (children s) (children t)
                end
              else Some false
          | _, _ => None
          end
      end
  end.

(** *** Printing a node *)

(** The line feed. *)
Definition newline : string := String (ascii_of_nat 10) EmptyString.

(** [PuzzleNode.__str__]: the puzzle, an empty line, and the children
    joined by line feeds; [None] when the nesting of the calls exceeds
    [fuel]. *)
Fixpoint node_str (fuel : nat) (h : heap) (a : addr) : option string :=
  match fuel with
  | 0 => None
  | S fuel' =>
      match h !! a with
      | None => None
      | Some nd =>
          match mapM (node_str fuel' h) (children nd) with
          | None => None
          | Some strs =>
              Some (str (puzzle nd) ++ newline ++ newline
                      ++ String.concat newline strs)%string
          end
      end
  end.

(** Either engine. *)
Inductive engine := DepthFirst | BreadthFirst.

Definition solve (e : engine) (fuel : nat) (init : State) : run State :=
  match e with
  | DepthFirst => depth_first_solve fuel init
  | BreadthFirst => breadth_first_solve fuel init
  end.

End Engines.

(** ** The word-ladder puzzle of [word_ladder_puzzle.py] *)

Module WordLadder.

Record WordLadderPuzzle := mkWL {
  from_word : string;
  to_word : string;
  word_set : gset string
}.

(** [self._chars] *)
Definition chars : list ascii :=
  list_ascii_of_string "abcdefghijklmnopqrstuvwxyz".

(** [from_word[:i] + letter + from_word[i+1:]] *)
Definition replace_at (w : string) (i : nat) (letter : ascii) : string :=
  (substring 0 i w ++ String letter EmptyString
     ++ substring (i + 1) (String.length w - (i + 1)) w)%string.

Definition wl_extensions (p : WordLadderPuzzle) : list WordLadderPuzzle :=
  flat_map
    (fun i =>
       flat_map
         (fun letter =>
            let word := replace_at (from_word p) i letter in
            if decide (word ∈ word_set p ∧ word ≠ from_word p)
            then [mkWL word (to_word p) (word_set p)]
            else [])
         chars)
    (seq 0 (String.length (from_word p))).

Definition wl_is_solved (p : WordLadderPuzzle) : bool :=
  bool_decide (from_word p = to_word p).

(** ["{} -> {}".format(self._from_word, self._to_word)] *)
Definition wl_str (p : WordLadderPuzzle) : string :=
  (from_word p ++ " -> " ++ to_word p)%string.

Definition wl_eq (p q : WordLadderPuzzle) : bool :=
  bool_decide (from_word p = from_word q)
  && bool_decide (to_word p = to_word q)
  && bool_decide (word_set p = word_set q).

#[export] Instance wl_puzzle : Puzzle WordLadderPuzzle := {
  is_solved := wl_is_solved;
  extensions := wl_extensions;
  str := wl_str;
  puzzle_eq := wl_eq
}.

(** The same puzzle with [is_solved] written with the comparison of
    strings of the library. *)
Definition wl_puzzle_eqb : Puzzle WordLadderPuzzle := {|
  is_solved := λ p, String.eqb (from_word p) (to_word p);
  extensions := wl_extensions;
  str := wl_str;
  puzzle_eq := wl_eq
|}.

End WordLadder.

(** ** The peg solitaire of [grid_peg_solitaire_puzzle.py] *)

(** * The puzzles on grids

    [grid_peg_solitaire_puzzle.py] and [mn_puzzle.py] keep a grid of
    markers, a list of rows. *)

(** [g[i][j]]; [None] stands for [IndexError]. *)
Definition cell (g : list (list string)) (i j : nat) : option string :=
  g !! i ≫= λ row, row !! j.

(** [g[i][j] = v] *)
Definition set_cell (g : list (list string)) (i j : nat) (v : string)
  : option (list (list string)) :=
  g !! i ≫= λ row,
    if decide (j < length row) then Some (<[i := <[j := v]> row]> g)
    else None.

(** The lengths of the rows. *)
Definition shape (g : list (list string)) : list nat := length <$> g.

(** [c.isspace()] for a character below 256. *)
Definition py_space (c : ascii) : bool :=
  bool_decide (nat_of_ascii c
               ∈ [9; 10; 11; 12; 13; 28; 29; 30; 31; 32; 133; 160]).

Fixpoint lstrip (l : list ascii) : list ascii :=
  match l with
  | c :: l' => if py_space c then lstrip l' else l
  | [] => []
  end.

(** [s.strip()]: [s] without the white space at its two ends. *)
Definition strip (s : string) : string :=
  string_of_list_ascii
    (reverse (lstrip (reverse (lstrip (list_ascii_of_string s))))).

(** A string that is not empty and neither begins nor ends with white
    space. *)
Definition tight (s : string) : Prop :=
  ∃ a b, head (list_ascii_of_string s) = Some a
         ∧ last (list_ascii_of_string s) = Some b
         ∧ py_space a = false ∧ py_space b = false.

Module GridPeg.

Record GridPegSolitairePuzzle := mkPeg {
  marker : list (list string);
  marker_set : gset string
}.

(** The assertions of [__init__]: there is a row, the rows have the
    length of the first, every marker is in the marker set, and the
    marker set has pegs, spaces and unused positions only. *)
Definition valid (p : GridPegSolitairePuzzle) : Prop :=
  0 < length (marker p)
  ∧ (∀ row, row ∈ tail (marker p) →
            length row = length (default [] (head (marker p))))
  ∧ (∀ row x, row ∈ marker p → x ∈ row → x ∈ marker_set p)
  ∧ (∀ x, x ∈ marker_set p → x = "*" ∨ x = "." ∨ x = "#")%string.

(** The three assignments of a jump over [mid], from [far] to [(i, j)],
    made on a copy of the grid. *)
Definition jump (g : list (list string)) (far mid : nat * nat) (i j : nat)
  : option (list (list string)) :=
  set_cell g far.1 far.2 "." ≫= λ g1,
  set_cell g1 mid.1 mid.2 "." ≫= λ g2,
  set_cell g2 i j "*".

(** [if in_range and orig[far] == "*" and orig[mid] == "*": ...append] *)
Definition try_jump (p : GridPegSolitairePuzzle) (in_range : bool)
    (far mid : nat * nat) (i j : nat)
  : option (list GridPegSolitairePuzzle) :=
  if in_range then
    cell (marker p) far.1 far.2 ≫= λ x,
      if decide (x = "*"%string) then
        cell (marker p) mid.1 mid.2 ≫= λ y,
          if decide (y = "*"%string) then
            jump (marker p) far mid i j ≫= λ g,
              Some [mkPeg g (marker_set p)]
          else Some []
      else Some []
  else Some [].

(** The body of the two loops at position [(i, j)]: the jumps into an
    empty spot from above, from below, from the left, from the right. *)
Definition jumps_into (p : GridPegSolitairePuzzle) (i j : nat)
  : option (list GridPegSolitairePuzzle) :=
  cell (marker p) i j ≫= λ c,
    if decide (c = "."%string) then
      try_jump p (bool_decide (2 ≤ i)) (i - 2, j) (i - 1, j) i j ≫= λ a,
      try_jump p (bool_decide (i + 2 < length (marker p)))
               (i + 2, j) (i + 1, j) i j ≫= λ b,
      try_jump p (bool_decide (2 ≤ j)) (i, j - 2) (i, j - 1) i j ≫= λ l,
      try_jump p (bool_decide (j + 2 < length (default [] (marker p !! i))))
               (i, j + 2) (i, j + 1) i j ≫= λ r,
      Some (a ++ b ++ l ++ r)
    else Some [].

(** [for i in range(len(orig)): for j in range(len(orig[i]))] *)
Definition positions (g : list (list string)) : list (nat * nat) :=
  flat_map (λ i, (λ j, (i, j)) <$> seq 0 (length (default [] (g !! i))))
           (seq 0 (length g)).

(** [extensions()]; [None] stands for [IndexError].  The assertions that
    [__init__] makes on every configuration built here are left out: they
    hold whenever they hold for [self]. *)
Definition peg_extensions (p : GridPegSolitairePuzzle)
  : option (list GridPegSolitairePuzzle) :=
  mjoin <$> mapM (λ ij, jumps_into p ij.1 ij.2) (positions (marker p)).

(** The number of pegs: [count += row.count("*")] over the rows. *)
Definition pegs (g : list (list string)) : nat :=
  sum_list ((λ row, length (filter (λ x, x = "*"%string) row)) <$> g).

Definition peg_is_solved (p : GridPegSolitairePuzzle) : bool :=
  bool_decide (pegs (marker p) = 1).

Definition peg_eq (p q : GridPegSolitairePuzzle) : bool :=
  bool_decide (marker p = marker q)
  && bool_decide (marker_set p = marker_set q).

(** One for a peg, nothing for another marker. *)
Definition peg_count (x : string) : nat :=
  if decide (x = "*"%string) then 1 else 0.

(** [far], [mid] and [(i, j)] follow each other in a column or in a row,
    [far] being above, below, left or right of [(i, j)]. *)
Definition in_line (far mid : nat * nat) (i j : nat) : Prop :=
  (2 ≤ i ∧ far = (i - 2, j) ∧ mid = (i - 1, j))
  ∨ (far = (i + 2, j) ∧ mid = (i + 1, j))
  ∨ (2 ≤ j ∧ far = (i, j - 2) ∧ mid = (i, j - 1))
  ∨ (far = (i, j + 2) ∧ mid = (i, j + 1)).

(** The grid after the peg at [far] has jumped over the one at [mid] to
    [(i, j)], position by position. *)
Definition jumped (g g' : list (list string)) (far mid : nat * nat)
    (i j : nat) : Prop :=
  shape g' = shape g
  ∧ ∀ a b, cell g' a b
           = if decide ((a, b) = (i, j)) then Some "*"%string
             else if decide ((a, b) = far ∨ (a, b) = mid) then Some "."%string
             else cell g a b.

(** [__str__]: the markers of a row followed by a space each, the board
    stripped and a line feed added after every row, and the whole stripped
    once more. *)
Definition peg_str (p : GridPegSolitairePuzzle) : string :=
  strip (fold_left
           (λ board row,
              strip (fold_left (λ b symbol, b +:+ symbol +:+ " ") row board)
              +:+ newline)
           (marker p) "").

(** The puzzle as the engines see it.  [extensions()] raises no error on
    a configuration that [__init__] accepts; on another one, that cannot
    be built, the instance has no extensions. *)
#[export] Instance peg_puzzle : Puzzle GridPegSolitairePuzzle := {
  is_solved := peg_is_solved;
  extensions p := default [] (peg_extensions p);
  str := peg_str;
  puzzle_eq := peg_eq
}.

(** The grids of the doctest of [extensions]: the configuration and its
    extension. *)
Definition all_markers : gset string := {["#"; "*"; "."]}%string.

Definition doctest_peg : GridPegSolitairePuzzle :=
  mkPeg [["*"; "*"; "*"; "*"; "*"];
         ["*"; "*"; "."; "*"; "."];
         ["*"; "*"; "*"; "*"; "*"]]%string all_markers.

Definition doctest_ext : GridPegSolitairePuzzle :=
  mkPeg [["*"; "*"; "*"; "*"; "*"];
         ["."; "."; "*"; "*"; "."];
         ["*"; "*"; "*"; "*"; "*"]]%string all_markers.

(** One peg left, in the middle of a row of three. *)
Definition last_peg : GridPegSolitairePuzzle :=
  mkPeg [["."; "*"; "."]]%string all_markers.

End GridPeg.

Module MN.

Record MNPuzzle := mkMN {
  from_grid : list (list string);
  to_grid : list (list string)
}.

(** The assertions of [__init__]: there is a row, and the rows of either
    grid have the length of its first. *)
Definition valid (p : MNPuzzle) : Prop :=
  0 < length (from_grid p)
  ∧ (∀ r, r ∈ from_grid p →
          length r = length (default [] (head (from_grid p))))
  ∧ (∀ r, r ∈ to_grid p → length r = length (default [] (head (to_grid p)))).

(** The two loops that look for the empty space.  [break] leaves the
    inner loop only: every row is searched up to its first ["*"], and the
    last row that has one decides; without any, the position stays
    [(0, 0)]. *)
Definition blank (g : list (list string)) : nat * nat :=
  fold_left
    (λ rc ir, match list_find (λ x, x = "*"%string) ir.2 with
              | Some (j, _) => (ir.1, j)
              | None => rc
              end)
    (zip (seq 0 (length g)) g) (0, 0).

(** [lst[a][b], lst[i][j] = (lst[i][j], lst[a][b])] on a copy of the
    grid. *)
Definition swap (g : list (list string)) (a b i j : nat)
  : option (list (list string)) :=
  cell g i j ≫= λ x,
  cell g a b ≫= λ y,
  set_cell g a b x ≫= λ g1,
  set_cell g1 i j y.

(** [if in_range: ...; extensions.append(MNPuzzle(tuple(new_grid), to_grid))] *)
Definition try_swap (p : MNPuzzle) (in_range : bool) (a b i j : nat)
  : option (list MNPuzzle) :=
  if in_range then
    swap (from_grid p) a b i j ≫= λ g, Some [mkMN g (to_grid p)]
  else Some [].

(** [extensions()]: the moves to the left, to the right, up and down, in
    this order; [None] stands for [IndexError].  The assertions that
    [__init__] makes on every puzzle built here are left out: they hold
    whenever they hold for [self]. *)
Definition mn_extensions (p : MNPuzzle) : option (list MNPuzzle) :=
  let g := from_grid p in
  let row := (blank g).1 in
  let col := (blank g).2 in
  try_swap p (bool_decide (1 ≤ col)) row (col - 1) row col ≫= λ l,
  g !! row ≫= λ r,
  try_swap p (bool_decide (col + 1 < length r)) row (col + 1) row col ≫= λ rt,
  try_swap p (bool_decide (1 ≤ row)) (row - 1) col row col ≫= λ u,
  try_swap p (bool_decide (row + 1 < length g)) (row + 1) col row col ≫= λ d,
  Some (l ++ rt ++ u ++ d).

Definition mn_is_solved (p : MNPuzzle) : bool :=
  bool_decide (from_grid p = to_grid p).

Definition mn_eq (p q : MNPuzzle) : bool :=
  bool_decide (from_grid p = from_grid q)
  && bool_decide (to_grid p = to_grid q).

(** [__str__]: the symbols of a row one after the other, a line feed
    after every row, and the whole stripped. *)
Definition mn_str (p : MNPuzzle) : string :=
  strip (fold_left
           (λ board row,
              fold_left (λ b symbol, b +:+ symbol) row board +:+ newline)
           (from_grid p) "").

(** The puzzle as the engines see it.  The interface has no place for an
    error: where [extensions()] raises [IndexError] the instance has no
    extensions.  This happens on grids that [__init__] rejects and on the
    grids of two or more rows without columns, which it accepts; what is
    said about the engines on this puzzle is said for grids with a
    column, where no call within reach raises. *)
#[export] Instance mn_puzzle : Puzzle MNPuzzle := {
  is_solved := mn_is_solved;
  extensions p := default [] (mn_extensions p);
  str := mn_str;
  puzzle_eq := mn_eq
}.

(** The position [n] is next to the position [bl], in its row or in its
    column. *)
Definition next_to (n bl : nat * nat) : Prop :=
  (n.1 = bl.1 ∧ (n.2 + 1 = bl.2 ∨ n.2 = bl.2 + 1))
  ∨ (n.2 = bl.2 ∧ (n.1 + 1 = bl.1 ∨ n.1 = bl.1 + 1)).

(** The grid [g'] is [g] with the symbols at [n] and at [bl] exchanged. *)
Definition swapped (g g' : list (list string)) (n bl : nat * nat) : Prop :=
  shape g' = shape g
  ∧ ∀ u v, cell g' u v
           = if decide ((u, v) = n) then cell g bl.1 bl.2
             else if decide ((u, v) = bl) then cell g n.1 n.2
             else cell g u v.

(** There is one empty space. *)
Definition one_blank (g : list (list string)) : Prop :=
  ∃ i j, cell g i j = Some "*"%string
         ∧ ∀ a b, cell g a b = Some "*"%string → (a, b) = (i, j).

(** The grids of the doctests. *)
Definition start_grid : list (list string) :=
  [["*"; "2"; "3"]; ["1"; "4"; "5"]]%string.

Definition target_grid : list (list string) :=
  [["1"; "2"; "3"]; ["4"; "5"; "*"]]%string.

Definition doctest_mn : MNPuzzle := mkMN start_grid target_grid.

(** Its two extensions. *)
Definition moved_right : MNPuzzle :=
  mkMN [["2"; "*"; "3"]; ["1"; "4"; "5"]]%string target_grid.

Definition moved_down : MNPuzzle :=
  mkMN [["1"; "2"; "3"]; ["*"; "4"; "5"]]%string target_grid.

(** Two rows and no columns. *)
Definition no_columns : MNPuzzle := mkMN [[]; []] [[]; []].

(** Five tiles numbered 1, 2, 3, 11 and 12 in two rows, the path of
    fourteen moves that the breadth-first engine returns for them, and a
    path of twelve moves. *)
Definition tiles_target : list (list string) :=
  [["1"; "12"; "*"]; ["11"; "2"; "3"]]%string.

Definition tiles_start : MNPuzzle :=
  mkMN [["*"; "11"; "1"]; ["3"; "12"; "2"]]%string tiles_target.

Definition tiles_long : list MNPuzzle :=
  (λ g, mkMN g tiles_target) <$>
  [ [["*"; "11"; "1"]; ["3"; "12"; "2"]];
    [["11"; "*"; "1"]; ["3"; "12"; "2"]];
    [["11"; "1"; "*"]; ["3"; "12"; "2"]];
    [["11"; "1"; "2"]; ["3"; "12"; "*"]];
    [["11"; "1"; "2"]; ["3"; "*"; "12"]];
    [["11"; "1"; "2"]; ["*"; "3"; "12"]];
    [["*"; "1"; "2"]; ["11"; "3"; "12"]];
    [["1"; "*"; "2"]; ["11"; "3"; "12"]];
    [["1"; "3"; "2"]; ["11"; "*"; "12"]];
    [["1"; "3"; "2"]; ["11"; "12"; "*"]];
    [["1"; "3"; "*"]; ["11"; "12"; "2"]];
    [["1"; "*"; "3"]; ["11"; "12"; "2"]];
    [["1"; "12"; "3"]; ["11"; "*"; "2"]];
    [["1"; "12"; "3"]; ["11"; "2"; "*"]];
    [["1"; "12"; "*"]; ["11"; "2"; "3"]] ]%string.

Definition tiles_short : list MNPuzzle :=
  (λ g, mkMN g tiles_target) <$>
  [ [["*"; "11"; "1"]; ["3"; "12"; "2"]];
    [["11"; "*"; "1"]; ["3"; "12"; "2"]];
    [["11"; "1"; "*"]; ["3"; "12"; "2"]];
    [["11"; "1"; "2"]; ["3"; "12"; "*"]];
    [["11"; "1"; "2"]; ["3"; "*"; "12"]];
    [["11"; "1"; "2"]; ["*"; "3"; "12"]];
    [["*"; "1"; "2"]; ["11"; "3"; "12"]];
    [["1"; "*"; "2"]; ["11"; "3"; "12"]];
    [["1"; "2"; "*"]; ["11"; "3"; "12"]];
    [["1"; "2"; "12"]; ["11"; "3"; "*"]];
    [["1"; "2"; "12"]; ["11"; "*"; "3"]];
    [["1"; "*"; "12"]; ["11"; "2"; "3"]];
    [["1"; "12"; "*"]; ["11"; "2"; "3"]] ]%string.

(** Two puzzles, four moves apart, whose rows read the same. *)
Definition twin_target : MNPuzzle :=
  mkMN [["*"; "1"]; ["1"; "11"]]%string [["*"; "1"]; ["1"; "11"]]%string.

Definition twin_start : MNPuzzle :=
  mkMN [["*"; "1"]; ["11"; "1"]]%string [["*"; "1"]; ["1"; "11"]]%string.

End MN.


(** ** What is said about runs *)

Section Paths.
Context {State : Type} {PZ : Puzzle State}.

Local Abbreviation heap := (list (PuzzleNode State)).

(** Each consecutive pair is related by one application of
    [extensions()]. *)
Fixpoint is_path (l : list State) : Prop :=
  match l with
  | a :: t => match t with
              | b :: _ => b ∈ extensions a ∧ is_path t
              | [] => True
              end
  | [] => True
  end.

(** [reach init n s]: [s] is reached from [init] by [n] applications of
    [extensions()]. *)
Inductive reach (init : State) : nat → State → Prop :=
| reach_init : reach init 0 init
| reach_step n s t : reach init n s → t ∈ extensions s → reach init (S n) t.

Definition reachable (init s : State) : Prop := ∃ n, reach init n s.

(** The states within [n] applications of [extensions()] of [s]. *)
Fixpoint within (n : nat) (s : State) : list State :=
  s :: match n with
       | 0 => []
       | S n' => flat_map (within n') (extensions s)
       end.

(** The chain of states read downwards from a node: every node on it has
    exactly one child, except the last, which has none. *)
Inductive is_chain (h : heap) : addr → list State → Prop :=
| chain_leaf a nd :
    h !! a = Some nd → children nd = [] → is_chain h a [puzzle nd]
| chain_cons a nd c l :
    h !! a = Some nd → children nd = [c] → is_chain h c l →
    is_chain h a (puzzle nd :: l).

(** The states met from a node upwards along [parent], the node first. *)
Inductive upchain (h : heap) : addr → list State → Prop :=
| up_root a nd :
    h !! a = Some nd → parent nd = None → upchain h a [puzzle nd]
| up_step a nd p l :
    h !! a = Some nd → parent nd = Some p → p < a → upchain h p l →
    upchain h a (puzzle nd :: l).

(** A chain whose addresses grow downwards, as they do when every child
    was created after its parent. *)
Inductive inc_chain (h : heap) : addr → list State → Prop :=
| inc_leaf a nd :
    h !! a = Some nd → children nd = [] → inc_chain h a [puzzle nd]
| inc_cons a nd c l :
    h !! a = Some nd → children nd = [c] → a < c → inc_chain h c l →
    inc_chain h a (puzzle nd :: l).

(** The store of a search from [init]: a node without parent wraps
    [init]; any other node was created after its parent and wraps one of
    the parent's extensions. *)
Definition heap_ok (init : State) (h : heap) : Prop :=
  ∀ a nd, h !! a = Some nd →
    match parent nd with
    | None => puzzle nd = init
    | Some p =>
        p < a ∧ ∃ pn, h !! p = Some pn ∧ puzzle nd ∈ extensions (puzzle pn)
    end.

(** No [children] list has been touched yet. *)
Definition childless (h : heap) : Prop :=
  ∀ a nd, h !! a = Some nd → children nd = [].

(** The addresses of a work list are those of nodes of the store. *)
Definition in_heap (h : heap) (l : list addr) : Prop :=
  ∀ a, a ∈ l → a < length h.

(** The state wrapped by the node at an address. *)
Definition node_state (h : heap) (a : addr) : option State :=
  puzzle <$> h !! a.

(** The states of the chain below a node, read off the store; [None]
    when some node on the way has several children or the chain is longer
    than [fuel]. *)
Fixpoint read_chain (fuel : nat) (h : heap) (a : addr) : option (list State) :=
  match fuel with
  | 0 => None
  | S fuel' =>
      h !! a ≫= λ nd,
        match children nd with
        | [] => Some [puzzle nd]
        | [c] => (λ l, puzzle nd :: l) <$> read_chain fuel' h c
        | _ => None
        end
  end.

(** Two stores that differ in [children] lists only. *)
Definition same_links (h h' : heap) : Prop :=
  ∀ a, (λ nd, (puzzle nd, parent nd)) <$> h !! a
       = (λ nd, (puzzle nd, parent nd)) <$> h' !! a.

(** A returned node [r] is the root of a solution path for [init]. *)
Definition solution_path (init : State) (h : heap) (r : addr)
    (l : list State) : Prop :=
  is_chain h r l
  ∧ head l = Some init
  ∧ (∃ s, last l = Some s ∧ is_solved s = true)
  ∧ is_path l
  ∧ (∃ nd, h !! r = Some nd ∧ parent nd = None).

(** Two nodes are equivalent when their puzzles are equal and each child
    of either is, or is equivalent to, some child of the other. *)
Inductive node_equiv (h : heap) : addr → addr → Prop :=
| node_equiv_intro a b na nb :
    h !! a = Some na → h !! b = Some nb →
    puzzle_eq (puzzle na) (puzzle nb) = true →
    (∀ x, x ∈ children nb →
          ∃ e, e ∈ children na ∧ (x = e ∨ node_equiv h x e)) →
    (∀ x, x ∈ children na →
          ∃ e, e ∈ children nb ∧ (x = e ∨ node_equiv h x e)) →
    node_equiv h a b.

(** The children of a node are nodes of the store created after it: the
    store holds trees. *)
Definition tree_shaped (h : heap) : Prop :=
  ∀ a nd c, h !! a = Some nd → c ∈ children nd → a < c < length h.

(** Two stores with the same nodes up to the [parent] fields and up to
    the order and the repetitions in the [children] lists. *)
Definition alike (h h' : heap) : Prop :=
  length h = length h'
  ∧ ∀ c n n', h !! c = Some n → h' !! c = Some n' →
      puzzle n = puzzle n' ∧ ∀ x, x ∈ children n ↔ x ∈ children n'.

(** The canonical form tells apart the states that can be reached from
    [init]. *)
Definition str_separates (init : State) : Prop :=
  ∀ a b, reachable init a → reachable init b → str a = str b → a = b.

(** The number of [parent] links above a node. *)
Definition depth (h : heap) (a : addr) (d : nat) : Prop :=
  ∃ up, upchain h a up ∧ length up = S d.

(** A queue holds nodes of one depth, followed by nodes one deeper. *)
Definition levels (h : heap) (que : list addr) : Prop :=
  ∃ D q1 q2, que = q1 ++ q2
             ∧ (∀ a, a ∈ q1 → depth h a D)
             ∧ (∀ a, a ∈ q2 → depth h a (S D)).

(** The number of edges of a path given by its states. *)
Definition edges (l : list State) : nat := length l - 1.

(** Nodes are only ever added at the end; what was there stays. *)
Definition extends (h h' : heap) : Prop := ∃ k, h' = h ++ k.

(** What holds at every turn of the depth-first loop: the store is that
    of a search, and the states expanded so far have distinct canonical
    forms, all of them visited. *)
Definition dfs_inv (init : State) (h : heap) (V : gset string)
    (st : list addr) (calls : list State) : Prop :=
  heap_ok init h ∧ childless h ∧ in_heap h st
  ∧ NoDup (str <$> calls) ∧ (∀ c, c ∈ calls → str c ∈ V).

(** What holds at every turn of the breadth-first loop. *)
Definition bfs_inv (init : State) (h : heap) (V : gset string)
    (que : list addr) (calls : list State) : Prop :=
  heap_ok init h ∧ childless h ∧ in_heap h que.

(** What the breadth-first loop keeps true when the canonical form tells
    the states within reach apart; [calls] are the states taken from the
    queue so far. *)
Record lvl_inv (init : State) (h : heap) (V : gset string)
    (que : list addr) (calls : list State) : Prop := {
  lvl_base : bfs_inv init h V que calls;
  lvl_visited : ∀ x, x ∈ V ↔ ∃ s, s ∈ calls ∧ str s = x;
  lvl_unsolved : ∀ s, s ∈ calls → is_solved s = false;
  lvl_reach : ∀ s, s ∈ calls → reachable init s;
  lvl_levels : levels h que;
  lvl_root : init ∈ calls ∨ ∃ a, a ∈ que ∧ depth h a 0;
  (* each extension of a state taken from the queue has been taken from
     the queue itself, or waits there no deeper than one below that state *)
  lvl_closed : ∀ s e, s ∈ calls → e ∈ extensions s →
    e ∈ calls
    ∨ ∃ a nd d, a ∈ que ∧ h !! a = Some nd ∧ puzzle nd = e ∧ depth h a d
                ∧ ∀ n, reach init n s → d ≤ S n
}.


(** The states of a path, each followed by an empty line. *)
Definition path_text (l : list State) : string :=
  fold_right (λ s acc, str s ++ newline ++ newline ++ acc)%string
             EmptyString l.

(** A weight for each node of a queue: [B + 1] to the power of what is
    left of [N] after the number of nodes from the root to it. *)
Definition weights (B N : nat) (h : heap) (que : list addr)
    (ws : list nat) : Prop :=
  Forall2 (λ a w, ∃ d, depth h a d ∧ w = (B + 1) ^ (N - S d)) que ws.

(** A node of the initial work list of [depth_first_solve]: its parent is
    a root that wraps the initial state. *)
Definition seeded (init : State) (h : heap) (a : addr) : Prop :=
  ∃ nd p pn, h !! a = Some nd ∧ parent nd = Some p
             ∧ h !! p = Some pn ∧ parent pn = None ∧ puzzle pn = init.

(** More of what the depth-first loop keeps true: [visited] holds the
    canonical forms of the expanded states, none of which is solved; each
    extension of an expanded state is visited or waits on the work list;
    the ancestors of a waiting node were expanded and have distinct
    canonical forms. *)
Definition dfs_more (init : State) (h : heap) (V : gset string)
    (st : list addr) (calls : list State) : Prop :=
  dfs_inv init h V st calls
  ∧ (∀ x, x ∈ V ↔ ∃ s, s ∈ calls ∧ str s = x)
  ∧ (∀ s, s ∈ calls → is_solved s = false)
  ∧ (∀ s, s ∈ calls → reachable init s)
  ∧ (∀ s e, s ∈ calls → e ∈ extensions s →
        str e ∈ V ∨ ∃ a, a ∈ st ∧ node_state h a = Some e)
  ∧ (∀ a up, a ∈ st → upchain h a up →
        NoDup (str <$> tail up) ∧ ∀ s, s ∈ tail up → s ∈ calls)
  ∧ init ∈ calls.

(** More of what the breadth-first loop keeps true: [visited] holds the
    canonical forms of the states taken from the queue, none of which is
    solved; a waiting node and its ancestors have distinct canonical
    forms, and the ancestors were taken from the queue. *)
Definition bfs_more (init : State) (h : heap) (V : gset string)
    (que : list addr) (calls : list State) : Prop :=
  bfs_inv init h V que calls
  ∧ (∀ x, x ∈ V ↔ ∃ s, s ∈ calls ∧ str s = x)
  ∧ (∀ s, s ∈ calls → is_solved s = false)
  ∧ (∀ a up, a ∈ que → upchain h a up →
        NoDup (str <$> up) ∧ ∀ s, s ∈ tail up → s ∈ calls).

End Paths.

(** ** Ladders and stores used as examples *)

Section Ladders.
Import WordLadder.

Definition square_words : gset string := {[ "aa"; "ab"; "ba"; "bb" ]}%string.

(** From ["aa"] to ["bb"] over the four two-letter words on [a], [b]. *)
Definition ladder_aa_bb : WordLadderPuzzle := mkWL "aa" "bb" square_words.

(** The same words, and a target that is not among them. *)
Definition ladder_aa_zz : WordLadderPuzzle := mkWL "aa" "zz" square_words.

(** A ladder that starts where it ends. *)
Definition ladder_aa_aa : WordLadderPuzzle := mkWL "aa" "aa" square_words.

(** A ladder whose first word has no neighbour in the word set. *)
Definition ladder_stuck : WordLadderPuzzle := mkWL "aa" "zz" {[ "aa" ]}%string.


(** Two nodes for the same ladder with the same two children, in a
    different order and with a repetition, below different parents. *)
Definition twin_store : list (PuzzleNode WordLadderPuzzle) :=
  [mkNode ladder_aa_bb [2; 3] None;
   mkNode ladder_aa_bb [3; 2; 3] (Some 0);
   mkNode (mkWL "ba" "bb" square_words) [] (Some 0);
   mkNode (mkWL "ab" "bb" square_words) [] (Some 1)].

(** The same nodes with other parents and the children rearranged. *)
Definition twin_store' : list (PuzzleNode WordLadderPuzzle) :=
  [mkNode ladder_aa_bb [3; 2] (Some 1);
   mkNode ladder_aa_bb [2; 3] None;
   mkNode (mkWL "ba" "bb" square_words) [] None;
   mkNode (mkWL "ab" "bb" square_words) [] None].

(** The four ladders over [square_words] towards [t]. *)
Definition square_ladders (t : string) : list WordLadderPuzzle :=
  (λ w, mkWL w t square_words) <$> ["aa"; "ba"; "ab"; "bb"]%string.

(** A puzzle that breaks the contract of the interface: the states [3]
    and [0] have the same canonical form.  [0] leads to [1] and [2], [1]
    to [3], [2] to [4], [4] to [5]; [3] and [5] are solved. *)
Definition colliding_puzzle : Puzzle nat := {|
  is_solved := λ n, match n with 3 | 5 => true | _ => false end;
  extensions := λ n, match n with
                     | 0 => [1; 2] | 1 => [3] | 2 => [4] | 4 => [5]
                     | _ => []
                     end;
  str := λ n, match n with
              | 0 | 3 => "zero" | 1 => "one" | 2 => "two" | 4 => "four"
              | _ => "more"
              end%string;
  puzzle_eq := Nat.eqb
|}.

(** The ladders that may be within reach of [p]. *)
Definition wl_states (p : WordLadderPuzzle) : list WordLadderPuzzle :=
  p :: ((λ w, mkWL w (to_word p) (word_set p)) <$> elements (word_set p)).

(** The store that [breadth_first_solve] leaves for [ladder_aa_bb]. *)
Definition bfs_store_aa_bb : list (PuzzleNode WordLadderPuzzle) :=
  [mkNode ladder_aa_bb [1] None;
   mkNode (mkWL "ba" "bb" square_words) [3] (Some 0);
   mkNode (mkWL "ab" "bb" square_words) [] (Some 0);
   mkNode (mkWL "bb" "bb" square_words) [] (Some 1);
   mkNode (mkWL "bb" "bb" square_words) [] (Some 2)].

(** The store that [depth_first_solve] leaves for [ladder_aa_bb]. *)
Definition dfs_store_aa_bb : list (PuzzleNode WordLadderPuzzle) :=
  [mkNode ladder_aa_bb [1] None;
   mkNode (mkWL "ba" "bb" square_words) [5] (Some 0);
   mkNode ladder_aa_bb [] None;
   mkNode (mkWL "ab" "bb" square_words) [] (Some 2);
   mkNode ladder_aa_bb [] (Some 1);
   mkNode (mkWL "bb" "bb" square_words) [] (Some 1)].

(** The ladder that both engines return for [ladder_aa_bb]. *)
Definition path_aa_ba_bb : list WordLadderPuzzle :=
  [ladder_aa_bb; mkWL "ba" "bb" square_words; mkWL "bb" "bb" square_words].

End Ladders.

(** * Properties of the engines *)

Section EngineFacts.
Context {State : Type} {PZ : Puzzle State}.

Local Abbreviation heap := (list (PuzzleNode State)).

(** ** The store during a search *)

Lemma extends_refl (h : heap) : extends h h.
Proof. exists []. by rewrite app_nil_r. Qed.

Lemma extends_trans (h1 h2 h3 : heap) : extends h1 h2 → extends h2 h3 → extends h1 h3.
Proof. intros [k1 ->] [k2 ->]. exists (k1 ++ k2). by rewrite app_assoc. Qed.

Lemma extends_lookup (h h' : heap) a nd :
  extends h h' → h !! a = Some nd → h' !! a = Some nd.
Proof. intros [k ->] Ha. by apply lookup_app_l_Some. Qed.

Lemma extends_length (h h' : heap) : extends h h' → length h ≤ length h'.
Proof. intros [k ->]. rewrite length_app. lia. Qed.

Lemma new_node_extends (h : heap) p par : extends h (new_node h p par).1.
Proof. by exists [mkNode p [] par]. Qed.

Lemma new_node_lookup (h : heap) p par :
  (new_node h p par).1 !! (new_node h p par).2 = Some (mkNode p [] par).
Proof. simpl. by rewrite list_lookup_middle. Qed.

(** [pn = PuzzleNode(ext); pn.parent = cwn] leaves the same store as
    [PuzzleNode(ext, parent=cwn)]. *)
Lemma enqueue_step_fresh visited cwn h que ext :
  str ext ∉ visited →
  enqueue_step visited cwn (h, que) ext
  = ((new_node h ext (Some cwn)).1, que ++ [length h]).
Proof.
  intros Hn. unfold enqueue_step. rewrite decide_False by done. simpl.
  rewrite list_lookup_middle by done. simpl.
  f_equal.
  replace (length h) with (length h + 0) at 1 by lia.
  rewrite insert_app_r. done.
Qed.

Lemma enqueue_step_seen visited cwn h que ext :
  str ext ∈ visited → enqueue_step visited cwn (h, que) ext = (h, que).
Proof. intros Hn. unfold enqueue_step. by rewrite decide_True. Qed.

(** The two inner [for] loops, in closed form. *)
Lemma push_fold cur exts (h : heap) stack :
  fold_left (push_step cur) exts (h, stack)
  = (h ++ map (λ p, mkNode p [] (Some cur)) exts,
     reverse (seq (length h) (length exts)) ++ stack).
Proof.
  revert h stack. induction exts as [|p exts IH]; intros h stack; simpl.
  - by rewrite app_nil_r.
  - rewrite IH. rewrite length_app. simpl.
    rewrite reverse_cons, <- !app_assoc. simpl. by rewrite Nat.add_1_r.
Qed.

Lemma enqueue_fold visited cwn exts (h : heap) que :
  fold_left (enqueue_step visited cwn) exts (h, que)
  = (h ++ map (λ p, mkNode p [] (Some cwn))
            (filter (λ e, str e ∉ visited) exts),
     que ++ seq (length h) (length (filter (λ e, str e ∉ visited) exts))).
Proof.
  revert h que. induction exts as [|p exts IH]; intros h que.
  - simpl. by rewrite !app_nil_r.
  - cbn [fold_left]. destruct (decide (str p ∈ visited)) as [Hin|Hin].
    + rewrite enqueue_step_seen by done. rewrite IH.
      rewrite filter_cons_False by (intros ?; done). done.
    + rewrite enqueue_step_fresh by done. rewrite IH.
      rewrite filter_cons_True by done. simpl.
      rewrite length_app. simpl. rewrite <- !app_assoc. simpl.
      by rewrite Nat.add_1_r.
Qed.

(** ** Paths *)

Lemma is_path_snoc l x y :
  is_path l → last l = Some y → x ∈ extensions y → is_path (l ++ [x]).
Proof.
  induction l as [|a [|b t] IH]; intros Hp Hl Hx; simpl in *.
  - done.
  - by simplify_eq.
  - destruct Hp as [Hab Hp]. split; [done|]. by apply IH.
Qed.

Lemma is_path_reach init l s :
  is_path l → head l = Some init → last l = Some s →
  reach init (length l - 1) s.
Proof.
  revert s. induction l as [|x l IH] using rev_ind; intros s Hp Hh Hl.
  - done.
  - rewrite last_snoc in Hl. simplify_eq. rewrite length_app. simpl.
    destruct l as [|a l] using rev_ind.
    + simpl in *. simplify_eq. constructor.
    + clear IHl. replace (length (l ++ [a]) + 1 - 1) with (S (length (l ++ [a]) - 1))
        by (rewrite length_app; simpl; lia).
      assert (Hp' : is_path (l ++ [a]) ∧ s ∈ extensions a).
      { revert Hp. clear. rewrite <- app_assoc. simpl.
        induction l as [|b [|c t] IHl]; simpl in *; tauto. }
      destruct Hp' as [Hp1 Hp2].
      apply reach_step with a; [|done].
      apply IH; [done| |by rewrite last_snoc].
      destruct l; simpl in *; done.
Qed.

Lemma reach_is_path init n s :
  reach init n s →
  ∃ l, is_path l ∧ head l = Some init ∧ last l = Some s ∧ length l = S n.
Proof.
  induction 1 as [|n s t _ (l & Hp & Hh & Hl & Hn) Ht].
  - by exists [init].
  - exists (l ++ [t]). split_and!.
    + by eapply is_path_snoc.
    + destruct l; simpl in *; done.
    + by rewrite last_snoc.
    + rewrite length_app. simpl. lia.
Qed.

(** ** Stores *)

Lemma heap_ok_nil init : heap_ok init [].
Proof. intros a nd Ha. done. Qed.

Lemma childless_nil : childless ([] : heap).
Proof. intros a nd Ha. done. Qed.

Lemma heap_ok_root init h :
  heap_ok init h → heap_ok init (h ++ [mkNode init [] None]).
Proof.
  intros Hok a nd Ha. apply lookup_app_Some in Ha as [Ha|[Hlen Ha]].
  - specialize (Hok a nd Ha). destruct (parent nd) as [p|]; [|done].
    destruct Hok as (Hlt & pn & Hp & Hext). split; [done|].
    exists pn. split; [|done]. by apply lookup_app_l_Some.
  - apply list_lookup_singleton_Some in Ha as [_ <-]. done.
Qed.

Lemma heap_ok_children init h cur nd ps :
  heap_ok init h → h !! cur = Some nd → ps ⊆ extensions (puzzle nd) →
  heap_ok init (h ++ map (λ p, mkNode p [] (Some cur)) ps).
Proof.
  intros Hok Hcur Hps a na Ha. apply lookup_app_Some in Ha as [Ha|[Hlen Ha]].
  - specialize (Hok a na Ha). destruct (parent na) as [p|]; [|done].
    destruct Hok as (Hlt & pn & Hp & Hext). split; [done|].
    exists pn. split; [|done]. by apply lookup_app_l_Some.
  - apply list_lookup_fmap_Some in Ha as (p & -> & Hp). simpl.
    apply lookup_lt_Some in Hcur as Hlt. split; [lia|].
    exists nd. split; [by apply lookup_app_l_Some|].
    apply Hps. by eapply list_elem_of_lookup_2.
Qed.

Lemma childless_app (h k : heap) :
  childless h → (∀ nd, nd ∈ k → children nd = []) → childless (h ++ k).
Proof.
  intros Hh Hk a nd Ha. apply lookup_app_Some in Ha as [Ha|[_ Ha]].
  - by eapply Hh.
  - apply Hk. by eapply list_elem_of_lookup_2.
Qed.

Lemma childless_children (h : heap) cur ps :
  childless h → childless (h ++ map (λ p, mkNode p [] (Some cur)) ps).
Proof.
  intros Hh. apply childless_app; [done|].
  intros nd Hnd. apply list_elem_of_fmap in Hnd as (p & -> & _). done.
Qed.

Lemma in_heap_extends (h h' : heap) l : extends h h' → in_heap h l → in_heap h' l.
Proof.
  intros He Hl a Ha. apply extends_length in He. specialize (Hl a Ha). lia.
Qed.

Lemma in_heap_seq (h k : heap) :
  in_heap (h ++ k) (seq (length h) (length k)).
Proof.
  intros a Ha. apply elem_of_seq in Ha. rewrite length_app. lia.
Qed.

Lemma in_heap_app (h : heap) l1 l2 :
  in_heap h (l1 ++ l2) ↔ in_heap h l1 ∧ in_heap h l2.
Proof.
  unfold in_heap. split.
  - intros Hl. split; intros a Ha; apply Hl, elem_of_app; auto.
  - intros [H1 H2] a Ha. apply elem_of_app in Ha as [Ha|Ha]; auto.
Qed.

Lemma in_heap_cons (h : heap) a l :
  in_heap h (a :: l) ↔ a < length h ∧ in_heap h l.
Proof.
  unfold in_heap. split.
  - intros Hl. split; [|intros b Hb]; apply Hl, elem_of_cons; auto.
  - intros [H1 H2] b Hb. apply elem_of_cons in Hb as [->|Hb]; auto.
Qed.

(** ** Reconstruction of the path *)

Lemma upchain_head (h : heap) a l :
  upchain h a l → ∃ nd, h !! a = Some nd ∧ head l = Some (puzzle nd).
Proof. destruct 1; eauto. Qed.

Lemma upchain_same_links (h h' : heap) a l :
  same_links h h' → upchain h a l → upchain h' a l.
Proof.
  intros Hs. induction 1 as [a nd Ha Hp|a nd p l Ha Hp Hlt _ IH].
  - pose proof (Hs a) as Hsa. rewrite Ha in Hsa.
    destruct (h' !! a) as [nd'|] eqn:Ha'; [|done].
    injection Hsa as Hpz Hpar. rewrite Hpz.
    apply up_root; [done|congruence].
  - pose proof (Hs a) as Hsa. rewrite Ha in Hsa.
    destruct (h' !! a) as [nd'|] eqn:Ha'; [|done].
    injection Hsa as Hpz Hpar. rewrite Hpz.
    eapply up_step; [done| |done|done]. congruence.
Qed.

Lemma upchain_extends (h h' : heap) a l :
  extends h h' → upchain h a l → upchain h' a l.
Proof.
  intros He. induction 1.
  - eapply up_root; eauto using extends_lookup.
  - eapply up_step; eauto using extends_lookup.
Qed.

Lemma upchain_inj (h : heap) a l l' :
  upchain h a l → upchain h a l' → l = l'.
Proof.
  intros Hu. revert l'. induction Hu; intros l' Hu'; inversion Hu'; simplify_eq; try done.
  f_equal. eauto.
Qed.

Lemma inc_chain_is_chain (h : heap) a l : inc_chain h a l → is_chain h a l.
Proof. induction 1; [by eapply chain_leaf|by eapply chain_cons]. Qed.

Lemma inc_chain_local (h h' : heap) a l :
  (∀ b, a ≤ b → h' !! b = h !! b) → inc_chain h a l → inc_chain h' a l.
Proof.
  intros Hl Hc. induction Hc as [a nd Ha Hc|a nd c l Ha Hc Hlt _ IH].
  - apply inc_leaf; [|done]. rewrite Hl; [done|lia].
  - eapply inc_cons; [|done|done|].
    + rewrite Hl; [done|lia].
    + apply IH. intros b Hb. apply Hl. lia.
Qed.

Lemma set_children_lookup (h : heap) p cs pn :
  h !! p = Some pn →
  set_children h p cs !! p = Some (mkNode (puzzle pn) cs (parent pn)).
Proof.
  intros Hp. unfold set_children. rewrite Hp.
  apply list_lookup_insert_eq. by eapply lookup_lt_Some.
Qed.

Lemma set_children_lookup_ne (h : heap) p cs b :
  p ≠ b → set_children h p cs !! b = h !! b.
Proof.
  intros Hne. unfold set_children. destruct (h !! p); [|done].
  by apply list_lookup_insert_ne.
Qed.

Lemma set_children_length (h : heap) p cs :
  length (set_children h p cs) = length h.
Proof.
  unfold set_children. destruct (h !! p); [|done]. apply length_insert.
Qed.

Lemma set_children_same_links (h : heap) p cs :
  same_links h (set_children h p cs).
Proof.
  intros a. destruct (decide (p = a)) as [<-|Hne].
  - destruct (h !! p) as [pn|] eqn:Hp.
    + by rewrite (set_children_lookup _ _ _ _ Hp).
    + unfold set_children. rewrite Hp. by rewrite Hp.
  - by rewrite set_children_lookup_ne.
Qed.

Lemma append_child_set_children (h : heap) p c pn :
  h !! p = Some pn → children pn = [] →
  append_child h p c = set_children h p [c].
Proof.
  intros Hp Hc. unfold append_child, set_children. rewrite Hp, Hc. done.
Qed.

(** The upward walk of [breadth_first_search] turns the parent links
    into a chain of single children. *)
Lemma bfs_rewire_chain up :
  ∀ (h : heap) a m fuel,
    upchain h a up → inc_chain h a m → length up ≤ fuel →
    ∃ h' r, bfs_rewire fuel h a = Some (h', [r])
            ∧ inc_chain h' r (reverse (tail up) ++ m)
            ∧ (∃ nd, h' !! r = Some nd ∧ parent nd = None)
            ∧ length h' = length h.
Proof.
  induction up as [|x up IH]; intros h a m fuel Hu Hm Hf.
  - inversion Hu.
  - destruct fuel as [|fuel]; [simpl in Hf; lia|]. simpl in Hf.
    inversion Hu as [a' nd Ha Hp|a' nd p l Ha Hp Hlt Hup]; simplify_eq/=.
    + rewrite Ha, Hp. exists h, a. split_and!; eauto.
    + rewrite Ha, Hp.
      destruct (upchain_head _ _ _ Hup) as (pn & Hpn & Hhd).
      destruct (IH (set_children h p [a]) p (puzzle pn :: m) fuel)
        as (h' & r & Hr & Hc & Hroot & Hlen).
      * eapply upchain_same_links; [apply set_children_same_links|done].
      * apply (inc_cons _ p (mkNode (puzzle pn) [a] (parent pn)) a m).
        -- by apply set_children_lookup.
        -- done.
        -- done.
        -- eapply inc_chain_local; [|done].
           intros b Hb. apply set_children_lookup_ne. lia.
      * lia.
      * exists h', r. split_and!; [done| |done|].
        -- destruct up as [|y up]; simplify_eq/=.
           by rewrite reverse_cons, <- app_assoc.
        -- by rewrite Hlen, set_children_length.
Qed.

(** So does [dfs_path_maker], as long as the ancestors have no child
    yet. *)
Lemma dfs_path_maker_chain up :
  ∀ (h : heap) a m fuel,
    upchain h a up → inc_chain h a m → length up ≤ fuel →
    (∀ b nd, b < a → h !! b = Some nd → children nd = []) →
    ∃ h' r, dfs_path_maker fuel h a = Some (h', r)
            ∧ inc_chain h' r (reverse (tail up) ++ m)
            ∧ (∃ nd, h' !! r = Some nd ∧ parent nd = None)
            ∧ length h' = length h.
Proof.
  induction up as [|x up IH]; intros h a m fuel Hu Hm Hf Hno.
  - inversion Hu.
  - destruct fuel as [|fuel]; [simpl in Hf; lia|]. simpl in Hf.
    inversion Hu as [a' nd Ha Hp|a' nd p l Ha Hp Hlt Hup]; simplify_eq/=.
    + rewrite Ha, Hp. exists h, a. split_and!; eauto.
    + rewrite Ha, Hp.
      destruct (upchain_head _ _ _ Hup) as (pn & Hpn & Hhd).
      rewrite (append_child_set_children _ _ _ pn) by eauto.
      destruct (IH (set_children h p [a]) p (puzzle pn :: m) fuel)
        as (h' & r & Hr & Hc & Hroot & Hlen).
      * eapply upchain_same_links; [apply set_children_same_links|done].
      * apply (inc_cons _ p (mkNode (puzzle pn) [a] (parent pn)) a m).
        -- by apply set_children_lookup.
        -- done.
        -- done.
        -- eapply inc_chain_local; [|done].
           intros b Hb. apply set_children_lookup_ne. lia.
      * lia.
      * intros b nb Hb Hnb. rewrite set_children_lookup_ne in Hnb by lia.
        eapply Hno; [|done]. lia.
      * exists h', r. split_and!; [done| |done|].
        -- destruct up as [|y up]; simplify_eq/=.
           by rewrite reverse_cons, <- app_assoc.
        -- by rewrite Hlen, set_children_length.
Qed.

(** In the store of a search every node has its chain of ancestors, which
    read from the top is a path from the initial state. *)
Lemma heap_ok_upchain init (h : heap) :
  heap_ok init h →
  ∀ a nd, h !! a = Some nd →
    ∃ up, upchain h a up ∧ last up = Some init ∧ is_path (reverse up)
          ∧ head up = Some (puzzle nd) ∧ length up ≤ S a.
Proof.
  intros Hok a. induction a as [a IH] using lt_wf_ind. intros nd Ha.
  pose proof (Hok a nd Ha) as Hnd.
  destruct (parent nd) as [p|] eqn:Hp.
  - destruct Hnd as (Hlt & pn & Hpn & Hext).
    destruct (IH p Hlt pn Hpn) as (up & Hup & Hlast & Hpath & Hhd & Hlen).
    exists (puzzle nd :: up). split_and!.
    + by eapply up_step.
    + destruct up; simplify_eq/=. done.
    + rewrite reverse_cons. eapply is_path_snoc; [done| |done].
      rewrite last_reverse. done.
    + done.
    + simpl. lia.
  - exists [puzzle nd]. split_and!; simpl; try done.
    + by apply up_root.
    + by rewrite Hnd.
    + lia.
Qed.

(** ** More fuel does not change what a reconstruction returns *)

Lemma dfs_path_maker_mono fuel fuel' (h : heap) a x :
  dfs_path_maker fuel h a = Some x → fuel ≤ fuel' →
  dfs_path_maker fuel' h a = Some x.
Proof.
  revert fuel' h a. induction fuel as [|fuel IH]; intros fuel' h a Hx Hle.
  - done.
  - destruct fuel' as [|fuel']; [lia|]. simpl in *.
    destruct (h !! a) as [nd|]; [|done].
    destruct (parent nd); [|done]. apply IH; [done|lia].
Qed.

Lemma bfs_rewire_mono fuel fuel' (h : heap) a x :
  bfs_rewire fuel h a = Some x → fuel ≤ fuel' →
  bfs_rewire fuel' h a = Some x.
Proof.
  revert fuel' h a. induction fuel as [|fuel IH]; intros fuel' h a Hx Hle.
  - done.
  - destruct fuel' as [|fuel']; [lia|]. simpl in *.
    destruct (h !! a) as [nd|]; [|done].
    destruct (parent nd); [|done]. apply IH; [done|lia].
Qed.

(** What the reconstructions yield from a solved node of a store whose
    [children] lists are still empty. *)
Lemma solved_node_chain init (h : heap) cur nd :
  heap_ok init h → childless h → h !! cur = Some nd →
  ∃ up, upchain h cur up ∧ inc_chain h cur [puzzle nd]
        ∧ reverse (tail up) ++ [puzzle nd] = reverse up
        ∧ head (reverse up) = Some init
        ∧ last (reverse up) = Some (puzzle nd)
        ∧ is_path (reverse up).
Proof.
  intros Hok Hno Hcur.
  destruct (heap_ok_upchain _ _ Hok _ _ Hcur)
    as (up & Hup & Hlast & Hpath & Hhd & Hlen).
  exists up. split_and!; [done| | |by rewrite head_reverse
                         |by rewrite last_reverse|done].
  - apply inc_leaf; eauto.
  - destruct up as [|x up]; simplify_eq/=. by rewrite reverse_cons.
Qed.

Lemma rebuilt_dfs init (h : heap) cur nd fuel x :
  heap_ok init h → childless h → h !! cur = Some nd →
  is_solved (puzzle nd) = true →
  dfs_path_maker fuel h cur = Some x →
  ∃ l, solution_path init x.1 x.2 l ∧ upchain h cur (reverse l).
Proof.
  intros Hok Hno Hcur Hsol Hx.
  destruct (solved_node_chain _ _ _ _ Hok Hno Hcur)
    as (up & Hup & Hleaf & Hrev & Hhd & Hlast & Hpath).
  destruct (dfs_path_maker_chain up h cur [puzzle nd] (fuel `max` length up)
              Hup Hleaf) as (h' & r & Hd & Hc & Hroot & _); [lia|by eauto|].
  rewrite (dfs_path_maker_mono _ _ _ _ _ Hx) in Hd by lia. simplify_eq/=.
  exists (reverse up). rewrite Hrev in Hc. rewrite reverse_involutive.
  split; [|done]. split_and!; eauto using inc_chain_is_chain.
Qed.

Lemma rebuilt_bfs init (h : heap) cur nd fuel x :
  heap_ok init h → childless h → h !! cur = Some nd →
  is_solved (puzzle nd) = true →
  bfs_rewire fuel h cur = Some x →
  ∃ r l, x.2 = [r] ∧ solution_path init x.1 r l ∧ upchain h cur (reverse l).
Proof.
  intros Hok Hno Hcur Hsol Hx.
  destruct (solved_node_chain _ _ _ _ Hok Hno Hcur)
    as (up & Hup & Hleaf & Hrev & Hhd & Hlast & Hpath).
  destruct (bfs_rewire_chain up h cur [puzzle nd] (fuel `max` length up)
              Hup Hleaf) as (h' & r & Hd & Hc & Hroot & _); [lia|].
  rewrite (bfs_rewire_mono _ _ _ _ _ Hx) in Hd by lia. simplify_eq/=.
  exists r, (reverse up). rewrite Hrev in Hc. rewrite reverse_involutive.
  split; [done|]. split; [|done]. split_and!; eauto using inc_chain_is_chain.
Qed.

(** Enough fuel makes each reconstruction return. *)
Lemma dfs_path_maker_returns init (h : heap) cur nd fuel :
  heap_ok init h → childless h → h !! cur = Some nd → cur < fuel →
  is_Some (dfs_path_maker fuel h cur).
Proof.
  intros Hok Hno Hcur Hf.
  destruct (heap_ok_upchain _ _ Hok _ _ Hcur)
    as (up & Hup & _ & _ & _ & Hlen).
  destruct (dfs_path_maker_chain up h cur [puzzle nd] fuel Hup)
    as (h' & r & Hd & _); [apply inc_leaf; eauto|lia|by eauto|].
  by rewrite Hd.
Qed.

Lemma bfs_rewire_returns init (h : heap) cur nd fuel :
  heap_ok init h → childless h → h !! cur = Some nd → cur < fuel →
  is_Some (bfs_rewire fuel h cur).
Proof.
  intros Hok Hno Hcur Hf.
  destruct (heap_ok_upchain _ _ Hok _ _ Hcur)
    as (up & Hup & _ & _ & _ & Hlen).
  destruct (bfs_rewire_chain up h cur [puzzle nd] fuel Hup)
    as (h' & r & Hd & _); [apply inc_leaf; eauto|lia|].
  by rewrite Hd.
Qed.

(** ** Loop rules

    An invariant of the loop body holds of whatever the loop returns. *)

Lemma dfs_loop_rule
    (I : heap → gset string → list addr → list State → Prop)
    (P : run State → Prop) pm :
  (∀ h V cur st calls, I h V (cur :: st) calls → is_Some (h !! cur)) →
  (∀ h V cur st calls nd,
      I h V (cur :: st) calls → h !! cur = Some nd →
      str (puzzle nd) ∈ V → I h V st calls) →
  (∀ h V cur st calls nd,
      I h V (cur :: st) calls → h !! cur = Some nd →
      str (puzzle nd) ∉ V → is_solved (puzzle nd) = false →
      I (h ++ map (λ p, mkNode p [] (Some cur)) (extensions (puzzle nd)))
        (V ∪ {[str (puzzle nd)]})
        (reverse (seq (length h) (length (extensions (puzzle nd)))) ++ st)
        (calls ++ [puzzle nd])) →
  (∀ h V st calls, I h V st calls → P (mkRun OutOfFuel h calls)) →
  (∀ h V calls, I h V [] calls → P (mkRun (Returned None) h calls)) →
  (∀ h V cur st calls nd,
      I h V (cur :: st) calls → h !! cur = Some nd →
      str (puzzle nd) ∉ V → is_solved (puzzle nd) = true →
      P (match dfs_path_maker pm h cur with
         | Some (h', r) => mkRun (Returned (Some r)) h' calls
         | None => mkRun OutOfFuel h calls
         end)) →
  ∀ fuel h V st calls, I h V st calls → P (dfs_loop pm fuel h V st calls).
Proof.
  intros Hsome Hskip Hexp Hfuel Hnil Hsol.
  induction fuel as [|fuel IH]; intros h V st calls HI; simpl.
  - by eapply Hfuel.
  - destruct st as [|cur st]; [by eapply Hnil|].
    destruct (Hsome _ _ _ _ _ HI) as [nd Hcur]. rewrite Hcur.
    destruct (decide (str (puzzle nd) ∈ V)) as [Hin|Hin].
    + apply IH. by eapply Hskip.
    + destruct (is_solved (puzzle nd)) eqn:Hs.
      * by eapply Hsol.
      * rewrite push_fold. apply IH. by eapply Hexp.
Qed.

Lemma bfs_loop_rule
    (I : heap → gset string → list addr → list State → Prop)
    (P : option (option (list addr)) * heap * list State → Prop) rw :
  (∀ h V cwn que calls, I h V (cwn :: que) calls → is_Some (h !! cwn)) →
  (∀ h V cwn que calls nd,
      I h V (cwn :: que) calls → h !! cwn = Some nd →
      is_solved (puzzle nd) = false →
      let V' := V ∪ {[str (puzzle nd)]} in
      let new := filter (λ e, str e ∉ V') (extensions (puzzle nd)) in
      I (h ++ map (λ p, mkNode p [] (Some cwn)) new) V'
        (que ++ seq (length h) (length new)) (calls ++ [puzzle nd])) →
  (∀ h V que calls, I h V que calls → P (None, h, calls)) →
  (∀ h V calls, I h V [] calls → P (Some None, h, calls)) →
  (∀ h V cwn que calls nd,
      I h V (cwn :: que) calls → h !! cwn = Some nd →
      is_solved (puzzle nd) = true →
      let V' := V ∪ {[str (puzzle nd)]} in
      let new := filter (λ e, str e ∉ V') (extensions (puzzle nd)) in
      let h' := h ++ map (λ p, mkNode p [] (Some cwn)) new in
      let calls' := calls ++ [puzzle nd] in
      P (match bfs_rewire rw h' cwn with
         | Some (h'', path) => (Some (Some path), h'', calls')
         | None => (None, h', calls')
         end)) →
  ∀ fuel h V que calls, I h V que calls → P (bfs_loop rw fuel h V que calls).
Proof.
  intros Hsome Hstep Hfuel Hnil Hsol.
  induction fuel as [|fuel IH]; intros h V que calls HI; simpl.
  - by eapply Hfuel.
  - destruct que as [|cwn que]; [by eapply Hnil|].
    destruct (Hsome _ _ _ _ _ HI) as [nd Hcwn]. rewrite Hcwn.
    rewrite enqueue_fold.
    destruct (is_solved (puzzle nd)) eqn:Hs.
    + by eapply Hsol.
    + apply IH. by eapply Hstep.
Qed.

(** ** Depth first: what holds at every turn of the loop *)

Lemma dfs_inv_some init h V cur st calls :
  dfs_inv init h V (cur :: st) calls → is_Some (h !! cur).
Proof.
  intros (_ & _ & Hin & _). apply lookup_lt_is_Some, Hin. by left.
Qed.

Lemma dfs_inv_skip init h V cur st calls :
  dfs_inv init h V (cur :: st) calls → dfs_inv init h V st calls.
Proof.
  intros (Hok & Hno & Hin & Hnd & Hv). split_and!; try done.
  by apply in_heap_cons in Hin as [_ Hin].
Qed.

Lemma dfs_inv_expand init h V cur st calls nd :
  dfs_inv init h V (cur :: st) calls → h !! cur = Some nd →
  str (puzzle nd) ∉ V →
  dfs_inv init
    (h ++ map (λ p, mkNode p [] (Some cur)) (extensions (puzzle nd)))
    (V ∪ {[str (puzzle nd)]})
    (reverse (seq (length h) (length (extensions (puzzle nd)))) ++ st)
    (calls ++ [puzzle nd]).
Proof.
  intros (Hok & Hno & Hin & Hnd & Hv) Hcur HnV. split_and!.
  - by eapply heap_ok_children.
  - by apply childless_children.
  - apply in_heap_app. split.
    + intros a Ha. rewrite elem_of_reverse in Ha.
      pose proof (in_heap_seq h (map (λ p, mkNode p [] (Some cur))
                                     (extensions (puzzle nd)))) as Hs.
      rewrite length_map in Hs. by apply Hs.
    + apply in_heap_cons in Hin as [_ Hin].
      eapply in_heap_extends; [|done]. by eexists.
  - rewrite fmap_app. apply NoDup_app. split_and!; [done| |apply NoDup_singleton].
    intros x Hx Hx'. apply list_elem_of_singleton in Hx' as ->.
    apply list_elem_of_fmap in Hx as (c & Hc & Hcin). apply HnV.
    rewrite Hc. by apply Hv.
  - intros c Hc. apply elem_of_app in Hc as [Hc|Hc].
    + apply elem_of_union_l. by apply Hv.
    + apply list_elem_of_singleton in Hc as ->. apply elem_of_union_r.
      by apply elem_of_singleton.
Qed.

Lemma seed_step_eq init (h : heap) st p :
  seed_step init (h, st) p
  = ((h ++ [mkNode init [] None])
       ++ map (λ p, mkNode p [] (Some (length h))) [p],
     st ++ [S (length h)]).
Proof.
  unfold seed_step. simpl. rewrite length_app. simpl.
  by rewrite Nat.add_1_r.
Qed.

(** The work list after seeding holds the extensions of the initial
    state, in the order [extensions()] gave them. *)
Lemma seed_fold init exts :
  ∀ (h : heap) st,
    heap_ok init h → childless h → in_heap h st →
    exts ⊆ extensions init →
    ∃ h' st', fold_left (seed_step init) exts (h, st) = (h', st')
              ∧ heap_ok init h' ∧ childless h' ∧ in_heap h' st'
              ∧ node_state h' <$> st'
                = (node_state h <$> st) ++ (Some <$> exts).
Proof.
  induction exts as [|p exts IH]; intros h st Hok Hno Hin Hsub.
  - exists h, st. simpl. by rewrite app_nil_r.
  - cbn [fold_left]. rewrite seed_step_eq.
    set (h1 := h ++ [mkNode init [] None]).
    set (h2 := h1 ++ map (λ p, mkNode p [] (Some (length h))) [p]).
    assert (Hroot : h1 !! length h = Some (mkNode init [] None)).
    { unfold h1. by rewrite list_lookup_middle. }
    assert (Hok2 : heap_ok init h2).
    { eapply heap_ok_children; [by apply heap_ok_root|done|].
      simpl. intros x Hx. apply list_elem_of_singleton in Hx as ->.
      apply Hsub. by left. }
    assert (Hno2 : childless h2).
    { apply childless_children, childless_app; [done|].
      intros nd Hnd. by apply list_elem_of_singleton in Hnd as ->. }
    assert (Hext : extends h h2).
    { exists ([mkNode init [] None] ++ [mkNode p [] (Some (length h))]).
      unfold h2, h1. by rewrite <- app_assoc. }
    assert (Hp : h2 !! S (length h) = Some (mkNode p [] (Some (length h)))).
    { unfold h2. rewrite lookup_app_r; unfold h1; rewrite length_app; simpl;
        [|lia]. by replace (S (length h) - (length h + 1)) with 0 by lia. }
    destruct (IH h2 (st ++ [S (length h)])) as (h' & st' & Hf & ? & ? & ? & Hst).
    + done.
    + done.
    + apply in_heap_app. split; [by eapply in_heap_extends|].
      intros a Ha. apply list_elem_of_singleton in Ha as ->.
      by eapply lookup_lt_Some.
    + intros x Hx. apply Hsub. by right.
    + exists h', st'. split_and!; try done. rewrite Hst.
      rewrite fmap_app, <- app_assoc. simpl. f_equal.
      * apply list_fmap_ext. intros i a Ha.
        unfold node_state. specialize (Hin a).
        destruct (lookup_lt_is_Some_2 h a) as [nd Hnd].
        { apply Hin. by eapply list_elem_of_lookup_2. }
        by rewrite Hnd, (extends_lookup _ _ _ _ Hext Hnd).
      * unfold node_state at 1. by rewrite Hp.
Qed.

Lemma dfs_seed_inv init :
  ∃ h st, fold_left (seed_step init) (extensions init) ([], []) = (h, st)
          ∧ dfs_inv init h {[str init]} st [init]
          ∧ node_state h <$> st = Some <$> extensions init.
Proof.
  destruct (seed_fold init (extensions init) [] [])
    as (h & st & Hf & Hok & Hno & Hin & Hst);
    [apply heap_ok_nil|apply childless_nil|by intros a Ha; inversion Ha|done|].
  exists h, st. split; [done|]. split; [|done].
  split_and!; try done.
  - apply NoDup_singleton.
  - intros c Hc. apply list_elem_of_singleton in Hc as ->.
    by apply elem_of_singleton.
Qed.

(** ** Breadth first: what holds at every turn of the loop *)

Lemma bfs_inv_some init h V cwn que calls :
  bfs_inv init h V (cwn :: que) calls → is_Some (h !! cwn).
Proof.
  intros (_ & _ & Hin). apply lookup_lt_is_Some, Hin. by left.
Qed.

Lemma bfs_store_step init (h : heap) (V : gset string) cwn nd :
  heap_ok init h → childless h → h !! cwn = Some nd →
  let new := filter (λ e, str e ∉ V) (extensions (puzzle nd)) in
  let h' := h ++ map (λ p, mkNode p [] (Some cwn)) new in
  heap_ok init h' ∧ childless h' ∧ extends h h' ∧ h' !! cwn = Some nd
  ∧ in_heap h' (seq (length h) (length new)).
Proof.
  intros Hok Hno Hcwn new h'. split_and!.
  - eapply heap_ok_children; [done..|]. apply list_subseteq_filter.
  - by apply childless_children.
  - by eexists.
  - by apply lookup_app_l_Some.
  - pose proof (in_heap_seq h (map (λ p, mkNode p [] (Some cwn)) new)) as Hs.
    by rewrite length_map in Hs.
Qed.

Lemma bfs_inv_step init h V cwn que calls nd :
  bfs_inv init h V (cwn :: que) calls → h !! cwn = Some nd →
  let V' := V ∪ {[str (puzzle nd)]} in
  let new := filter (λ e, str e ∉ V') (extensions (puzzle nd)) in
  bfs_inv init (h ++ map (λ p, mkNode p [] (Some cwn)) new) V'
          (que ++ seq (length h) (length new)) (calls ++ [puzzle nd]).
Proof.
  intros (Hok & Hno & Hin) Hcwn V' new.
  destruct (bfs_store_step init h V' cwn nd Hok Hno Hcwn)
    as (Hok' & Hno' & Hext & _ & Hseq).
  split_and!; [done..|]. apply in_heap_app. split; [|done].
  apply in_heap_cons in Hin as [_ Hin]. by eapply in_heap_extends.
Qed.

(** ** The returned path *)

Lemma single_node_solution init :
  is_solved init = true →
  solution_path init [mkNode init [] None] 0 [init].
Proof.
  intros Hs. split_and!; simpl; eauto.
  by apply (chain_leaf _ 0 (mkNode init [] None)).
Qed.

Lemma dfs_loop_solution init pm fuel h V st calls r :
  dfs_inv init h V st calls →
  run_result (dfs_loop pm fuel h V st calls) = Returned (Some r) →
  ∃ l, solution_path init (run_heap (dfs_loop pm fuel h V st calls)) r l.
Proof.
  intros HI. revert r.
  apply (dfs_loop_rule (dfs_inv init)
           (λ x, ∀ r, run_result x = Returned (Some r) →
                      ∃ l, solution_path init (run_heap x) r l));
    try done.
  - apply dfs_inv_some.
  - intros. by eapply dfs_inv_skip.
  - intros. by eapply dfs_inv_expand.
  - clear. intros h V cur st calls nd (Hok & Hno & _) Hcur _ Hsol r.
    destruct (dfs_path_maker pm h cur) as [[h' r']|] eqn:Hpm; [|done].
    simpl. intros [= ->].
    destruct (rebuilt_dfs _ _ _ _ _ _ Hok Hno Hcur Hsol Hpm) as (l & Hl & _).
    eauto.
Qed.

Lemma bfs_loop_solution init rw fuel h V que calls path h' calls' :
  bfs_inv init h V que calls →
  bfs_loop rw fuel h V que calls = (Some (Some path), h', calls') →
  ∃ r l, path = [r] ∧ solution_path init h' r l.
Proof.
  intros HI. revert path h' calls'.
  apply (bfs_loop_rule (bfs_inv init)
           (λ x, ∀ path h' calls', x = (Some (Some path), h', calls') →
                   ∃ r l, path = [r] ∧ solution_path init h' r l) rw);
    try done.
  - apply bfs_inv_some.
  - intros. by eapply bfs_inv_step.
  - clear. intros h V cwn que calls nd (Hok & Hno & _) Hcwn Hsol V' new h1 calls1
                  path h' calls' Hres.
    destruct (bfs_store_step init h V' cwn nd Hok Hno Hcwn)
      as (Hok' & Hno' & _ & Hcwn' & _). fold new h1 in Hok', Hno', Hcwn'.
    destruct (bfs_rewire rw h1 cwn) as [[h2 p2]|] eqn:Hrw; [|done].
    simplify_eq.
    destruct (rebuilt_bfs _ _ _ _ _ _ Hok' Hno' Hcwn' Hsol Hrw)
      as (r & l & Hp & Hl & _). eauto.
Qed.

Lemma bfs_initial_inv init :
  bfs_inv init [mkNode init [] None] ∅ [0] [].
Proof.
  split_and!.
  - apply (heap_ok_root init []), heap_ok_nil.
  - apply (childless_app [] [mkNode init [] None]); [apply childless_nil|].
    intros nd Hnd. by apply list_elem_of_singleton in Hnd as ->.
  - intros a Ha. apply list_elem_of_singleton in Ha as ->. simpl. lia.
Qed.

(** C1. Whenever an engine returns a node, the chain of single children
    below it starts at the initial state, ends in a solved state, goes
    from each state to one of its [extensions()], and the returned node
    is a root. *)
Theorem returned_path_is_solution_chain e fuel init r :
  run_result (solve e fuel init) = Returned (Some r) →
  ∃ l, solution_path init (run_heap (solve e fuel init)) r l.
Proof.
  destruct e; simpl.
  - unfold depth_first_solve. destruct (is_solved init) eqn:Hs.
    + simpl. intros [= <-]. exists [init]. by apply single_node_solution.
    + destruct (dfs_seed_inv init) as (h & st & -> & HI & _).
      by apply dfs_loop_solution.
  - unfold breadth_first_solve, breadth_first_search. simpl.
    destruct (bfs_loop fuel fuel [mkNode init [] None] ∅ [0] [])
      as [[[[path|]|] h'] calls'] eqn:Hb; simpl; try done.
    destruct (bfs_loop_solution _ _ _ _ _ _ _ _ _ _ (bfs_initial_inv init) Hb)
      as (r' & l & -> & Hl).
    intros [= <-]. eauto.
Qed.

(** ** An initial state that is already solved *)

Lemma dfs_solved_initial fuel init :
  is_solved init = true →
  depth_first_solve fuel init
  = mkRun (Returned (Some 0)) [mkNode init [] None] [].
Proof. intros Hs. unfold depth_first_solve. by rewrite Hs. Qed.

Lemma bfs_solved_initial fuel init :
  is_solved init = true → 0 < fuel →
  breadth_first_solve fuel init
  = mkRun (Returned (Some 0))
      ([mkNode init [] None]
         ++ map (λ p, mkNode p [] (Some 0))
              (filter (λ e, str e ∉ (∅ : gset string) ∪ {[str init]})
                      (extensions init)))
      [init].
Proof.
  intros Hs Hf. destruct fuel as [|fuel]; [lia|].
  unfold breadth_first_solve, breadth_first_search. simpl.
  rewrite enqueue_fold, Hs. simpl. done.
Qed.

(** C4. On an initial state that is already solved both engines return
    a node that wraps it and has no children and no parent. *)
Theorem solved_initial_single_node e fuel init :
  is_solved init = true → 0 < fuel →
  run_result (solve e fuel init) = Returned (Some 0)
  ∧ run_heap (solve e fuel init) !! 0 = Some (mkNode init [] None)
  ∧ is_chain (run_heap (solve e fuel init)) 0 [init].
Proof.
  intros Hs Hf.
  assert (Hchain : ∀ h : heap, h !! 0 = Some (mkNode init [] None) →
                               is_chain h 0 [init]).
  { intros h Hh. by apply (chain_leaf h 0 (mkNode init [] None)). }
  destruct e; simpl.
  - rewrite dfs_solved_initial by done. simpl. auto.
  - rewrite bfs_solved_initial by done. simpl. auto.
Qed.

(** ** No solution *)

Lemma dfs_no_extensions fuel init :
  is_solved init = false → extensions init = [] → 0 < fuel →
  depth_first_solve fuel init = mkRun (Returned None) [] [init].
Proof.
  intros Hs He Hf. unfold depth_first_solve. rewrite Hs, He. simpl.
  destruct fuel; [lia|done].
Qed.

Lemma bfs_no_extensions fuel init :
  is_solved init = false → extensions init = [] → 1 < fuel →
  breadth_first_solve fuel init
  = mkRun (Returned None) [mkNode init [] None] [init].
Proof.
  intros Hs He Hf. destruct fuel as [|[|fuel]]; [lia..|].
  unfold breadth_first_solve, breadth_first_search. simpl.
  rewrite He, Hs. simpl. done.
Qed.

(** C7. An unsolved initial state without extensions makes both engines
    return [None]; and each loop returns [None] as soon as it finds its
    work list empty. *)
Theorem no_solution_is_none e fuel init :
  is_solved init = false → extensions init = [] → 1 < fuel →
  run_result (solve e fuel init) = Returned None
  ∧ (∀ pm n (h : heap) V calls,
        dfs_loop pm (S n) h V [] calls = mkRun (Returned None) h calls)
  ∧ (∀ rw n (h : heap) V calls,
        bfs_loop rw (S n) h V [] calls = (Some None, h, calls)).
Proof.
  intros Hs He Hf. split; [|done].
  destruct e; simpl.
  - rewrite dfs_no_extensions; [done..|lia].
  - by rewrite bfs_no_extensions.
Qed.

(** ** No state is expanded twice by the depth-first engine *)

(** X1. In a run of [depth_first_solve], cut short or not, the states on
    which [extensions()] is called have pairwise distinct canonical
    forms. *)
Lemma dfs_calls_nodup fuel init :
  NoDup (str <$> run_calls (depth_first_solve fuel init)).
Proof.
  unfold depth_first_solve. destruct (is_solved init); [apply NoDup_nil_2|].
  destruct (dfs_seed_inv init) as (h & st & -> & HI & _).
  revert HI.
  apply (dfs_loop_rule (dfs_inv init)
           (λ x, NoDup (str <$> run_calls x))).
  - apply dfs_inv_some.
  - intros. by eapply dfs_inv_skip.
  - intros. by eapply dfs_inv_expand.
  - by intros h' V st' calls (_ & _ & _ & Hnd & _).
  - by intros h' V calls (_ & _ & _ & Hnd & _).
  - intros h' V cur st' calls nd (_ & _ & _ & Hnd & _) _ _ _.
    by destruct (dfs_path_maker fuel h' cur) as [[??]|].
Qed.

(** ** The order in which the depth-first engine visits siblings *)





(** ** Termination of the depth-first engine *)

Lemma heap_ok_reachable init (h : heap) a nd :
  heap_ok init h → h !! a = Some nd → reachable init (puzzle nd).
Proof.
  intros Hok Ha.
  destruct (heap_ok_upchain _ _ Hok _ _ Ha) as (up & _ & Hlast & Hpath & Hhd & _).
  exists (length (reverse up) - 1). apply is_path_reach; [done|..].
  - by rewrite head_reverse.
  - by rewrite last_reverse.
Qed.

Lemma unvisited_shrinks (forms V : gset string) x :
  x ∈ forms → x ∉ V → size (forms ∖ (V ∪ {[x]})) < size (forms ∖ V).
Proof.
  intros HS HV. apply subset_size. split.
  - set_solver.
  - intros Hsub. assert (Hx : x ∈ forms ∖ V) by set_solver.
    apply Hsub in Hx. set_solver.
Qed.

(** With [forms] the canonical forms of the states that can be reached, the
    loop returns: a turn either takes a node off the work list or adds a
    new member of [forms] to [visited]. *)
Lemma dfs_loop_returns init (forms : gset string) :
  (∀ s, reachable init s → str s ∈ forms) →
  ∀ n st h V calls,
    dfs_inv init h V st calls → size (forms ∖ V) ≤ n →
    ∃ fuel0 pm0, ∀ pm fuel, fuel0 ≤ fuel → pm0 ≤ pm →
      ∃ r, run_result (dfs_loop pm fuel h V st calls) = Returned r.
Proof.
  intros HS n. induction n as [n IHn] using lt_wf_ind.
  induction st as [|cur st IHst]; intros h V calls HI Hn.
  - exists 1, 0. intros pm [|fuel] Hf _; [lia|]. simpl. eauto.
  - destruct (dfs_inv_some _ _ _ _ _ _ HI) as [nd Hcur].
    destruct (decide (str (puzzle nd) ∈ V)) as [Hin|Hin].
    + destruct (IHst h V calls) as (fuel0 & pm0 & Hret);
        [by eapply dfs_inv_skip|done|].
      exists (S fuel0), pm0. intros pm [|fuel] Hf Hpm; [lia|].
      simpl. rewrite Hcur. rewrite decide_True by done.
      apply Hret; lia.
    + destruct (is_solved (puzzle nd)) eqn:Hsol.
      * exists 1, (S cur). intros pm [|fuel] Hf Hpm; [lia|].
        simpl. rewrite Hcur. rewrite decide_False by done. rewrite Hsol.
        destruct HI as (Hok & Hno & _).
        destruct (dfs_path_maker_returns init h cur nd pm Hok Hno Hcur)
          as [[h' r] ->]; [lia|]. simpl. eauto.
      * pose proof (dfs_inv_expand _ _ _ _ _ _ _ HI Hcur Hin) as HI'.
        assert (HinS : str (puzzle nd) ∈ forms).
        { apply HS. destruct HI as (Hok & _). by eapply heap_ok_reachable. }
        pose proof (unvisited_shrinks forms V _ HinS Hin) as Hlt.
        destruct (IHn (size (forms ∖ (V ∪ {[str (puzzle nd)]}))) ltac:(lia)
                    _ _ _ _ HI' ltac:(lia)) as (fuel0 & pm0 & Hret).
        exists (S fuel0), pm0. intros pm [|fuel] Hf Hpm; [lia|].
        simpl. rewrite Hcur. rewrite decide_False by done. rewrite Hsol.
        rewrite push_fold. apply Hret; lia.
Qed.

(** C8. When the states that can be reached from the initial state by
    repeated [extensions()] are finitely many, [depth_first_solve]
    returns, a node or [None]: all runs with enough fuel do. *)
Theorem dfs_terminates_on_finite_space init (L : list State) :
  (∀ s, reachable init s → s ∈ L) →
  ∃ fuel0, ∀ fuel, fuel0 ≤ fuel →
    ∃ r, run_result (depth_first_solve fuel init) = Returned r.
Proof.
  intros HL. unfold depth_first_solve.
  destruct (is_solved init); [exists 0; simpl; eauto|].
  destruct (dfs_seed_inv init) as (h & st & -> & HI & _).
  destruct (dfs_loop_returns init (list_to_set (str <$> L))) with
    (n := size ((list_to_set (str <$> L) : gset string) ∖ {[str init]}))
    (st := st) (h := h) (V := ({[str init]} : gset string)) (calls := [init])
    as (fuel0 & pm0 & Hret); [|done|done|].
  - intros s Hs. apply elem_of_list_to_set, list_elem_of_fmap.
    exists s. split; [done|]. by apply HL.
  - exists (fuel0 `max` pm0). intros fuel Hf. apply Hret; lia.
Qed.

(** ** Breadth first: levels *)

Lemma depth_extends (h h' : heap) a d :
  extends h h' → depth h a d → depth h' a d.
Proof. intros He (up & Hup & Hlen). exists up. eauto using upchain_extends. Qed.

Lemma depth_inj (h : heap) a d d' : depth h a d → depth h a d' → d = d'.
Proof.
  intros (up & Hup & Hlen) (up' & Hup' & Hlen').
  rewrite (upchain_inj _ _ _ _ Hup Hup') in Hlen. lia.
Qed.

Lemma depth_exists init (h : heap) a nd :
  heap_ok init h → h !! a = Some nd → ∃ d, depth h a d.
Proof.
  intros Hok Ha.
  destruct (heap_ok_upchain _ _ Hok _ _ Ha) as (up & Hup & _ & _ & Hhd & _).
  destruct up as [|x up]; [done|]. exists (length up), (x :: up). done.
Qed.

Lemma depth_zero_root init (h : heap) a nd :
  heap_ok init h → h !! a = Some nd → depth h a 0 → puzzle nd = init.
Proof.
  intros Hok Ha (up & Hup & Hlen). specialize (Hok a nd Ha).
  inversion Hup as [? nd' Ha' Hp|? nd' p l Ha' Hp Hlt Hup']; simplify_eq.
  - by rewrite Hp in Hok.
  - destruct (upchain_head _ _ _ Hup') as (? & _ & Hhd).
    destruct l; simplify_eq/=.
Qed.

Lemma depth_new (h : heap) cwn nd D new i :
  h !! cwn = Some nd → depth h cwn D → i < length new →
  depth (h ++ map (λ p, mkNode p [] (Some cwn)) new) (length h + i) (S D).
Proof.
  intros Hcwn (up & Hup & Hlen) Hi.
  destruct (lookup_lt_is_Some_2 new i Hi) as [p Hp].
  exists (p :: up). split; [|simpl; lia].
  apply (up_step _ _ (mkNode p [] (Some cwn)) cwn up).
  - rewrite lookup_app_r by lia.
    replace (length h + i - length h) with i by lia.
    by rewrite list_lookup_fmap, Hp.
  - done.
  - apply lookup_lt_Some in Hcwn. lia.
  - eapply upchain_extends; [by eexists|done].
Qed.

Lemma levels_head (h : heap) cwn que :
  levels h (cwn :: que) →
  ∃ D, depth h cwn D ∧ ∀ a d, a ∈ cwn :: que → depth h a d → D ≤ d.
Proof.
  intros (D & q1 & q2 & Hq & H1 & H2).
  destruct q1 as [|c q1]; simpl in Hq.
  - exists (S D). split; [apply H2; rewrite <- Hq; by left|].
    intros a d Ha Hd. rewrite Hq in Ha.
    rewrite (depth_inj _ _ _ _ Hd (H2 a Ha)). done.
  - injection Hq as <- ->. exists D. split; [apply H1; by left|].
    intros a d Ha Hd. rewrite app_comm_cons in Ha.
    apply elem_of_app in Ha as [Ha|Ha].
    + rewrite (depth_inj _ _ _ _ Hd (H1 a Ha)). done.
    + rewrite (depth_inj _ _ _ _ Hd (H2 a Ha)). lia.
Qed.

Lemma levels_step (h h' : heap) cwn que D news :
  levels h (cwn :: que) → depth h cwn D → extends h h' →
  (∀ a, a ∈ news → depth h' a (S D)) →
  levels h' (que ++ news).
Proof.
  intros (D0 & q1 & q2 & Hq & H1 & H2) Hd He Hnews.
  destruct q1 as [|c q1]; simpl in Hq.
  - assert (D = S D0) as ->.
    { eapply depth_inj; [done|]. apply H2. rewrite <- Hq. by left. }
    exists (S D0), que, news. split_and!; [done| |done].
    intros a Ha. eapply depth_extends; [done|]. apply H2.
    rewrite <- Hq. by right.
  - injection Hq as <- ->.
    assert (D = D0) as ->.
    { eapply depth_inj; [done|]. apply H1. by left. }
    exists D0, q1, (q2 ++ news). split_and!.
    + by rewrite app_assoc.
    + intros a Ha. eapply depth_extends; [done|]. apply H1. by right.
    + intros a Ha. apply elem_of_app in Ha as [Ha|Ha]; [|by apply Hnews].
      eapply depth_extends; [done|]. by apply H2.
Qed.

(** ** Breadth first: the frontier *)

Lemma lvl_initial init : lvl_inv init [mkNode init [] None] ∅ [0] [].
Proof.
  assert (Hd : depth [mkNode init [] None] 0 0).
  { exists [init]. split; [|done].
    by apply (up_root _ 0 (mkNode init [] None)). }
  split.
  - apply bfs_initial_inv.
  - intros x. split; [set_solver|]. intros (s & Hs & _). inversion Hs.
  - intros s Hs. inversion Hs.
  - intros s Hs. inversion Hs.
  - exists 0, [0], []. split_and!; [done| |intros a Ha; inversion Ha].
    intros a Ha. by apply list_elem_of_singleton in Ha as ->.
  - right. exists 0. split; [by left|done].
  - intros s e Hs. inversion Hs.
Qed.

(** A state within [n] steps of the initial state has been taken from the
    queue, or the queue holds a node of depth at most [n]. *)
Lemma lvl_frontier init h V que calls :
  lvl_inv init h V que calls →
  ∀ n s, reach init n s →
    s ∈ calls ∨ ∃ a d, a ∈ que ∧ depth h a d ∧ d ≤ n.
Proof.
  intros HI n s Hr. induction Hr as [|n s t Hr IH Ht].
  - destruct (lvl_root _ _ _ _ _ HI) as [Hi|(a & Ha & Hd)]; [by left|].
    right. exists a, 0. eauto.
  - destruct IH as [Hs|(a & d & Ha & Hd & Hle)].
    + destruct (lvl_closed _ _ _ _ _ HI s t Hs Ht)
        as [Hc|(a & nd & d & Ha & _ & _ & Hd & Hle)]; [by left|].
      right. exists a, d. eauto.
    + right. exists a, d. split_and!; [done..|lia].
Qed.

Lemma lvl_step init h V cwn que calls nd :
  str_separates init →
  lvl_inv init h V (cwn :: que) calls → h !! cwn = Some nd →
  is_solved (puzzle nd) = false →
  let V' := V ∪ {[str (puzzle nd)]} in
  let new := filter (λ e, str e ∉ V') (extensions (puzzle nd)) in
  lvl_inv init (h ++ map (λ p, mkNode p [] (Some cwn)) new) V'
          (que ++ seq (length h) (length new)) (calls ++ [puzzle nd]).
Proof.
  intros Hsep HI Hcwn Hsol V' new.
  set (h' := h ++ map (λ p, mkNode p [] (Some cwn)) new).
  assert (Hext : extends h h') by (by eexists).
  destruct (lvl_base _ _ _ _ _ HI) as (Hok & Hno & Hin).
  assert (Hrs : reachable init (puzzle nd)) by (by eapply heap_ok_reachable).
  destruct (levels_head _ _ _ (lvl_levels _ _ _ _ _ HI)) as (D & HD & Hmin).
  assert (Hvis' : ∀ x, x ∈ V' ↔ ∃ s, s ∈ calls ++ [puzzle nd] ∧ str s = x).
  { intros x. unfold V'. rewrite elem_of_union, elem_of_singleton.
    rewrite (lvl_visited _ _ _ _ _ HI). split.
    - intros [(s & Hs & Hx)| ->].
      + exists s. split; [|done]. apply elem_of_app. by left.
      + exists (puzzle nd). split; [|done]. apply elem_of_app. right. by left.
    - intros (s & Hs & Hx). apply elem_of_app in Hs as [Hs|Hs].
      + left. eauto.
      + apply list_elem_of_singleton in Hs as ->. by right. }
  assert (Hreach' : ∀ s, s ∈ calls ++ [puzzle nd] → reachable init s).
  { intros s Hs. apply elem_of_app in Hs as [Hs|Hs].
    - by apply (lvl_reach _ _ _ _ _ HI).
    - by apply list_elem_of_singleton in Hs as ->. }
  (* the extensions of a state taken from the queue earlier *)
  assert (Hold : ∀ s e, s ∈ calls → e ∈ extensions s →
            e ∈ calls ++ [puzzle nd]
            ∨ ∃ a nd' d, a ∈ que ++ seq (length h) (length new)
                ∧ h' !! a = Some nd' ∧ puzzle nd' = e ∧ depth h' a d
                ∧ ∀ n, reach init n s → d ≤ S n).
  { intros s e Hs He.
    destruct (lvl_closed _ _ _ _ _ HI s e Hs He)
      as [Hc|(a & nd' & d & Ha & Hnd' & Hp & Hd & Hle)].
    - left. apply elem_of_app. by left.
    - apply elem_of_cons in Ha as [->|Ha].
      + left. apply elem_of_app. right. simplify_eq. by left.
      + right. exists a, nd', d. split_and!; [|by eapply extends_lookup|done
                                             |by eapply depth_extends|done].
        apply elem_of_app. by left. }
  split.
  - by apply bfs_inv_step.
  - done.
  - intros s Hs. apply elem_of_app in Hs as [Hs|Hs].
    + by apply (lvl_unsolved _ _ _ _ _ HI).
    + by apply list_elem_of_singleton in Hs as ->.
  - done.
  - eapply levels_step; [apply (lvl_levels _ _ _ _ _ HI)|done|done|].
    intros a Ha. apply elem_of_seq in Ha.
    replace a with (length h + (a - length h)) by lia.
    eapply depth_new; [done|done|lia].
  - destruct (lvl_root _ _ _ _ _ HI) as [Hi|(a & Ha & Hd)].
    + left. apply elem_of_app. by left.
    + apply elem_of_cons in Ha as [->|Ha].
      * left. apply elem_of_app. right.
        rewrite <- (depth_zero_root _ _ _ _ Hok Hcwn Hd). by left.
      * right. exists a. split; [apply elem_of_app; by left|].
        by eapply depth_extends.
  - intros s e Hs He. apply elem_of_app in Hs as [Hs|Hs]; [by apply Hold|].
    apply list_elem_of_singleton in Hs as ->.
    destruct (decide (str (puzzle nd) ∈ V)) as [HsV|HsV].
    { apply (lvl_visited _ _ _ _ _ HI) in HsV as (s1 & Hs1 & Heq).
      apply Hold; [|done].
      rewrite <- (Hsep s1 (puzzle nd)); [done| |done|done].
      by apply (lvl_reach _ _ _ _ _ HI). }
    assert (Hre : reachable init e).
    { destruct Hrs as [n Hn]. exists (S n). by eapply reach_step. }
    destruct (decide (str e ∈ V')) as [HeV|HeV].
    { left. apply Hvis' in HeV as (s1 & Hs1 & Heq).
      rewrite <- (Hsep s1 e); [done| |done|done]. by apply Hreach'. }
    assert (Hnew : e ∈ new) by (by apply list_elem_of_filter).
    apply list_elem_of_lookup in Hnew as [i Hi].
    apply lookup_lt_Some in Hi as Hlt.
    right. exists (length h + i), (mkNode e [] (Some cwn)), (S D). split_and!.
    + apply elem_of_app. right. apply elem_of_seq. lia.
    + unfold h'. rewrite lookup_app_r by lia.
      replace (length h + i - length h) with i by lia.
      by rewrite list_lookup_fmap, Hi.
    + done.
    + by eapply depth_new.
    + intros n Hn. apply le_n_S.
      destruct (lvl_frontier _ _ _ _ _ HI n _ Hn) as [Hc|(a & d & Ha & Hd & Hle)].
      * exfalso. apply HsV. apply (lvl_visited _ _ _ _ _ HI). eauto.
      * specialize (Hmin a d Ha Hd). lia.
Qed.

Lemma is_chain_inj (h : heap) a l l' :
  is_chain h a l → is_chain h a l' → l = l'.
Proof.
  intros Hc. revert l'.
  induction Hc as [a nd Ha Hc|a nd c l Ha Hc _ IH]; intros l' Hc';
    inversion Hc' as [? nd' Ha' Hc2|? nd' c' l2 Ha' Hc2 Hl2]; simplify_eq;
    try congruence.
  f_equal. apply IH. congruence.
Qed.

Lemma bfs_loop_shortest init rw fuel h V que calls path h' calls' :
  str_separates init → lvl_inv init h V que calls →
  bfs_loop rw fuel h V que calls = (Some (Some path), h', calls') →
  ∃ r l, path = [r] ∧ solution_path init h' r l
         ∧ ∀ l', is_path l' → head l' = Some init →
                 (∃ t, last l' = Some t ∧ is_solved t = true) →
                 length l ≤ length l'.
Proof.
  intros Hsep HI. revert path h' calls'.
  apply (bfs_loop_rule (lvl_inv init)
           (λ x, ∀ path h' calls', x = (Some (Some path), h', calls') →
              ∃ r l, path = [r] ∧ solution_path init h' r l
                     ∧ ∀ l', is_path l' → head l' = Some init →
                             (∃ t, last l' = Some t ∧ is_solved t = true) →
                             length l ≤ length l') rw); try done.
  - intros ????? HI'. eapply bfs_inv_some. apply (lvl_base _ _ _ _ _ HI').
  - intros. by apply lvl_step.
  - clear -Hsep. intros h V cwn que calls nd HI Hcwn Hsol V' new h1 calls1
                        path h' calls' Hres.
    destruct (lvl_base _ _ _ _ _ HI) as (Hok & Hno & _).
    destruct (bfs_store_step init h V' cwn nd Hok Hno Hcwn)
      as (Hok' & Hno' & Hext & Hcwn' & _). fold new h1 in Hok', Hno', Hcwn', Hext.
    destruct (bfs_rewire rw h1 cwn) as [[h2 p2]|] eqn:Hrw; [|done].
    simplify_eq.
    destruct (rebuilt_bfs _ _ _ _ _ _ Hok' Hno' Hcwn' Hsol Hrw)
      as (r & l & Hp & Hl & Hup). simpl in *.
    exists r, l. split_and!; [done..|].
    intros l' Hpath Hhd (t & Hlast & Htsol).
    destruct (levels_head _ _ _ (lvl_levels _ _ _ _ _ HI)) as (D & HD & Hmin).
    assert (Hlen : length l = S D).
    { destruct (depth_extends _ _ _ _ Hext HD) as (up & Hup' & Hlen).
      rewrite <- (upchain_inj _ _ _ _ Hup Hup'), length_reverse in Hlen. done. }
    pose proof (is_path_reach init l' t Hpath Hhd Hlast) as Hr.
    destruct (lvl_frontier _ _ _ _ _ HI _ _ Hr) as [Hc|(a & d & Ha & Hd & Hle)].
    + apply (lvl_unsolved _ _ _ _ _ HI) in Hc. congruence.
    + specialize (Hmin a d Ha Hd). destruct l'; [done|]. simpl in *. lia.
Qed.

(** C2, amended. When the canonical form tells apart the states within
    reach, the path returned by [breadth_first_solve] has no more edges than
    any path that leads from the initial state to a solved state through
    [extensions()]. *)
Theorem bfs_path_is_shortest fuel init r l l' :
  str_separates init →
  run_result (breadth_first_solve fuel init) = Returned (Some r) →
  is_chain (run_heap (breadth_first_solve fuel init)) r l →
  is_path l' → head l' = Some init →
  (∃ t, last l' = Some t ∧ is_solved t = true) →
  edges l ≤ edges l'.
Proof.
  intros Hsep Hres Hl Hpath Hhd Hlast.
  unfold breadth_first_solve, breadth_first_search in *. simpl in *.
  destruct (bfs_loop fuel fuel [mkNode init [] None] ∅ [0] [])
    as [[[[path|]|] h'] calls'] eqn:Hb; simpl in *; try done.
  destruct (bfs_loop_shortest _ _ _ _ _ _ _ _ _ _ Hsep (lvl_initial init) Hb)
    as (r' & l0 & -> & (Hc0 & _) & Hmin).
  simpl in *. simplify_eq. rewrite (is_chain_inj _ _ _ _ Hl Hc0).
  specialize (Hmin l' Hpath Hhd Hlast). unfold edges. lia.
Qed.

End EngineFacts.

(** * Equality of nodes *)

Section NodeEquality.
Context {State : Type} {PZ : Puzzle State}.

Local Abbreviation heap := (list (PuzzleNode State)).

Lemma node_in_spec (R : addr → addr → Prop) eq x l v :
  (∀ e w, e ∈ l → eq x e = Some w → (w = true ↔ R x e)) →
  node_in eq x l = Some v →
  (v = true ↔ ∃ e, e ∈ l ∧ (x = e ∨ R x e)).
Proof.
  revert v. induction l as [|e l IH]; intros v Heq Hv; simpl in Hv.
  - simplify_eq. split; [done|]. intros (e & He & _). inversion He.
  - destruct (decide (x = e)) as [->|Hne].
    { simplify_eq. split; [|done]. intros _. exists e. split; [by left|by left]. }
    destruct (eq x e) as [[|]|] eqn:Hxe; [| |done].
    + simplify_eq. split; [|done]. intros _. exists e. split; [by left|].
      right. by apply (Heq e true); [left|..].
    + rewrite (IH v); [|intros e' w He'; apply Heq; by right|done].
      split; intros (e' & He' & Hor).
      * exists e'. split; [by right|done].
      * apply elem_of_cons in He' as [->|He']; [|eauto].
        destruct Hor as [?|HR]; [done|].
        by apply (Heq e false) in HR; [|left|].
Qed.

Lemma all_in_spec (R : addr → addr → Prop) eq xs l v :
  (∀ x e w, x ∈ xs → e ∈ l → eq x e = Some w → (w = true ↔ R x e)) →
  all_in eq xs l = Some v →
  (v = true ↔ ∀ x, x ∈ xs → ∃ e, e ∈ l ∧ (x = e ∨ R x e)).
Proof.
  revert v. induction xs as [|x xs IH]; intros v Heq Hv; simpl in Hv.
  - simplify_eq. split; [|done]. intros _ x Hx. inversion Hx.
  - destruct (node_in eq x l) as [b|] eqn:Hb; [|done].
    destruct (all_in eq xs l) as [bs|] eqn:Hbs; [|done]. simplify_eq.
    pose proof (node_in_spec R eq x l b) as Hx.
    rewrite andb_true_iff, Hx, (IH bs); [|by eauto using list_elem_of_further
                                          |done
                                          |by eauto using list_elem_of_here|done].
    split.
    + intros [H1 H2] y Hy. apply elem_of_cons in Hy as [->|Hy]; eauto.
    + intros Hall. split; [apply Hall; by left|].
      intros y Hy. apply Hall. by right.
Qed.

(** What [__eq__] returns, when it returns, says whether the two nodes are
    equivalent. *)
Lemma node_eq_sound (h : heap) fuel :
  ∀ a b v, node_eq fuel h a (NodeRef b) = Some v →
           (v = true ↔ node_equiv h a b).
Proof.
  induction fuel as [|fuel IH]; intros a b v Hv; [done|]. simpl in Hv.
  destruct (h !! a) as [na|] eqn:Ha; [|done].
  destruct (h !! b) as [nb|] eqn:Hb; [|done].
  destruct (puzzle_eq (puzzle na) (puzzle nb)) eqn:Hp.
  2:{ simplify_eq. split; [done|]. intros Heq. inversion Heq. simplify_eq.
      congruence. }
  destruct (all_in _ (children nb) (children na)) as [[|]|] eqn:H1; [| |done].
  - pose proof (all_in_spec (node_equiv h) _ _ _ _
                  (λ x e w _ _, IH x e w) H1) as [Hc1 _].
    pose proof (all_in_spec (node_equiv h) _ _ _ _
                  (λ x e w _ _, IH x e w) Hv) as Hc2.
    rewrite Hc2. split.
    + intros H2. eapply node_equiv_intro; eauto.
    + intros Heq. inversion Heq. simplify_eq. done.
  - pose proof (all_in_spec (node_equiv h) _ _ _ _
                  (λ x e w _ _, IH x e w) H1) as Hc1.
    simplify_eq. split; [done|]. intros Heq. inversion Heq. simplify_eq.
    by apply Hc1.
Qed.

Lemma node_in_total eq x l :
  (∀ e, e ∈ l → is_Some (eq x e)) → is_Some (node_in eq x l).
Proof.
  induction l as [|e l IH]; intros Heq; simpl; [done|].
  destruct (decide (x = e)); [done|].
  destruct (Heq e) as [[|] ->]; [by left|done|].
  apply IH. intros e' He'. apply Heq. by right.
Qed.

Lemma all_in_total eq xs l :
  (∀ x e, x ∈ xs → e ∈ l → is_Some (eq x e)) → is_Some (all_in eq xs l).
Proof.
  induction xs as [|x xs IH]; intros Heq; simpl; [done|].
  destruct (node_in_total eq x l) as [b ->].
  { intros e He. apply Heq; [by left|done]. }
  destruct IH as [bs ->]; [|done].
  intros y e Hy He. apply Heq; [by right|done].
Qed.

(** On a store of trees [__eq__] returns: the nesting of its calls is at
    most the size of the store. *)
Lemma node_eq_total (h : heap) :
  tree_shaped h →
  ∀ fuel a b, a < length h → b < length h →
              length h - a `min` b < fuel →
              is_Some (node_eq fuel h a (NodeRef b)).
Proof.
  intros Htree. induction fuel as [|fuel IH]; intros a b Ha Hb Hf; [lia|].
  simpl.
  destruct (lookup_lt_is_Some_2 h a Ha) as [na Hna].
  destruct (lookup_lt_is_Some_2 h b Hb) as [nb Hnb].
  rewrite Hna, Hnb. destruct (puzzle_eq _ _); [|done].
  assert (Hrec : ∀ x e, (x ∈ children nb ∧ e ∈ children na)
                        ∨ (x ∈ children na ∧ e ∈ children nb) →
                        is_Some (node_eq fuel h x (NodeRef e))).
  { intros x e [[Hx He]|[Hx He]].
    - pose proof (Htree _ _ _ Hnb Hx). pose proof (Htree _ _ _ Hna He).
      apply IH; lia.
    - pose proof (Htree _ _ _ Hna Hx). pose proof (Htree _ _ _ Hnb He).
      apply IH; lia. }
  destruct (all_in_total (λ x e, node_eq fuel h x (NodeRef e))
              (children nb) (children na)) as [[|] ->]; [by auto| |done].
  apply all_in_total. auto.
Qed.

Lemma same_truth (v w : bool) (P : Prop) :
  (v = true ↔ P) → (w = true ↔ P) → w = v.
Proof.
  intros [H1 H2] [H3 H4]. destruct v, w; try done.
  - apply H4, H1. done.
  - symmetry. apply H2, H3. done.
Qed.

Lemma alike_sym (h h' : heap) : alike h h' → alike h' h.
Proof.
  intros [Hlen Hal]. split; [done|]. intros c n n' Hn Hn'.
  destruct (Hal c n' n Hn' Hn) as [Hp Hc]. split; [done|].
  intros x. by rewrite Hc.
Qed.

Lemma alike_tree_shaped (h h' : heap) :
  tree_shaped h → alike h h' → tree_shaped h'.
Proof.
  intros Htree [Hlen Hal] a nd' c Ha Hc.
  destruct (lookup_lt_is_Some_2 h a) as [nd Hnd].
  { rewrite Hlen. by eapply lookup_lt_Some. }
  destruct (Hal a nd nd' Hnd Ha) as [_ Hch]. rewrite <- Hlen.
  eapply Htree; [done|]. by apply Hch.
Qed.

Lemma node_equiv_alike (h h' : heap) :
  tree_shaped h → alike h h' →
  ∀ m a b, length h - a `min` b ≤ m → node_equiv h a b → node_equiv h' a b.
Proof.
  intros Htree [Hlen Hal]. induction m as [|m IH]; intros a b Hm Heq;
    inversion Heq as [? ? na nb Ha Hb Hp H1 H2]; simplify_eq;
    pose proof (lookup_lt_Some _ _ _ Ha) as Hla;
    pose proof (lookup_lt_Some _ _ _ Hb) as Hlb; [lia|].
  destruct (lookup_lt_is_Some_2 h' a) as [na' Hna']; [lia|].
  destruct (lookup_lt_is_Some_2 h' b) as [nb' Hnb']; [lia|].
  destruct (Hal a na na' Ha Hna') as [Hpa Hca].
  destruct (Hal b nb nb' Hb Hnb') as [Hpb Hcb].
  apply (node_equiv_intro h' a b na' nb'); [done|done|congruence|..].
  - intros x Hx. apply Hcb in Hx. destruct (H1 x Hx) as (e & He & Hor).
    exists e. split; [by apply Hca|]. destruct Hor as [->|Hor]; [by left|right].
    pose proof (Htree _ _ _ Hb Hx). pose proof (Htree _ _ _ Ha He).
    apply IH; [lia|done].
  - intros x Hx. apply Hca in Hx. destruct (H2 x Hx) as (e & He & Hor).
    exists e. split; [by apply Hcb|]. destruct Hor as [->|Hor]; [by left|right].
    pose proof (Htree _ _ _ Ha Hx). pose proof (Htree _ _ _ Hb He).
    apply IH; [lia|done].
Qed.

(** C10. On a store of trees, [self == other] is true exactly when
    [other] is a node, the puzzles are equal and each child of either node
    is, or equals, a child of the other.  The outcome is the same in any
    store that differs in the [parent] fields and in the order and the
    repetitions of the children only; two nodes with equal puzzles and the
    same children are equal, whatever their parents. *)
Theorem node_eq_ignores_parent_and_order (h h' : heap) a b :
  tree_shaped h → alike h h' → a < length h → b < length h →
  ∃ v,
    (v = true ↔ node_equiv h a b)
    ∧ (∀ fuel, length h < fuel →
         node_eq fuel h a (NodeRef b) = Some v
         ∧ node_eq fuel h' a (NodeRef b) = Some v)
    ∧ (∀ na nb, h !! a = Some na → h !! b = Some nb →
         puzzle_eq (puzzle na) (puzzle nb) = true →
         (∀ x, x ∈ children na ↔ x ∈ children nb) → v = true)
    ∧ (∀ fuel, 0 < fuel → node_eq fuel h a OtherValue = Some false).
Proof.
  intros Htree Hal Ha Hb.
  pose proof (alike_tree_shaped _ _ Htree Hal) as Htree'.
  pose proof Hal as [Hlen _].
  destruct (node_eq_total h Htree (S (length h)) a b) as [v Hv]; [lia..|].
  pose proof (node_eq_sound _ _ _ _ _ Hv) as Hiff.
  exists v. split_and!.
  - done.
  - intros fuel Hf. split.
    + destruct (node_eq_total h Htree fuel a b) as [w Hw]; [lia..|].
      rewrite Hw. f_equal. apply node_eq_sound in Hw.
      by eapply same_truth.
    + destruct (node_eq_total h' Htree' fuel a b) as [w Hw]; [lia..|].
      rewrite Hw. f_equal. apply node_eq_sound in Hw.
      assert (node_equiv h a b ↔ node_equiv h' a b) as Hsame.
      { split.
        - apply (node_equiv_alike h h' Htree Hal (length h)). lia.
        - apply (node_equiv_alike h' h Htree' (alike_sym _ _ Hal)
                   (length h')). lia. }
      rewrite <- Hsame in Hw. by eapply same_truth.
  - intros na nb Hna Hnb Hp Hch. apply Hiff.
    apply (node_equiv_intro h a b na nb); [done..| |].
    + intros x Hx. exists x. split; [by apply Hch|by left].
    + intros x Hx. exists x. split; [by apply Hch|by left].
  - by intros [|fuel] Hf; [lia|].
Qed.

End NodeEquality.

(** * Determinism *)

Section Determinism.
Context {State : Type} (P1 P2 : Puzzle State).

Hypothesis same_is_solved : ∀ s, @is_solved _ P1 s = @is_solved _ P2 s.
Hypothesis same_extensions : ∀ s, @extensions _ P1 s = @extensions _ P2 s.
Hypothesis same_str : ∀ s, @str _ P1 s = @str _ P2 s.

Lemma dfs_loop_same pm fuel h V st calls :
  @dfs_loop _ P1 pm fuel h V st calls = @dfs_loop _ P2 pm fuel h V st calls.
Proof using same_is_solved same_extensions same_str.
  revert h V st calls. induction fuel as [|fuel IH]; intros h V st calls;
    [done|]. simpl.
  destruct st as [|cur st]; [done|]. destruct (h !! cur) as [nd|]; [|done].
  rewrite same_str, same_is_solved, same_extensions.
  destruct (decide _); [done|]. destruct (is_solved _); [done|].
  destruct (fold_left _ _ _). apply IH.
Qed.

Lemma enqueue_step_same V cwn acc ext :
  @enqueue_step _ P1 V cwn acc ext = @enqueue_step _ P2 V cwn acc ext.
Proof using same_str. unfold enqueue_step. by rewrite same_str. Qed.

Lemma enqueue_fold_same V cwn exts acc :
  fold_left (@enqueue_step _ P1 V cwn) exts acc
  = fold_left (@enqueue_step _ P2 V cwn) exts acc.
Proof using same_str.
  revert acc. induction exts as [|x exts IH]; intros acc; [done|].
  simpl. by rewrite enqueue_step_same, IH.
Qed.

Lemma bfs_loop_same rw fuel h V que calls :
  @bfs_loop _ P1 rw fuel h V que calls = @bfs_loop _ P2 rw fuel h V que calls.
Proof using same_is_solved same_extensions same_str.
  revert h V que calls. induction fuel as [|fuel IH]; intros h V que calls;
    [done|]. simpl.
  destruct que as [|cwn que]; [done|]. destruct (h !! cwn) as [nd|]; [|done].
  rewrite same_str, same_is_solved, same_extensions, enqueue_fold_same.
  destruct (fold_left _ _ _). destruct (is_solved _); [done|]. apply IH.
Qed.

(** C9. What an engine returns depends on the initial state and on the
    values of [is_solved()], [extensions()] and [str()] only: two puzzles
    that agree on these yield the same result, the same store, hence the
    same states in the same order, and the same sequence of expansions. *)
Theorem engines_are_deterministic e fuel init :
  @solve _ P1 e fuel init = @solve _ P2 e fuel init.
Proof using same_is_solved same_extensions same_str.
  destruct e; simpl.
  - unfold depth_first_solve.
    rewrite same_is_solved, same_extensions, same_str.
    destruct (is_solved init); [done|].
    destruct (fold_left _ _ _). apply dfs_loop_same.
  - unfold breadth_first_solve, breadth_first_search. simpl.
    by rewrite bfs_loop_same.
Qed.

End Determinism.

(** * Strings *)

Section Strings.

Lemma list_ascii_app (a b : string) :
  list_ascii_of_string (a ++ b)
  = list_ascii_of_string a ++ list_ascii_of_string b.
Proof. induction a as [|c a IH]; simpl; [done|]. by rewrite IH. Qed.

Lemma list_ascii_inj (a b : string) :
  list_ascii_of_string a = list_ascii_of_string b → a = b.
Proof.
  intros Heq. rewrite <- (string_of_list_ascii_of_string a).
  rewrite <- (string_of_list_ascii_of_string b). by rewrite Heq.
Qed.

Lemma string_app_nil_r (a : string) : (a ++ "")%string = a.
Proof. apply list_ascii_inj. by rewrite list_ascii_app, app_nil_r. Qed.

Lemma string_app_assoc (a b c : string) :
  (a ++ (b ++ c))%string = ((a ++ b) ++ c)%string.
Proof. apply list_ascii_inj. by rewrite !list_ascii_app, app_assoc. Qed.

Lemma string_app_inv_tail (a b c : string) :
  (a ++ c)%string = (b ++ c)%string → a = b.
Proof.
  intros Heq. apply list_ascii_inj.
  apply (f_equal list_ascii_of_string) in Heq.
  rewrite !list_ascii_app in Heq. by apply app_inv_tail in Heq.
Qed.

Lemma string_length_list (a : string) :
  String.length a = length (list_ascii_of_string a).
Proof. induction a as [|c a IH]; simpl; [done|]. by rewrite IH. Qed.

Lemma string_get_list (a : string) i :
  String.get i a = list_ascii_of_string a !! i.
Proof.
  revert i. induction a as [|c a IH]; intros [|i]; simpl; done.
Qed.

Lemma list_ascii_substring (a : string) n m :
  list_ascii_of_string (substring n m a)
  = take m (drop n (list_ascii_of_string a)).
Proof.
  revert n m. induction a as [|c a IH]; intros [|n] [|m]; simpl; try done;
    by rewrite IH.
Qed.

End Strings.

(** * More on the engines *)

Section EngineMore.
Context {State : Type} {PZ : Puzzle State}.

Local Abbreviation heap := (list (PuzzleNode State)).

Lemma visited_step (V : gset string) (calls : list State) s :
  (∀ x, x ∈ V ↔ ∃ s, s ∈ calls ∧ str s = x) →
  ∀ x, x ∈ V ∪ {[str s]} ↔ ∃ s', s' ∈ calls ++ [s] ∧ str s' = x.
Proof.
  intros HV x. rewrite elem_of_union, elem_of_singleton, HV. split.
  - intros [(s' & Hs' & Hx)| ->].
    + exists s'. split; [|done]. apply elem_of_app. by left.
    + exists s. split; [|done]. apply elem_of_app. right. by left.
  - intros (s' & Hs' & Hx). apply elem_of_app in Hs' as [Hs'|Hs'].
    + left. eauto.
    + apply list_elem_of_singleton in Hs' as ->. by right.
Qed.

(** In a store that only grew, an old node has the ancestors it had. *)
Lemma upchain_back init (h h' : heap) a up :
  heap_ok init h → extends h h' → a < length h → upchain h' a up →
  upchain h a up.
Proof.
  intros Hok Hext Ha Hup.
  destruct (lookup_lt_is_Some_2 h a Ha) as [nd Hnd].
  destruct (heap_ok_upchain _ _ Hok _ _ Hnd) as (up0 & Hup0 & _).
  by rewrite (upchain_inj _ _ _ _ Hup (upchain_extends _ _ _ _ Hext Hup0)).
Qed.

Lemma upchain_new (h : heap) cur exts a up :
  a ∈ seq (length h) (length exts) →
  upchain (h ++ map (λ p, mkNode p [] (Some cur)) exts) a up →
  ∃ e up', up = e :: up' ∧ e ∈ exts
           ∧ upchain (h ++ map (λ p, mkNode p [] (Some cur)) exts) cur up'.
Proof.
  intros Ha Hup. apply elem_of_seq in Ha.
  destruct (lookup_lt_is_Some_2 exts (a - length h)) as [e He]; [lia|].
  assert (Hnd : (h ++ map (λ p, mkNode p [] (Some cur)) exts) !! a
                = Some (mkNode e [] (Some cur))).
  { rewrite lookup_app_r by lia. by rewrite list_lookup_fmap, He. }
  inversion Hup as [? nd Ha' Hp|? nd p l Ha' Hp Hlt Hup']; simplify_eq/=.
  exists e, l. split_and!; [done| |done]. by eapply list_elem_of_lookup_2.
Qed.

Lemma dfs_more_skip init h V cur st calls nd :
  dfs_more init h V (cur :: st) calls → h !! cur = Some nd →
  str (puzzle nd) ∈ V → dfs_more init h V st calls.
Proof.
  intros (HI & HV & Hun & Hre & Hcl & Han & Hinit) Hcur Hin.
  split_and!; try done.
  - by eapply dfs_inv_skip.
  - intros s e Hs He. destruct (Hcl s e Hs He) as [?|(a & Ha & Hst)]; [by left|].
    apply elem_of_cons in Ha as [->|Ha]; [|right; eauto].
    left. unfold node_state in Hst. rewrite Hcur in Hst. by simplify_eq/=.
  - intros a up Ha. apply Han. by right.
Qed.

Lemma dfs_more_expand init h V cur st calls nd :
  dfs_more init h V (cur :: st) calls → h !! cur = Some nd →
  str (puzzle nd) ∉ V → is_solved (puzzle nd) = false →
  dfs_more init
    (h ++ map (λ p, mkNode p [] (Some cur)) (extensions (puzzle nd)))
    (V ∪ {[str (puzzle nd)]})
    (reverse (seq (length h) (length (extensions (puzzle nd)))) ++ st)
    (calls ++ [puzzle nd]).
Proof.
  intros (HI & HV & Hun & Hre & Hcl & Han & Hinit) Hcur Hin Hsol.
  set (exts := extensions (puzzle nd)).
  set (h' := h ++ map (λ p, mkNode p [] (Some cur)) exts).
  assert (Hext : extends h h') by (by eexists).
  pose proof HI as (Hok & _ & Hinh & _).
  pose proof (visited_step V calls (puzzle nd) HV) as HV'.
  split_and!.
  - by apply dfs_inv_expand.
  - done.
  - intros s Hs. apply elem_of_app in Hs as [Hs|Hs]; [by apply Hun|].
    by apply list_elem_of_singleton in Hs as ->.
  - intros s Hs. apply elem_of_app in Hs as [Hs|Hs]; [by apply Hre|].
    apply list_elem_of_singleton in Hs as ->. by eapply heap_ok_reachable.
  - intros s e Hs He. apply elem_of_app in Hs as [Hs|Hs].
    + destruct (Hcl s e Hs He) as [HeV|(a & Ha & Hst)].
      { left. apply elem_of_union. by left. }
      apply elem_of_cons in Ha as [->|Ha].
      * left. unfold node_state in Hst. rewrite Hcur in Hst. simplify_eq/=.
        apply elem_of_union. right. by apply elem_of_singleton.
      * right. exists a. split; [apply elem_of_app; by right|].
        unfold node_state in *. destruct (h !! a) as [na|] eqn:Hna; [|done].
        by rewrite (extends_lookup _ _ _ _ Hext Hna).
    + apply list_elem_of_singleton in Hs as ->.
      apply list_elem_of_lookup in He as [i Hi].
      apply lookup_lt_Some in Hi as Hlt. right. exists (length h + i). split.
      * apply elem_of_app. left. apply elem_of_reverse, elem_of_seq.
        unfold exts. lia.
      * unfold node_state, h', exts. rewrite lookup_app_r by lia.
        replace (length h + i - length h) with i by lia.
        by rewrite list_lookup_fmap, Hi.
  - assert (Hcurchain : ∀ up', upchain h' cur up' →
              NoDup (str <$> up') ∧ ∀ s, s ∈ up' → s ∈ calls ++ [puzzle nd]).
    { intros up' Hup'.
      apply (upchain_back init h) in Hup';
        [|done|done|by eapply lookup_lt_Some].
      destruct (Han cur up') as [Hnd Hmem]; [by left|done|].
      destruct (upchain_head _ _ _ Hup') as (nd' & Hnd' & Hhd).
      simplify_eq. destruct up' as [|x up']; simplify_eq/=. split.
      - apply NoDup_cons. split; [|done]. intros Hx.
        apply list_elem_of_fmap in Hx as (s & Hs & Hsin). apply Hin, HV.
        exists s. split; [by apply Hmem|done].
      - intros s Hs. apply elem_of_cons in Hs as [->|Hs].
        + apply elem_of_app. right. by left.
        + apply elem_of_app. left. by apply Hmem. }
    intros a up Ha Hup. apply elem_of_app in Ha as [Ha|Ha].
    + rewrite elem_of_reverse in Ha.
      destruct (upchain_new _ _ _ _ _ Ha Hup) as (e & up' & -> & _ & Hup').
      simpl. by apply Hcurchain.
    + apply in_heap_cons in Hinh as [_ Hinh].
      apply (upchain_back init h) in Hup; [|done|done|by apply Hinh].
      destruct (Han a up) as [Hnd Hmem]; [by right|done|]. split; [done|].
      intros s Hs. apply elem_of_app. left. by apply Hmem.
  - apply elem_of_app. by left.
Qed.

Lemma seeded_extends init (h h' : heap) a :
  extends h h' → seeded init h a → seeded init h' a.
Proof.
  intros He (nd & p & pn & Ha & Hp & Hpn & Hr & Hi).
  exists nd, p, pn. split_and!; eauto using extends_lookup.
Qed.

Lemma seed_fold_seeded init exts :
  ∀ (h : heap) st,
    (∀ a, a ∈ st → seeded init h a) →
    ∀ a, a ∈ (fold_left (seed_step init) exts (h, st)).2 →
         seeded init (fold_left (seed_step init) exts (h, st)).1 a.
Proof.
  induction exts as [|p exts IH]; intros h st Hst; [done|].
  cbn [fold_left]. rewrite seed_step_eq. apply IH.
  set (h2 := (h ++ [mkNode init [] None])
               ++ map (λ p, mkNode p [] (Some (length h))) [p]).
  assert (Hext : extends h h2).
  { exists ([mkNode init [] None] ++ [mkNode p [] (Some (length h))]).
    unfold h2. by rewrite <- app_assoc. }
  intros a Ha. apply elem_of_app in Ha as [Ha|Ha].
  - eapply seeded_extends; [done|]. by apply Hst.
  - apply list_elem_of_singleton in Ha as ->.
    exists (mkNode p [] (Some (length h))), (length h), (mkNode init [] None).
    split_and!; try done.
    + unfold h2. rewrite lookup_app_r; rewrite length_app; simpl; [|lia].
      by replace (S (length h) - (length h + 1)) with 0 by lia.
    + unfold h2. rewrite lookup_app_l by (rewrite length_app; simpl; lia).
      by rewrite list_lookup_middle.
Qed.

Lemma dfs_more_seed init :
  is_solved init = false →
  ∃ h st, fold_left (seed_step init) (extensions init) ([], []) = (h, st)
          ∧ dfs_more init h {[str init]} st [init].
Proof.
  intros Hsol.
  pose proof (seed_fold_seeded init (extensions init) [] []) as Hseed.
  destruct (dfs_seed_inv init) as (h & st & Hf & HI & Hst).
  rewrite Hf in Hseed. simpl in Hseed.
  exists h, st. split; [done|]. split_and!.
  - done.
  - intros x. rewrite elem_of_singleton. split.
    + intros ->. exists init. split; [by left|done].
    + intros (s & Hs & <-). by apply list_elem_of_singleton in Hs as ->.
  - intros s Hs. by apply list_elem_of_singleton in Hs as ->.
  - intros s Hs. apply list_elem_of_singleton in Hs as ->.
    exists 0. constructor.
  - intros s e Hs He. apply list_elem_of_singleton in Hs as ->. right.
    apply list_elem_of_lookup in He as [i Hi].
    assert (Hi' : (node_state h <$> st) !! i = Some (Some e)).
    { by rewrite Hst, list_lookup_fmap, Hi. }
    rewrite list_lookup_fmap in Hi'.
    destruct (st !! i) as [a|] eqn:Ha; [|done]. simpl in Hi'.
    exists a. split; [by eapply list_elem_of_lookup_2|]. by simplify_eq.
  - intros a up Ha Hup.
    destruct (Hseed (λ a Ha, False_ind _ (not_elem_of_nil a Ha)) a Ha)
      as (nd & p & pn & Hnd & Hp & Hpn & Hr & Hi).
    inversion Hup as [? nd' Ha' Hp'|? nd' p' l Ha' Hp' Hlt Hup'];
      simplify_eq/=.
    inversion Hup' as [? nd2 Ha2 Hp2|? nd2 p2 l2 Ha2 Hp2 Hlt2 Hup2];
      simplify_eq/=.
    split; [apply NoDup_singleton|done].
  - by left.
Qed.

(** Where every extension of an expanded state is visited, every state
    within reach was expanded. *)
Lemma closed_calls_reach init (V : gset string) (calls : list State) :
  str_separates init →
  init ∈ calls →
  (∀ x, x ∈ V ↔ ∃ s, s ∈ calls ∧ str s = x) →
  (∀ s, s ∈ calls → reachable init s) →
  (∀ s e, s ∈ calls → e ∈ extensions s → str e ∈ V) →
  ∀ n s, reach init n s → s ∈ calls.
Proof.
  intros Hsep Hinit HV Hre Hcl n s Hr.
  induction Hr as [|n s t Hr IH Ht]; [done|].
  pose proof (Hcl s t IH Ht) as Hin. apply HV in Hin as (s' & Hs' & Heq).
  rewrite <- (Hsep s' t); [done|by apply Hre| |done].
  exists (S n). by eapply reach_step.
Qed.

Lemma dfs_more_some init h V cur st calls :
  dfs_more init h V (cur :: st) calls → is_Some (h !! cur).
Proof. intros (HI & _). by eapply dfs_inv_some. Qed.

Lemma dfs_loop_none init pm fuel h V st calls :
  str_separates init → dfs_more init h V st calls →
  run_result (dfs_loop pm fuel h V st calls) = Returned None →
  ∀ s, reachable init s → is_solved s = false.
Proof.
  intros Hsep.
  apply (dfs_loop_rule (dfs_more init)
           (λ x, run_result x = Returned None →
                 ∀ s, reachable init s → is_solved s = false)); try done.
  - apply dfs_more_some.
  - intros. by eapply dfs_more_skip.
  - intros. by eapply dfs_more_expand.
  - intros h' V' calls' (HI & HV & Hun & Hre & Hcl & _ & Hinit) _ s [n Hn].
    apply Hun. eapply (closed_calls_reach init V' calls'); try done.
    intros s' e Hs' He. destruct (Hcl s' e Hs' He) as [?|(a & Ha & _)];
      [done|by inversion Ha].
  - intros h' V' cur st' calls' nd _ _ _ _.
    by destruct (dfs_path_maker pm h' cur) as [[??]|].
Qed.

(** X2. When the canonical form tells apart the states within reach and
    [depth_first_solve] returns [None], no state within reach of the
    initial state is solved. *)
Theorem dfs_none_means_no_solution fuel init :
  str_separates init →
  run_result (depth_first_solve fuel init) = Returned None →
  ∀ s, reachable init s → is_solved s = false.
Proof.
  intros Hsep. unfold depth_first_solve.
  destruct (is_solved init) eqn:Hsol; [done|].
  destruct (dfs_more_seed init Hsol) as (h & st & -> & HI).
  by apply dfs_loop_none.
Qed.

Lemma simple_path_of_upchain (up l : list State) :
  up = reverse l → NoDup (str <$> up) →
  (∀ s, s ∈ tail up → is_solved s = false) →
  NoDup (str <$> l)
  ∧ ∀ i s, l !! i = Some s → S i < length l → is_solved s = false.
Proof.
  intros -> Hnd Hun. split.
  - rewrite fmap_reverse in Hnd. by rewrite reverse_Permutation in Hnd.
  - intros i s Hi Hlt. apply Hun.
    destruct l as [|x l] using rev_ind; [done|].
    rewrite reverse_snoc. simpl. apply elem_of_reverse.
    rewrite length_app in Hlt. simpl in Hlt.
    rewrite lookup_app_l in Hi by lia. by eapply list_elem_of_lookup_2.
Qed.

Lemma NoDup_reverse_fmap_tail (V : gset string) (calls up : list State) x :
  (∀ y, y ∈ V ↔ ∃ s, s ∈ calls ∧ str s = y) →
  str x ∉ V → NoDup (str <$> up) → (∀ s, s ∈ up → s ∈ calls) →
  NoDup (str <$> x :: up).
Proof.
  intros HV Hx Hnd Hmem. rewrite fmap_cons. apply NoDup_cons. split; [|done].
  intros Hin. apply list_elem_of_fmap in Hin as (s & Hs & Hsin).
  apply Hx, HV. exists s. split; [by apply Hmem|done].
Qed.

(** X3. The path returned by [depth_first_solve] goes through states of
    pairwise distinct canonical forms, and its last state is the only
    solved one. *)
Theorem dfs_path_is_simple fuel init r l :
  run_result (depth_first_solve fuel init) = Returned (Some r) →
  is_chain (run_heap (depth_first_solve fuel init)) r l →
  NoDup (str <$> l)
  ∧ ∀ i s, l !! i = Some s → S i < length l → is_solved s = false.
Proof.
  unfold depth_first_solve. destruct (is_solved init) eqn:Hsol.
  { simpl. intros [= <-] Hc.
    assert (Hleaf : is_chain [mkNode init [] None] 0 [init])
      by (by apply (chain_leaf _ 0 (mkNode init [] None))).
    rewrite (is_chain_inj _ _ _ _ Hc Hleaf).
    simpl. split; [apply NoDup_singleton|]. intros i s _ Hi. lia. }
  destruct (dfs_more_seed init Hsol) as (h & st & -> & HI).
  revert r l. revert HI.
  apply (dfs_loop_rule (dfs_more init)
           (λ x, ∀ r l, run_result x = Returned (Some r) →
                   is_chain (run_heap x) r l →
                   NoDup (str <$> l)
                   ∧ ∀ i s, l !! i = Some s → S i < length l →
                            is_solved s = false)); try done.
  - apply dfs_more_some.
  - intros. by eapply dfs_more_skip.
  - intros. by eapply dfs_more_expand.
  - intros h' V cur st' calls nd (HI & HV & Hun & _ & _ & Han & _)
           Hcur Hin Hsolved r l.
    destruct (dfs_path_maker fuel h' cur) as [[h2 r2]|] eqn:Hpm; [|done].
    simpl. intros [= ->] Hc.
    destruct HI as (Hok & Hno & _).
    destruct (rebuilt_dfs _ _ _ _ _ _ Hok Hno Hcur Hsolved Hpm)
      as (l0 & (Hc0 & _) & Hup). simpl in *.
    rewrite (is_chain_inj _ _ _ _ Hc Hc0).
    destruct (Han cur (reverse l0)) as [Hnd Hmem]; [by left|done|].
    destruct (upchain_head _ _ _ Hup) as (nd' & ? & Hhd). simplify_eq.
    destruct (reverse l0) as [|x up] eqn:Hrev; simplify_eq/=.
    apply (simple_path_of_upchain (puzzle nd :: up)); [done| |].
    + by eapply NoDup_reverse_fmap_tail.
    + intros s Hs. apply Hun. by apply Hmem.
Qed.

Lemma bfs_more_some init h V cwn que calls :
  bfs_more init h V (cwn :: que) calls → is_Some (h !! cwn).
Proof. intros (HI & _). by eapply bfs_inv_some. Qed.

Lemma bfs_more_initial init : bfs_more init [mkNode init [] None] ∅ [0] [].
Proof.
  split_and!.
  - apply bfs_initial_inv.
  - intros x. split; [set_solver|]. intros (s & Hs & _). inversion Hs.
  - intros s Hs. inversion Hs.
  - intros a up Ha Hup. apply list_elem_of_singleton in Ha as ->.
    inversion Hup as [? nd Ha Hp|? nd p l Ha Hp Hlt Hup']; simplify_eq/=.
    split; [apply NoDup_singleton|]. intros s Hs. inversion Hs.
Qed.

Lemma bfs_more_step init h V cwn que calls nd :
  bfs_more init h V (cwn :: que) calls → h !! cwn = Some nd →
  is_solved (puzzle nd) = false →
  let V' := V ∪ {[str (puzzle nd)]} in
  let new := filter (λ e, str e ∉ V') (extensions (puzzle nd)) in
  bfs_more init (h ++ map (λ p, mkNode p [] (Some cwn)) new) V'
           (que ++ seq (length h) (length new)) (calls ++ [puzzle nd]).
Proof.
  intros (HI & HV & Hun & Han) Hcwn Hsol V' new.
  set (h' := h ++ map (λ p, mkNode p [] (Some cwn)) new).
  assert (Hext : extends h h') by (by eexists).
  pose proof HI as (Hok & _ & Hinh).
  pose proof (visited_step V calls (puzzle nd) HV) as HV'.
  split_and!.
  - by apply bfs_inv_step.
  - done.
  - intros s Hs. apply elem_of_app in Hs as [Hs|Hs]; [by apply Hun|].
    by apply list_elem_of_singleton in Hs as ->.
  - intros a up Ha Hup. apply elem_of_app in Ha as [Ha|Ha].
    + apply in_heap_cons in Hinh as [_ Hinh].
      apply (upchain_back init h) in Hup; [|done|done|by apply Hinh].
      destruct (Han a up) as [Hnd Hmem]; [by right|done|]. split; [done|].
      intros s Hs. apply elem_of_app. left. by apply Hmem.
    + destruct (upchain_new _ _ _ _ _ Ha Hup) as (e & up' & -> & He & Hup').
      apply (upchain_back init h) in Hup';
        [|done|done|by eapply lookup_lt_Some].
      destruct (Han cwn up') as [Hnd Hmem]; [by left|done|].
      destruct (upchain_head _ _ _ Hup') as (nd' & ? & Hhd). simplify_eq.
      apply list_elem_of_filter in He as [HeV _].
      assert (Hall : ∀ s, s ∈ up' → s ∈ calls ++ [puzzle nd]).
      { destruct up' as [|x up']; simplify_eq/=.
        intros s Hs. apply elem_of_app.
        apply elem_of_cons in Hs as [->|Hs]; [right; by left|left; auto]. }
      split; [|done]. by eapply NoDup_reverse_fmap_tail.
Qed.

(** X4. The path returned by [breadth_first_solve] goes through states of
    pairwise distinct canonical forms, and its last state is the only
    solved one. *)
Theorem bfs_path_is_simple fuel init r l :
  run_result (breadth_first_solve fuel init) = Returned (Some r) →
  is_chain (run_heap (breadth_first_solve fuel init)) r l →
  NoDup (str <$> l)
  ∧ ∀ i s, l !! i = Some s → S i < length l → is_solved s = false.
Proof.
  unfold breadth_first_solve, breadth_first_search. simpl.
  destruct (bfs_loop fuel fuel [mkNode init [] None] ∅ [0] [])
    as [[[[path|]|] h'] calls'] eqn:Hb; simpl; try done.
  revert path h' calls' Hb r l.
  pose proof (bfs_more_initial init) as HI. revert HI.
  apply (bfs_loop_rule (bfs_more init)
           (λ x, ∀ path h' calls', x = (Some (Some path), h', calls') →
              ∀ r l,
                run_result (match path with
                            | r :: _ => mkRun (Returned (Some r)) h' calls'
                            | [] => mkRun (Returned None) h' calls'
                            end) = Returned (Some r) →
                is_chain (run_heap (match path with
                            | r :: _ => mkRun (Returned (Some r)) h' calls'
                            | [] => mkRun (Returned None) h' calls'
                            end)) r l →
                NoDup (str <$> l)
                ∧ ∀ i s, l !! i = Some s → S i < length l →
                         is_solved s = false) fuel); try done.
  - apply bfs_more_some.
  - intros. by apply bfs_more_step.
  - intros h V cwn que calls nd (HI & HV & Hun & Han) Hcwn Hsol V' new h1
           calls1 path h' calls' Hres r l.
    destruct HI as (Hok & Hno & _).
    destruct (bfs_store_step init h V' cwn nd Hok Hno Hcwn)
      as (Hok' & Hno' & Hext & Hcwn' & _).
    fold new h1 in Hok', Hno', Hcwn', Hext.
    destruct (bfs_rewire fuel h1 cwn) as [[h2 p2]|] eqn:Hrw; [|done].
    simplify_eq.
    destruct (rebuilt_bfs _ _ _ _ _ _ Hok' Hno' Hcwn' Hsol Hrw)
      as (r0 & l0 & Hp & (Hc0 & _) & Hup). simpl in *. subst path.
    simpl. intros [= <-] Hc. rewrite (is_chain_inj _ _ _ _ Hc Hc0).
    apply (upchain_back init h) in Hup; [|done|done|by eapply lookup_lt_Some].
    destruct (Han cwn (reverse l0)) as [Hnd Hmem]; [by left|done|].
    apply (simple_path_of_upchain (reverse l0)); [done|done|].
    intros s Hs. apply Hun. by apply Hmem.
Qed.

Lemma bfs_loop_none init rw fuel h V que calls h' calls' :
  str_separates init → lvl_inv init h V que calls →
  bfs_loop rw fuel h V que calls = (Some None, h', calls') →
  ∀ s, reachable init s → is_solved s = false.
Proof.
  intros Hsep HI. revert h' calls'.
  apply (bfs_loop_rule (lvl_inv init)
           (λ x, ∀ h' calls', x = (Some None, h', calls') →
              ∀ s, reachable init s → is_solved s = false) rw); try done.
  - intros ????? HI'. eapply bfs_inv_some. apply (lvl_base _ _ _ _ _ HI').
  - intros. by apply lvl_step.
  - intros h0 V0 calls0 HI0 h2 calls2 [= <- <-] s [n Hn].
    destruct (lvl_frontier _ _ _ _ _ HI0 n s Hn) as [Hc|(a & d & Ha & _)];
      [|by inversion Ha].
    by apply (lvl_unsolved _ _ _ _ _ HI0).
  - intros h0 V0 cwn que0 calls0 nd _ _ _ V' new h1 calls1 h2 calls2.
    by destruct (bfs_rewire rw h1 cwn) as [[??]|].
Qed.

(** X5. When the canonical form tells apart the states within reach and
    [breadth_first_solve] returns [None], no state within reach of the
    initial state is solved. *)
Theorem bfs_none_means_no_solution fuel init :
  str_separates init →
  run_result (breadth_first_solve fuel init) = Returned None →
  ∀ s, reachable init s → is_solved s = false.
Proof.
  intros Hsep. unfold breadth_first_solve, breadth_first_search. simpl.
  destruct (bfs_loop fuel fuel [mkNode init [] None] ∅ [0] [])
    as [[[[path|]|] h'] calls'] eqn:Hb; simpl; [| |done].
  - destruct (bfs_loop_solution _ _ _ _ _ _ _ _ _ _ (bfs_initial_inv init) Hb)
      as (r & l & -> & _). done.
  - intros _. by eapply bfs_loop_none; [|apply lvl_initial|].
Qed.

(** Enough fuel makes [depth_first_solve] return when the canonical forms
    of the states within reach all lie in a finite set. *)
Lemma dfs_returns_within init (forms : gset string) :
  (∀ s, reachable init s → str s ∈ forms) →
  ∃ fuel0, ∀ fuel, fuel0 ≤ fuel →
    ∃ r, run_result (depth_first_solve fuel init) = Returned r.
Proof.
  intros Hforms. unfold depth_first_solve.
  destruct (is_solved init); [exists 0; simpl; eauto|].
  destruct (dfs_seed_inv init) as (h & st & -> & HI & _).
  destruct (dfs_loop_returns init forms Hforms
              (size (forms ∖ {[str init]})) st h {[str init]} [init] HI)
    as (fuel0 & pm0 & Hret); [done|].
  exists (fuel0 `max` pm0). intros fuel Hf. apply Hret; lia.
Qed.

(** X6. Printing the root of a chain of single children, such as the
    path an engine returns, gives the states of the path in order, each
    followed by an empty line; the nesting of the calls is the length of
    the chain. *)
Theorem node_str_of_chain (h : heap) r l fuel :
  is_chain h r l → length l ≤ fuel → node_str fuel h r = Some (path_text l).
Proof.
  intros Hc. revert fuel.
  induction Hc as [a nd Ha Hch|a nd c l Ha Hch _ IH]; intros [|fuel] Hf;
    simpl in Hf; try lia; simpl; rewrite Ha, Hch; simpl.
  - done.
  - rewrite IH by lia. simpl. done.
Qed.

(** ** Termination of the breadth-first engine *)

Lemma upchain_reachable init (h : heap) a up :
  heap_ok init h → upchain h a up → ∀ s, s ∈ up → reachable init s.
Proof.
  intros Hok. induction 1 as [a nd Ha Hp|a nd p l Ha Hp Hlt _ IH];
    intros s Hs.
  - apply list_elem_of_singleton in Hs as ->. by eapply heap_ok_reachable.
  - apply elem_of_cons in Hs as [->|Hs]; [by eapply heap_ok_reachable|auto].
Qed.

Lemma NoDup_forms_length (forms : gset string) (up : list State) :
  NoDup (str <$> up) → (∀ s, s ∈ up → str s ∈ forms) →
  length up ≤ size forms.
Proof.
  intros Hnd Hin. rewrite <- (length_fmap str up).
  rewrite <- (size_list_to_set (C := gset string)) by done.
  apply subseteq_size. intros x Hx. apply elem_of_list_to_set in Hx.
  apply list_elem_of_fmap in Hx as (s & -> & Hs). by apply Hin.
Qed.

Lemma weights_extends B N (h h' : heap) que ws :
  extends h h' → weights B N h que ws → weights B N h' que ws.
Proof.
  intros He Hw. unfold weights in *. eapply Forall2_impl; [done|].
  intros a w (d & Hd & ->). exists d. eauto using depth_extends.
Qed.

Lemma weight_positive B k : 1 ≤ (B + 1) ^ k.
Proof. induction k as [|k IH]; simpl; nia. Qed.

(** With [forms] the canonical forms of the states within reach and [B]
    a bound on the number of their extensions, each turn of the loop
    lowers the sum of the weights of the queue. *)
Lemma bfs_loop_returns init (forms : gset string) B :
  (∀ s, reachable init s → str s ∈ forms) →
  (∀ s, reachable init s → length (extensions s) ≤ B) →
  ∀ m h V que calls ws,
    bfs_more init h V que calls → weights B (size forms) h que ws →
    sum_list ws ≤ m →
    ∃ fuel0 rw0, ∀ rw fuel, fuel0 ≤ fuel → rw0 ≤ rw →
      ∃ res h' calls', bfs_loop rw fuel h V que calls = (Some res, h', calls').
Proof.
  intros Hforms HB m. induction m as [m IHm] using lt_wf_ind.
  intros h V que calls ws HI Hws Hm.
  destruct que as [|cwn que].
  { exists 1, 0. intros rw [|fuel] Hf _; [lia|]. simpl. eauto. }
  destruct (bfs_more_some _ _ _ _ _ _ HI) as [nd Hcwn].
  pose proof HI as ((Hok & Hno & Hin) & HV & Hun & Han).
  set (V' := V ∪ {[str (puzzle nd)]}).
  set (new := filter (λ e, str e ∉ V') (extensions (puzzle nd))).
  set (h1 := h ++ map (λ p, mkNode p [] (Some cwn)) new).
  destruct (bfs_store_step init h V' cwn nd Hok Hno Hcwn)
    as (Hok' & Hno' & Hext & Hcwn' & _).
  fold new h1 in Hok', Hno', Hext, Hcwn'.
  destruct (is_solved (puzzle nd)) eqn:Hsol.
  - exists 1, (S cwn). intros rw [|fuel] Hf Hrw; [lia|].
    simpl. rewrite Hcwn, enqueue_fold, Hsol. fold V' new h1.
    destruct (bfs_rewire_returns init h1 cwn nd rw Hok' Hno' Hcwn')
      as [[h2 path] ->]; [lia|]. eauto.
  - pose proof (bfs_more_step _ _ _ _ _ _ _ HI Hcwn Hsol) as HI'.
    fold V' new h1 in HI'.
    apply Forall2_cons_inv_l in Hws as (w & ws' & (d & Hd & ->) & Hws' & ->).
    assert (Hnewlen : length new ≤ B).
    { etrans; [apply length_filter|]. apply HB.
      by eapply heap_ok_reachable. }
    assert (Hdeep : new ≠ [] → S (S d) ≤ size forms).
    { intros Hne.
      assert (Hpos0 : 0 < length new).
      { destruct (length new) eqn:E; [by apply nil_length_inv in E|lia]. }
      destruct (depth_new h cwn nd d new 0 Hcwn Hd Hpos0)
        as (up & Hup & Hlen).
      fold h1 in Hup. rewrite <- Hlen.
      destruct HI' as (_ & _ & _ & Han').
      destruct (Han' (length h + 0) up) as [Hnd _]; [|done|].
      { apply elem_of_app. right. apply elem_of_seq. unfold new in Hpos0. lia. }
      apply NoDup_forms_length; [done|].
      intros s Hs. apply Hforms. by eapply upchain_reachable. }
    set (w' := (B + 1) ^ (size forms - S (S d))).
    assert (Hws1 : weights B (size forms) h1
                     (que ++ seq (length h) (length new))
                     (ws' ++ replicate (length new) w')).
    { apply Forall2_app; [by eapply weights_extends|].
      apply Forall2_replicate_r; [by rewrite length_seq|].
      apply Forall_forall. intros a Ha. apply elem_of_seq in Ha.
      exists (S d). split; [|done].
      replace a with (length h + (a - length h)) by lia.
      apply (depth_new h cwn nd); [done|done|lia]. }
    assert (Hless : sum_list (ws' ++ replicate (length new) w') < m).
    { rewrite sum_list_with_app. fold (sum_list ws').
      fold (sum_list (replicate (length new) w')).
      rewrite sum_list_replicate. simpl in Hm.
      pose proof (weight_positive B (size forms - S d)) as Hpos.
      destruct (decide (new = [])) as [->|Hne]; [simpl; lia|].
      specialize (Hdeep Hne).
      assert ((B + 1) ^ (size forms - S d) = (B + 1) * w') as Heq.
      { unfold w'.
        replace (size forms - S d) with (S (size forms - S (S d))) by lia.
        done. }
      pose proof (weight_positive B (size forms - S (S d))) as Hpos'.
      fold w' in Hpos'. rewrite Heq in Hm. nia. }
    destruct (IHm _ Hless _ _ _ _ _ HI' Hws1 ltac:(lia))
      as (fuel0 & rw0 & Hret).
    exists (S fuel0), rw0. intros rw [|fuel] Hf Hrw; [lia|].
    simpl. rewrite Hcwn, enqueue_fold, Hsol. fold V' new h1.
    apply Hret; lia.
Qed.

Lemma bfs_returns_within init (forms : gset string) B :
  (∀ s, reachable init s → str s ∈ forms) →
  (∀ s, reachable init s → length (extensions s) ≤ B) →
  ∃ fuel0, ∀ fuel, fuel0 ≤ fuel →
    ∃ r, run_result (breadth_first_solve fuel init) = Returned r.
Proof.
  intros Hforms HB.
  destruct (bfs_loop_returns init forms B Hforms HB
              ((B + 1) ^ (size forms - 1) + 0) [mkNode init [] None]
              ∅ [0] [] [(B + 1) ^ (size forms - 1)])
    as (fuel0 & rw0 & Hret).
  - apply bfs_more_initial.
  - repeat constructor. exists 0. split; [|done].
    exists [init]. split; [|done].
    by apply (up_root _ 0 (mkNode init [] None)).
  - simpl. lia.
  - exists (fuel0 `max` rw0). intros fuel Hf.
    unfold breadth_first_solve, breadth_first_search. simpl.
    destruct (Hret fuel fuel) as (res & h' & calls' & Hb); [lia..|].
    rewrite Hb. destruct res as [path|]; [|simpl; eauto].
    destruct (bfs_loop_solution _ _ _ _ _ _ _ _ _ _ (bfs_initial_inv init) Hb)
      as (r & l & -> & _). simpl. eauto.
Qed.

(** A list of the states within reach bounds their canonical forms and
    the number of their extensions. *)
Lemma finite_space_bounds init (L : list State) :
  (∀ s, reachable init s → s ∈ L) →
  (∀ s, reachable init s → str s ∈ (list_to_set (str <$> L) : gset string))
  ∧ (∀ s, reachable init s →
          length (extensions s) ≤ max_list ((length ∘ extensions) <$> L)).
Proof.
  intros HL. split; intros s Hs.
  - apply elem_of_list_to_set, list_elem_of_fmap.
    exists s. split; [done|]. by apply HL.
  - apply max_list_elem_of_le, list_elem_of_fmap.
    exists s. split; [done|]. by apply HL.
Qed.

(** X10. When the states that can be reached from the initial state are
    finitely many, [breadth_first_solve] returns, a node or [None]: all
    runs with enough fuel do, although a state may enter the queue more
    than once. *)
Theorem bfs_terminates_on_finite_space init (L : list State) :
  (∀ s, reachable init s → s ∈ L) →
  ∃ fuel0, ∀ fuel, fuel0 ≤ fuel →
    ∃ r, run_result (breadth_first_solve fuel init) = Returned r.
Proof.
  intros HL. destruct (finite_space_bounds init L HL) as [Hforms HB].
  by eapply bfs_returns_within.
Qed.

End EngineMore.

(** * Word ladders *)

Section WordLadderRuns.
Import WordLadder.

Lemma returned_path_is_solution_chain_witness :
  run_result (solve BreadthFirst 10 ladder_aa_bb) = Returned (Some 0)
  ∧ ∃ l, solution_path ladder_aa_bb
           (run_heap (solve BreadthFirst 10 ladder_aa_bb)) 0 l.
Proof.
  split; [by vm_compute|].
  apply (returned_path_is_solution_chain BreadthFirst 10 ladder_aa_bb 0).
  by vm_compute.
Defined.

Lemma solved_initial_single_node_witness :
  run_result (solve BreadthFirst 1 ladder_aa_aa) = Returned (Some 0)
  ∧ run_heap (solve BreadthFirst 1 ladder_aa_aa) !! 0
    = Some (mkNode ladder_aa_aa [] None)
  ∧ is_chain (run_heap (solve BreadthFirst 1 ladder_aa_aa)) 0 [ladder_aa_aa].
Proof.
  apply (solved_initial_single_node BreadthFirst 1 ladder_aa_aa).
  - by vm_compute.
  - lia.
Defined.

Lemma no_solution_is_none_witness :
  run_result (solve DepthFirst 2 ladder_stuck) = Returned None.
Proof.
  apply (no_solution_is_none DepthFirst 2 ladder_stuck).
  - by vm_compute.
  - by vm_compute.
  - lia.
Defined.

(** C3. The breadth-first engine marks a state as visited when it takes it
    from the queue, not when it puts it there: on the ladder from ["aa"]
    to ["zz"] the state ["bb"] enters the queue twice, once below ["ba"]
    and once below ["ab"], and [extensions()] is called on it twice. *)
Theorem bfs_expands_a_state_twice :
  str <$> run_calls (breadth_first_solve 6 ladder_aa_zz)
  = ["aa -> zz"; "ba -> zz"; "ab -> zz"; "bb -> zz"; "bb -> zz"]%string
  ∧ run_result (breadth_first_solve 6 ladder_aa_zz) = Returned None
  ∧ ¬ NoDup (str <$> run_calls (breadth_first_solve 6 ladder_aa_zz)).
Proof.
  assert (Hc : str <$> run_calls (breadth_first_solve 6 ladder_aa_zz)
               = ["aa -> zz"; "ba -> zz"; "ab -> zz"; "bb -> zz"; "bb -> zz"]%string)
    by (by vm_compute).
  split_and!; [done|by vm_compute|].
  rewrite Hc. intros Hnd. rewrite !NoDup_cons in Hnd.
  destruct Hnd as (_ & _ & _ & Hbb & _). apply Hbb. by left.
Qed.

(** C6, as stated, fails: the breadth-first loop calls [extensions()] on
    the node it took from the queue before it asks whether that node is
    solved. *)
Lemma bfs_calls_extensions_on_solved_ladder :
  from_word ladder_aa_aa = to_word ladder_aa_aa
  ∧ from_word <$> run_calls (solve BreadthFirst 1 ladder_aa_aa) = ["aa"%string]
  ∧ run_calls (solve BreadthFirst 1 ladder_aa_aa) ≠ [].
Proof.
  assert (Hc : from_word <$> run_calls (solve BreadthFirst 1 ladder_aa_aa)
               = ["aa"%string]) by (by vm_compute).
  split_and!; [done..|]. intros Hnil. by rewrite Hnil in Hc.
Qed.

(** C6, amended. A word ladder whose [from_word] is its [to_word] makes
    both engines return a node without children that wraps it; the
    depth-first engine calls [extensions()] on no state, the breadth-first
    engine calls it once, on the initial state. *)
Theorem solved_ladder_single_node e fuel (p : WordLadderPuzzle) :
  from_word p = to_word p → 0 < fuel →
  run_result (solve e fuel p) = Returned (Some 0)
  ∧ run_heap (solve e fuel p) !! 0 = Some (mkNode p [] None)
  ∧ run_calls (solve e fuel p)
    = match e with DepthFirst => [] | BreadthFirst => [p] end.
Proof.
  intros Heq Hf.
  assert (Hs : is_solved p = true) by (by apply bool_decide_eq_true).
  destruct e; simpl.
  - by rewrite dfs_solved_initial.
  - by rewrite bfs_solved_initial.
Qed.

Lemma solved_ladder_single_node_witness :
  run_result (solve BreadthFirst 1 ladder_aa_aa) = Returned (Some 0)
  ∧ run_heap (solve BreadthFirst 1 ladder_aa_aa) !! 0
    = Some (mkNode ladder_aa_aa [] None)
  ∧ run_calls (solve BreadthFirst 1 ladder_aa_aa) = [ladder_aa_aa].
Proof.
  apply (solved_ladder_single_node BreadthFirst 1 ladder_aa_aa).
  - reflexivity.
  - lia.
Defined.



Lemma square_ladders_closed t s :
  reachable (mkWL "aa" t square_words) s → s ∈ square_ladders t.
Proof.
  intros [n Hn]. induction Hn as [|n s u _ IH Hu]; [by left|].
  unfold square_ladders in IH. simpl in IH. rewrite !elem_of_cons in IH.
  destruct IH as [->|[->|[->|[->|Hnil]]]]; [..|by inversion Hnil].
  - assert (He : extensions (mkWL "aa" t square_words)
                 = [mkWL "ba" t square_words; mkWL "ab" t square_words])
      by (by vm_compute).
    rewrite He in Hu. unfold square_ladders. set_solver.
  - assert (He : extensions (mkWL "ba" t square_words)
                 = [mkWL "aa" t square_words; mkWL "bb" t square_words])
      by (by vm_compute).
    rewrite He in Hu. unfold square_ladders. set_solver.
  - assert (He : extensions (mkWL "ab" t square_words)
                 = [mkWL "bb" t square_words; mkWL "aa" t square_words])
      by (by vm_compute).
    rewrite He in Hu. unfold square_ladders. set_solver.
  - assert (He : extensions (mkWL "bb" t square_words)
                 = [mkWL "ab" t square_words; mkWL "ba" t square_words])
      by (by vm_compute).
    rewrite He in Hu. unfold square_ladders. set_solver.
Qed.

Lemma square_ladders_separated t : str_separates (mkWL "aa" t square_words).
Proof.
  intros a b Ha Hb Hstr.
  apply square_ladders_closed in Ha, Hb.
  unfold square_ladders in Ha, Hb. simpl in Ha, Hb.
  rewrite !elem_of_cons in Ha. rewrite !elem_of_cons in Hb.
  destruct Ha as [->|[->|[->|[->|Hnil]]]]; [..|by inversion Hnil];
    (destruct Hb as [->|[->|[->|[->|Hnil]]]]; [..|by inversion Hnil]);
    first [done|by (simpl in Hstr; unfold wl_str in Hstr; simpl in Hstr)].
Qed.

Lemma dfs_terminates_on_finite_space_witness :
  ∃ fuel0, ∀ fuel, fuel0 ≤ fuel →
    ∃ r, run_result (depth_first_solve fuel ladder_aa_zz) = Returned r.
Proof.
  apply (dfs_terminates_on_finite_space ladder_aa_zz (square_ladders "zz")).
  apply square_ladders_closed.
Defined.

Lemma bfs_path_is_shortest_witness :
  edges [ladder_aa_bb; mkWL "ba" "bb" square_words; mkWL "bb" "bb" square_words]
  ≤ edges [ladder_aa_bb; mkWL "ab" "bb" square_words;
           mkWL "bb" "bb" square_words].
Proof.
  assert (Hh : run_heap (breadth_first_solve 10 ladder_aa_bb)
               = [mkNode ladder_aa_bb [1] None;
                  mkNode (mkWL "ba" "bb" square_words) [3] (Some 0);
                  mkNode (mkWL "ab" "bb" square_words) [] (Some 0);
                  mkNode (mkWL "bb" "bb" square_words) [] (Some 1);
                  mkNode (mkWL "bb" "bb" square_words) [] (Some 2)])
    by (by vm_compute).
  apply (bfs_path_is_shortest 10 ladder_aa_bb 0).
  - apply square_ladders_separated.
  - by vm_compute.
  - rewrite Hh.
    apply (chain_cons _ 0 (mkNode ladder_aa_bb [1] None) 1); [done..|].
    apply (chain_cons _ 1 (mkNode (mkWL "ba" "bb" square_words) [3] (Some 0)) 3);
      [done..|].
    by apply (chain_leaf _ 3 (mkNode (mkWL "bb" "bb" square_words) [] (Some 1))).
  - simpl. split_and!; [| |done].
    + apply (list_elem_of_lookup_2 _ 1). by vm_compute.
    + apply (list_elem_of_lookup_2 _ 0). by vm_compute.
  - done.
  - exists (mkWL "bb" "bb" square_words). split; [done|by vm_compute].
Defined.

(** The canonical forms must tell the states apart for the path of the
    breadth-first engine to be shortest: on [colliding_puzzle] the state
    [3] is taken for the initial state and never put in the queue, and the
    engine returns the path through [2] and [4], of three edges, while
    the path through [1] has two. *)
Remark bfs_needs_separating_forms :
  run_result (@breadth_first_solve _ colliding_puzzle 10 0) = Returned (Some 0)
  ∧ is_chain (run_heap (@breadth_first_solve _ colliding_puzzle 10 0)) 0
             [0; 2; 4; 5]
  ∧ @is_path _ colliding_puzzle [0; 1; 3]
  ∧ @is_solved _ colliding_puzzle 3 = true
  ∧ ¬ @str_separates _ colliding_puzzle 0.
Proof.
  split_and!; [done| |simpl; rewrite !elem_of_cons; tauto|done|].
  - assert (Hh : run_heap (@breadth_first_solve _ colliding_puzzle 10 0)
                 = [mkNode 0 [2] None; mkNode 1 [] (Some 0);
                    mkNode 2 [3] (Some 0); mkNode 4 [4] (Some 2);
                    mkNode 5 [] (Some 3)]) by (by vm_compute).
    rewrite Hh.
    apply (chain_cons _ 0 (mkNode 0 [2] None) 2); [done..|].
    apply (chain_cons _ 2 (mkNode 2 [3] (Some 0)) 3); [done..|].
    apply (chain_cons _ 3 (mkNode 4 [4] (Some 2)) 4); [done..|].
    by apply (chain_leaf _ 4 (mkNode 5 [] (Some 3))).
  - intros Hsep. assert (0 = 3) as Heq; [|done].
    apply Hsep; [by exists 0; constructor| |done].
    exists 2. apply (reach_step _ 1 1 3); [|by left].
    apply (reach_step _ 0 0 1); [constructor|by left].
Qed.

Lemma engines_are_deterministic_witness :
  @solve _ wl_puzzle DepthFirst 10 ladder_aa_bb
  = @solve _ wl_puzzle_eqb DepthFirst 10 ladder_aa_bb.
Proof.
  apply (engines_are_deterministic wl_puzzle wl_puzzle_eqb).
  - intros s. simpl. unfold wl_is_solved.
    destruct (String.eqb_spec (from_word s) (to_word s)).
    + by apply bool_decide_eq_true.
    + by apply bool_decide_eq_false.
  - reflexivity.
  - reflexivity.
Defined.

Lemma twin_store_tree_shaped : tree_shaped twin_store.
Proof.
  intros [|[|[|[|a]]]] nd c Hnd Hc; simplify_eq/=;
    rewrite ?elem_of_cons in Hc;
    repeat (destruct Hc as [->|Hc]; [lia|]); by inversion Hc.
Qed.

Lemma twin_stores_alike : alike twin_store twin_store'.
Proof.
  split; [done|].
  intros [|[|[|[|c]]]] n n' Hn Hn'; simplify_eq/=; (split; [done|]);
    intros x; rewrite ?elem_of_cons; tauto.
Qed.

Lemma node_eq_ignores_parent_and_order_witness :
  node_eq 5 twin_store 0 (NodeRef 1) = Some true
  ∧ node_eq 5 twin_store' 0 (NodeRef 1) = Some true.
Proof.
  destruct (node_eq_ignores_parent_and_order twin_store twin_store' 0 1)
    as (v & _ & Hfuel & Hsame & _).
  - apply twin_store_tree_shaped.
  - apply twin_stores_alike.
  - simpl. lia.
  - simpl. lia.
  - rewrite <- (Hsame (mkNode ladder_aa_bb [2; 3] None)
                  (mkNode ladder_aa_bb [3; 2; 3] (Some 0))).
    + apply Hfuel. simpl. lia.
    + reflexivity.
    + reflexivity.
    + by vm_compute.
    + intros x. simpl. rewrite !elem_of_cons. tauto.
Defined.

End WordLadderRuns.

(** * More on word ladders *)

Section WordLadderFacts.
Import WordLadder.

Lemma replace_at_list (w : string) i c :
  i < String.length w →
  list_ascii_of_string (replace_at w i c)
  = <[i := c]> (list_ascii_of_string w).
Proof.
  intros Hi. unfold replace_at. rewrite string_length_list in *.
  rewrite !list_ascii_app, !list_ascii_substring. simpl.
  rewrite drop_0.
  rewrite (take_ge (drop (i + 1) _)) by (rewrite length_drop; lia).
  rewrite insert_take_drop by done. by rewrite Nat.add_1_r.
Qed.

Lemma wl_extensions_raw (p q : WordLadderPuzzle) :
  q ∈ wl_extensions p ↔
  ∃ i c, i < String.length (from_word p) ∧ c ∈ chars
         ∧ replace_at (from_word p) i c ∈ word_set p
         ∧ replace_at (from_word p) i c ≠ from_word p
         ∧ q = mkWL (replace_at (from_word p) i c) (to_word p) (word_set p).
Proof.
  unfold wl_extensions. rewrite list_elem_of_In, in_flat_map. split.
  - intros (i & Hi & Hq). apply in_flat_map in Hq as (c & Hc & Hq).
    apply in_seq in Hi. apply list_elem_of_In in Hc.
    destruct (decide _) as [[Hin Hne]|]; [|done].
    destruct Hq as [<-|[]]. exists i, c. split_and!; try done. lia.
  - intros (i & c & Hi & Hc & Hin & Hne & ->). exists i. split.
    + apply in_seq. lia.
    + apply in_flat_map. exists c. split; [by apply list_elem_of_In|].
      rewrite decide_True by done. by left.
Qed.

(** X7. The extensions of a word ladder are the ladders towards the same
    word over the same word set whose first word is in the word set and
    comes from the first word of the ladder by changing the letter at one
    position into another letter, one of [a] to [z]. *)
Theorem wl_extensions_change_one_letter (p q : WordLadderPuzzle) :
  q ∈ extensions p ↔
  to_word q = to_word p ∧ word_set q = word_set p
  ∧ from_word q ∈ word_set p
  ∧ ∃ i c c0, c ∈ chars
      ∧ list_ascii_of_string (from_word p) !! i = Some c0 ∧ c0 ≠ c
      ∧ list_ascii_of_string (from_word q)
        = <[i := c]> (list_ascii_of_string (from_word p)).
Proof.
  change (extensions p) with (wl_extensions p). rewrite wl_extensions_raw.
  split.
  - intros (i & c & Hi & Hc & Hin & Hne & ->). simpl. split_and!; try done.
    pose proof Hi as Hi'. rewrite string_length_list in Hi'.
    destruct (lookup_lt_is_Some_2 _ _ Hi') as [c0 Hc0].
    exists i, c, c0. split_and!; [done|done| |by apply replace_at_list].
    intros ->. apply Hne, list_ascii_inj.
    rewrite replace_at_list by done. by apply list_insert_id.
  - intros (Hto & Hws & Hin & i & c & c0 & Hc & Hc0 & Hne & Hl).
    apply lookup_lt_Some in Hc0 as Hi. rewrite <- string_length_list in Hi.
    assert (Hw : from_word q = replace_at (from_word p) i c).
    { apply list_ascii_inj. by rewrite replace_at_list. }
    exists i, c. split_and!; try done.
    + by rewrite <- Hw.
    + rewrite <- Hw. intros Heq. rewrite Heq in Hl.
      apply (f_equal (.!! i)) in Hl.
      rewrite list_lookup_insert_eq in Hl by (by eapply lookup_lt_Some).
      congruence.
    + destruct q as [fq tq wq]. simpl in *. by subst.
Qed.

(** All the ladders within reach go towards the same word over the same
    word set, and all but the first start at a word of the set. *)
Lemma wl_reachable_fields (p s : WordLadderPuzzle) :
  reachable p s →
  to_word s = to_word p ∧ word_set s = word_set p
  ∧ (s = p ∨ from_word s ∈ word_set p).
Proof.
  intros [n Hn]. induction Hn as [|n s t _ (Hto & Hws & _) Ht]; [by auto|].
  change (extensions s) with (wl_extensions s) in Ht.
  apply wl_extensions_raw in Ht as (i & c & _ & _ & Hin & _ & ->). simpl.
  rewrite <- Hws. auto.
Qed.

(** [str] tells apart the ladders within reach of any ladder, although it
    leaves out the word set. *)
Lemma wl_str_separates (p : WordLadderPuzzle) : str_separates p.
Proof.
  intros a b Ha Hb Hstr.
  apply wl_reachable_fields in Ha as (Hta & Hwa & _).
  apply wl_reachable_fields in Hb as (Htb & Hwb & _).
  change (wl_str a = wl_str b) in Hstr. unfold wl_str in Hstr.
  rewrite Hta, Htb in Hstr. apply string_app_inv_tail in Hstr.
  destruct a, b. simpl in *. congruence.
Qed.

Lemma wl_reachable_states (p s : WordLadderPuzzle) :
  reachable p s → s ∈ wl_states p.
Proof.
  intros Hr. apply wl_reachable_fields in Hr as (Hto & Hws & [->|Hin]).
  - by left.
  - right. apply list_elem_of_fmap. exists (from_word s).
    split; [|by apply elem_of_elements]. destruct s. simpl in *. by subst.
Qed.

(** X8. On every word ladder the path returned by [breadth_first_solve]
    has no more edges than any other ladder from the first word to the
    last. *)
Theorem bfs_ladder_is_shortest fuel (p : WordLadderPuzzle) r l l' :
  run_result (breadth_first_solve fuel p) = Returned (Some r) →
  is_chain (run_heap (breadth_first_solve fuel p)) r l →
  is_path l' → head l' = Some p →
  (∃ t, last l' = Some t ∧ from_word t = to_word t) →
  edges l ≤ edges l'.
Proof.
  intros Hres Hl Hpath Hhd (t & Hlast & Ht).
  unfold breadth_first_solve, breadth_first_search in *. simpl in *.
  destruct (bfs_loop fuel fuel [mkNode p [] None] ∅ [0] [])
    as [[[[path|]|] h'] calls'] eqn:Hb; simpl in *; try done.
  destruct (bfs_loop_shortest _ _ _ _ _ _ _ _ _ _
              (wl_str_separates p) (lvl_initial p) Hb)
    as (r' & l0 & -> & (Hc0 & _) & Hmin).
  simpl in *. simplify_eq. rewrite (is_chain_inj _ _ _ _ Hl Hc0).
  assert (length l0 ≤ length l'); [|unfold edges; lia].
  apply Hmin; [done..|]. exists t. split; [done|].
  by apply bool_decide_eq_true.
Qed.

(** X9. On every word ladder both engines return, and they return [None]
    only when no ladder within reach starts at the last word. *)
Theorem ladder_search_is_complete (p : WordLadderPuzzle) :
  (∃ fuel0, ∀ e fuel, fuel0 ≤ fuel →
     ∃ r, run_result (solve e fuel p) = Returned r)
  ∧ ∀ e fuel, run_result (solve e fuel p) = Returned None →
              ∀ s, reachable p s → from_word s ≠ to_word s.
Proof.
  split.
  - destruct (finite_space_bounds p (wl_states p) (wl_reachable_states p))
      as [Hforms HB].
    destruct (dfs_returns_within p _ Hforms) as [fd Hd].
    destruct (bfs_returns_within p _ _ Hforms HB) as [fb Hb].
    exists (fd `max` fb). intros [] fuel Hf; simpl; [apply Hd|apply Hb]; lia.
  - intros e fuel Hnone s Hs.
    assert (Hun : is_solved s = false); [|by apply bool_decide_eq_false in Hun].
    destruct e; simpl in Hnone.
    + unfold depth_first_solve in Hnone.
      destruct (is_solved p) eqn:Hsol; [done|].
      destruct (dfs_more_seed p Hsol) as (h & st & Hf & HI).
      rewrite Hf in Hnone.
      by eapply dfs_loop_none; [apply wl_str_separates|..].
    + unfold breadth_first_solve, breadth_first_search in Hnone.
      simpl in Hnone.
      destruct (bfs_loop fuel fuel [mkNode p [] None] ∅ [0] [])
        as [[[[path|]|] h'] calls'] eqn:Hb; simpl in Hnone; [| |done].
      * destruct (bfs_loop_solution _ _ _ _ _ _ _ _ _ _
                    (bfs_initial_inv p) Hb) as (r & l & -> & _). done.
      * by eapply bfs_loop_none; [apply wl_str_separates|apply lvl_initial|..].
Qed.

End WordLadderFacts.

(** * More runs on word ladders *)

Section MoreRuns.
Import WordLadder.

Lemma bfs_store_aa_bb_chain : is_chain bfs_store_aa_bb 0 path_aa_ba_bb.
Proof.
  apply (chain_cons _ 0 (mkNode ladder_aa_bb [1] None) 1); [done..|].
  apply (chain_cons _ 1 (mkNode (mkWL "ba" "bb" square_words) [3] (Some 0)) 3);
    [done..|].
  by apply (chain_leaf _ 3 (mkNode (mkWL "bb" "bb" square_words) [] (Some 1))).
Qed.

Lemma dfs_store_aa_bb_chain : is_chain dfs_store_aa_bb 0 path_aa_ba_bb.
Proof.
  apply (chain_cons _ 0 (mkNode ladder_aa_bb [1] None) 1); [done..|].
  apply (chain_cons _ 1 (mkNode (mkWL "ba" "bb" square_words) [5] (Some 0)) 5);
    [done..|].
  by apply (chain_leaf _ 5 (mkNode (mkWL "bb" "bb" square_words) [] (Some 1))).
Qed.

Lemma bfs_run_aa_bb :
  run_heap (breadth_first_solve 10 ladder_aa_bb) = bfs_store_aa_bb.
Proof. by vm_compute. Qed.

Lemma dfs_run_aa_bb :
  run_heap (depth_first_solve 10 ladder_aa_bb) = dfs_store_aa_bb.
Proof. by vm_compute. Qed.

Lemma ladder_bb_zz_reachable :
  reachable ladder_aa_zz (mkWL "bb" "zz" square_words).
Proof.
  exists 2.
  apply (reach_step _ 1 (mkWL "ba" "zz" square_words)).
  - apply (reach_step _ 0 ladder_aa_zz); [constructor|].
    apply (list_elem_of_lookup_2 _ 0). by vm_compute.
  - apply (list_elem_of_lookup_2 _ 1). by vm_compute.
Qed.

Lemma dfs_none_means_no_solution_witness :
  is_solved (mkWL "bb" "zz" square_words) = false.
Proof.
  apply (dfs_none_means_no_solution 10 ladder_aa_zz).
  - apply square_ladders_separated.
  - by vm_compute.
  - apply ladder_bb_zz_reachable.
Defined.

Lemma dfs_path_is_simple_witness :
  NoDup (str <$> path_aa_ba_bb)
  ∧ is_solved (mkWL "ba" "bb" square_words) = false.
Proof.
  destruct (dfs_path_is_simple 10 ladder_aa_bb 0 path_aa_ba_bb)
    as [Hnd Hun].
  - by vm_compute.
  - rewrite dfs_run_aa_bb. apply dfs_store_aa_bb_chain.
  - split; [done|]. apply (Hun 1); [done|simpl; lia].
Defined.

Lemma bfs_path_is_simple_witness :
  NoDup (str <$> path_aa_ba_bb)
  ∧ is_solved (mkWL "ba" "bb" square_words) = false.
Proof.
  destruct (bfs_path_is_simple 10 ladder_aa_bb 0 path_aa_ba_bb)
    as [Hnd Hun].
  - by vm_compute.
  - rewrite bfs_run_aa_bb. apply bfs_store_aa_bb_chain.
  - split; [done|]. apply (Hun 1); [done|simpl; lia].
Defined.

Lemma bfs_none_means_no_solution_witness :
  is_solved (mkWL "bb" "zz" square_words) = false.
Proof.
  apply (bfs_none_means_no_solution 10 ladder_aa_zz).
  - apply square_ladders_separated.
  - by vm_compute.
  - apply ladder_bb_zz_reachable.
Defined.

Lemma node_str_of_chain_witness :
  node_str 3 bfs_store_aa_bb 0 = Some (path_text path_aa_ba_bb).
Proof.
  apply (node_str_of_chain bfs_store_aa_bb 0 path_aa_ba_bb 3).
  - apply bfs_store_aa_bb_chain.
  - simpl. lia.
Defined.

Lemma bfs_ladder_is_shortest_witness :
  edges path_aa_ba_bb
  ≤ edges [ladder_aa_bb; mkWL "ab" "bb" square_words;
           mkWL "bb" "bb" square_words].
Proof.
  apply (bfs_ladder_is_shortest 10 ladder_aa_bb 0).
  - by vm_compute.
  - rewrite bfs_run_aa_bb. apply bfs_store_aa_bb_chain.
  - simpl. split_and!; [| |done].
    + apply (list_elem_of_lookup_2 _ 1). by vm_compute.
    + apply (list_elem_of_lookup_2 _ 0). by vm_compute.
  - done.
  - exists (mkWL "bb" "bb" square_words). split; done.
Defined.

Lemma bfs_terminates_on_finite_space_witness :
  ∃ fuel0, ∀ fuel, fuel0 ≤ fuel →
    ∃ r, run_result (breadth_first_solve fuel ladder_aa_zz) = Returned r.
Proof.
  apply (bfs_terminates_on_finite_space ladder_aa_zz (square_ladders "zz")).
  apply square_ladders_closed.
Defined.

End MoreRuns.

(** * Peg solitaire *)

Section GridPegFacts.
Import GridPeg.

Local Abbreviation grid := (list (list string)).

Lemma cell_set_cell (g g' : grid) i j v a b :
  set_cell g i j v = Some g' →
  cell g' a b = if decide (a = i ∧ b = j) then Some v else cell g a b.
Proof.
  unfold set_cell, cell. destruct (g !! i) as [row|] eqn:Hrow; [|done].
  simpl. destruct (decide (j < length row)) as [Hj|]; [|done].
  intros [= <-]. apply lookup_lt_Some in Hrow as Hi.
  destruct (decide (a = i)) as [->|Hne].
  - rewrite list_lookup_insert_eq by done. simpl. rewrite Hrow. simpl.
    destruct (decide (b = j)) as [->|Hb].
    + rewrite decide_True by done. by apply list_lookup_insert_eq.
    + rewrite decide_False by tauto. by apply list_lookup_insert_ne.
  - rewrite decide_False by tauto. by rewrite list_lookup_insert_ne.
Qed.

Lemma row_pegs_insert (row : list string) j old v :
  row !! j = Some old →
  length (filter (λ x, x = "*"%string) (<[j := v]> row)) + peg_count old
  = length (filter (λ x, x = "*"%string) row) + peg_count v.
Proof.
  revert j. induction row as [|x row IH]; intros [|j] Hj; simplify_eq/=.
  - unfold peg_count. rewrite !filter_cons.
    repeat case_decide; simpl; lia.
  - specialize (IH j Hj). rewrite !filter_cons.
    case_decide; simpl; lia.
Qed.

Lemma pegs_insert (g : grid) i row row' :
  g !! i = Some row →
  pegs (<[i := row']> g)
    + length (filter (λ x, x = "*"%string) row)
  = pegs g + length (filter (λ x, x = "*"%string) row').
Proof.
  unfold pegs. revert i.
  induction g as [|r g IH]; intros [|i] Hi; simplify_eq/=.
  - lia.
  - specialize (IH i Hi). lia.
Qed.

Lemma pegs_set_cell (g g' : grid) i j v old :
  set_cell g i j v = Some g' → cell g i j = Some old →
  pegs g' + peg_count old = pegs g + peg_count v.
Proof.
  unfold set_cell, cell. destruct (g !! i) as [row|] eqn:Hrow; [|done].
  simpl. destruct (decide (j < length row)) as [Hj|]; [|done].
  intros [= <-] Hold.
  pose proof (pegs_insert g i row (<[j := v]> row) Hrow).
  pose proof (row_pegs_insert row j old v Hold). lia.
Qed.

Lemma cell_pegs (g : grid) i j : cell g i j = Some "*"%string → 1 ≤ pegs g.
Proof.
  unfold cell, pegs. destruct (g !! i) as [row|] eqn:Hrow; [|done]. simpl.
  intros Hj.
  assert (1 ≤ length (filter (λ x, x = "*"%string) row)).
  { assert (Hin : "*"%string ∈ filter (λ x, x = "*"%string) row).
    { apply list_elem_of_filter. split; [done|].
      by eapply list_elem_of_lookup_2. }
    destruct (filter _ row); [by inversion Hin|simpl; lia]. }
  revert i Hrow. induction g as [|r g IH]; intros [|i] Hi; simplify_eq/=.
  - lia.
  - specialize (IH i Hi). lia.
Qed.

Lemma shape_set_cell (g g' : grid) i j v :
  set_cell g i j v = Some g' → shape g' = shape g.
Proof.
  unfold set_cell, shape. destruct (g !! i) as [row|] eqn:Hrow; [|done].
  simpl. destruct (decide (j < length row)); [|done]. intros [= <-].
  rewrite list_fmap_insert, length_insert.
  apply list_insert_id. by rewrite list_lookup_fmap, Hrow.
Qed.

Lemma set_cell_is_Some (g : grid) i j v :
  is_Some (cell g i j) → is_Some (set_cell g i j v).
Proof.
  unfold set_cell, cell. destruct (g !! i) as [row|]; simpl; [|by intros [??]].
  intros Hj%lookup_lt_is_Some. by rewrite decide_True.
Qed.

Lemma cell_shape (g g' : grid) a b :
  shape g' = shape g → is_Some (cell g a b) → is_Some (cell g' a b).
Proof.
  unfold shape, cell. intros Hs.
  assert (Ha : (length <$> g') !! a = (length <$> g) !! a) by by rewrite Hs.
  rewrite !list_lookup_fmap in Ha.
  destruct (g !! a) as [row|], (g' !! a) as [row'|]; simplify_eq/=;
    try by intros [??].
  rewrite !lookup_lt_is_Some. lia.
Qed.

(** A grid is its shape and its cells. *)
Lemma grid_ext (g g' : grid) :
  shape g' = shape g → (∀ a b, cell g' a b = cell g a b) → g' = g.
Proof.
  unfold shape, cell. intros Hs Hc. apply list_eq. intros a.
  assert (Ha : (length <$> g') !! a = (length <$> g) !! a) by by rewrite Hs.
  rewrite !list_lookup_fmap in Ha. specialize (Hc a).
  destruct (g !! a) as [row|], (g' !! a) as [row'|]; simplify_eq/=; [|done].
  f_equal. apply list_eq. intros b. apply Hc.
Qed.

(** A jump takes the pegs from [far] and [mid], puts one at [(i, j)] and
    leaves the rest of the grid alone. *)
Lemma jump_spec (g g' : grid) far mid i j :
  cell g far.1 far.2 = Some "*"%string →
  cell g mid.1 mid.2 = Some "*"%string →
  cell g i j = Some "."%string →
  far ≠ mid → far ≠ (i, j) → mid ≠ (i, j) →
  jump g far mid i j = Some g' →
  pegs g' + 1 = pegs g ∧ jumped g g' far mid i j.
Proof.
  destruct far as [fi fj], mid as [mi mj]. simpl.
  intros Hfar Hmid Hdst Hfm Hfd Hmd. unfold jump, jumped. simpl.
  destruct (set_cell g fi fj ".") as [g1|] eqn:H1; [|done]. simpl.
  destruct (set_cell g1 mi mj ".") as [g2|] eqn:H2; [|done]. simpl.
  intros H3.
  pose proof (cell_set_cell _ _ _ _ _ mi mj H1) as Hm1.
  rewrite decide_False in Hm1 by (intros [-> ->]; done).
  pose proof (cell_set_cell _ _ _ _ _ i j H1) as Hd1.
  rewrite decide_False in Hd1 by (intros [-> ->]; done).
  pose proof (cell_set_cell _ _ _ _ _ i j H2) as Hd2.
  rewrite decide_False in Hd2 by (intros [-> ->]; done).
  pose proof (pegs_set_cell _ _ _ _ _ _ H1 Hfar) as P1.
  pose proof (pegs_set_cell _ _ _ _ _ "*"%string H2) as P2.
  pose proof (pegs_set_cell _ _ _ _ _ "."%string H3) as P3.
  rewrite Hm1, Hmid in P2. rewrite Hd2, Hd1, Hdst in P3.
  specialize (P2 eq_refl). specialize (P3 eq_refl).
  unfold peg_count in *. simpl in *. split; [lia|]. split.
  { rewrite (shape_set_cell _ _ _ _ _ H3), (shape_set_cell _ _ _ _ _ H2).
    by apply shape_set_cell in H1. }
  intros a b. rewrite (cell_set_cell _ _ _ _ _ a b H3).
  destruct (decide (a = i ∧ b = j)) as [[-> ->]|Hne].
  { by rewrite decide_True. }
  rewrite decide_False by (intros [= -> ->]; tauto).
  rewrite (cell_set_cell _ _ _ _ _ a b H2).
  destruct (decide (a = mi ∧ b = mj)) as [[-> ->]|Hnm].
  { rewrite decide_True; [done|by right]. }
  rewrite (cell_set_cell _ _ _ _ _ a b H1).
  destruct (decide (a = fi ∧ b = fj)) as [[-> ->]|Hnf].
  { rewrite decide_True; [done|by left]. }
  rewrite decide_False; [done|]. intros [[= -> ->]|[= -> ->]]; tauto.
Qed.

(** The three assignments of a jump are in range when the three positions
    are. *)
Lemma jump_is_Some (g : grid) far mid i j :
  is_Some (cell g far.1 far.2) → is_Some (cell g mid.1 mid.2) →
  is_Some (cell g i j) → is_Some (jump g far mid i j).
Proof.
  intros Hf Hm Hd. unfold jump.
  destruct (set_cell_is_Some g far.1 far.2 "." Hf) as [g1 H1]. rewrite H1.
  simpl. apply shape_set_cell in H1 as S1.
  destruct (set_cell_is_Some g1 mid.1 mid.2 "."
              (cell_shape _ _ _ _ S1 Hm)) as [g2 H2].
  rewrite H2. simpl. apply shape_set_cell in H2 as S2.
  apply set_cell_is_Some. eapply cell_shape; [done|by eapply cell_shape].
Qed.

Lemma in_line_apart far mid i j :
  in_line far mid i j → far ≠ mid ∧ far ≠ (i, j) ∧ mid ≠ (i, j).
Proof.
  intros [(?&->&->)|[(->&->)|[(?&->&->)|(->&->)]]];
    split_and!; intros [= ]; lia.
Qed.

(** Two grids that are the result of the same jump are the same grid. *)
Lemma jumped_unique (g g1 g2 : grid) far mid i j :
  jumped g g1 far mid i j → jumped g g2 far mid i j → g1 = g2.
Proof.
  intros [S1 C1] [S2 C2]. apply grid_ext; [congruence|].
  intros a b. by rewrite C1, C2.
Qed.

Lemma try_jump_elem p (in_range : bool) far mid i j l q :
  try_jump p in_range far mid i j = Some l →
  q ∈ l ↔ in_range = true
          ∧ cell (marker p) far.1 far.2 = Some "*"%string
          ∧ cell (marker p) mid.1 mid.2 = Some "*"%string
          ∧ marker_set q = marker_set p
          ∧ jump (marker p) far mid i j = Some (marker q).
Proof.
  unfold try_jump. destruct in_range; [|intros [= <-]; split;
    [by intros ?%elem_of_nil|by intros [? _]]].
  destruct (cell (marker p) far.1 far.2) as [x|] eqn:Hx; [|done]. simpl.
  destruct (decide (x = "*"%string)) as [->|Hnx];
    [|intros [= <-]; split; [by intros ?%elem_of_nil|]; intros (_&?&_);
      congruence].
  destruct (cell (marker p) mid.1 mid.2) as [y|] eqn:Hy; [|done]. simpl.
  destruct (decide (y = "*"%string)) as [->|Hny];
    [|intros [= <-]; split; [by intros ?%elem_of_nil|]; intros (_&_&?&_);
      congruence].
  destruct (jump (marker p) far mid i j) as [g|] eqn:Hg; [|done]. simpl.
  intros [= <-]. rewrite list_elem_of_singleton. split.
  - intros ->. by split_and!.
  - intros (_&_&_&Hs&[= ->]). destruct q. simpl in *. by subst.
Qed.

Lemma cell_Some_lt (g : grid) a b x :
  cell g a b = Some x → a < length g ∧ b < length (default [] (g !! a)).
Proof.
  unfold cell. destruct (g !! a) as [row|] eqn:Hrow; [|done]. simpl.
  intros Hb. split; [by eapply lookup_lt_Some|by eapply lookup_lt_Some].
Qed.

Lemma jumps_into_elem p i j l q :
  jumps_into p i j = Some l →
  q ∈ l ↔ cell (marker p) i j = Some "."%string
          ∧ marker_set q = marker_set p
          ∧ ∃ far mid, in_line far mid i j
              ∧ cell (marker p) far.1 far.2 = Some "*"%string
              ∧ cell (marker p) mid.1 mid.2 = Some "*"%string
              ∧ jump (marker p) far mid i j = Some (marker q).
Proof.
  unfold jumps_into. destruct (cell (marker p) i j) as [c|] eqn:Hc; [|done].
  simpl. destruct (decide (c = "."%string)) as [->|Hnc];
    [|intros [= <-]; split; [by intros ?%elem_of_nil|]; intros (?&_);
      congruence].
  destruct (try_jump p _ (i - 2, j) _ i j) as [a|] eqn:Ha; [|done]. simpl.
  destruct (try_jump p _ (i + 2, j) _ i j) as [b|] eqn:Hb; [|done]. simpl.
  destruct (try_jump p _ (i, j - 2) _ i j) as [c|] eqn:Hl; [|done]. simpl.
  destruct (try_jump p _ (i, j + 2) _ i j) as [d|] eqn:Hr; [|done]. simpl.
  intros [= <-]. rewrite !elem_of_app.
  rewrite (try_jump_elem _ _ _ _ _ _ _ q Ha), (try_jump_elem _ _ _ _ _ _ _ q Hb),
    (try_jump_elem _ _ _ _ _ _ _ q Hl), (try_jump_elem _ _ _ _ _ _ _ q Hr).
  rewrite !bool_decide_eq_true. split.
  - intros [(?&?&?&?&?)|[(?&?&?&?&?)|[(?&?&?&?&?)|(?&?&?&?&?)]]];
      (split; [done|]); (split; [done|]).
    + exists (i - 2, j), (i - 1, j). split_and!; try done. by left.
    + exists (i + 2, j), (i + 1, j). split_and!; try done. right. by left.
    + exists (i, j - 2), (i, j - 1). split_and!; try done. right. right. by left.
    + exists (i, j + 2), (i, j + 1). split_and!; try done. by do 3 right.
  - intros (_&Hs&far&mid&Hline&Hf&Hm&Hj).
    destruct Hline as [(?&->&->)|[(->&->)|[(?&->&->)|(->&->)]]].
    + by left.
    + right. left. split_and!; try done.
      by apply cell_Some_lt in Hf as [? _].
    + right. right. by left.
    + do 3 right. split_and!; try done.
      by apply cell_Some_lt in Hf as [_ ?].
Qed.

Lemma elem_of_positions (g : grid) i j :
  (i, j) ∈ positions g ↔ is_Some (cell g i j).
Proof.
  unfold positions, cell. rewrite list_elem_of_In, in_flat_map.
  setoid_rewrite <-list_elem_of_In. setoid_rewrite list_elem_of_fmap.
  setoid_rewrite elem_of_seq. split.
  - intros (a&[_ Ha]&b&[= -> ->]&[_ Hb]). simpl in *.
    destruct (lookup_lt_is_Some_2 g a Ha) as [row Hrow].
    rewrite Hrow in *. simpl in *. by apply lookup_lt_is_Some_2.
  - destruct (g !! i) as [row|] eqn:Hrow; simpl; [|by intros [??]].
    intros Hj%lookup_lt_is_Some. exists i. split.
    { apply lookup_lt_Some in Hrow. lia. }
    exists j. rewrite Hrow. simpl. split; [done|lia].
Qed.

(** The extensions are the results of the jumps into the positions of the
    grid. *)
Lemma peg_extensions_elem p l q :
  peg_extensions p = Some l →
  q ∈ l ↔ ∃ i j lij, jumps_into p i j = Some lij ∧ q ∈ lij.
Proof.
  unfold peg_extensions.
  destruct (mapM _ (positions (marker p))) as [k|] eqn:Hk; [|done].
  intros [= <-]. apply mapM_Some_1 in Hk. rewrite list_elem_of_join. split.
  - intros (lij&Hq&Hin). apply list_elem_of_lookup in Hin as [n Hn].
    destruct (Forall2_lookup_r _ _ _ _ _ Hk Hn) as ([i j]&_&Hij).
    by exists i, j, lij.
  - intros (i&j&lij&Hij&Hq).
    assert (Hpos : (i, j) ∈ positions (marker p)).
    { apply elem_of_positions.
      apply (jumps_into_elem _ _ _ _ q Hij) in Hq as (->&_). by eexists. }
    apply list_elem_of_lookup in Hpos as [n Hn].
    destruct (Forall2_lookup_l _ _ _ _ _ Hk Hn) as (lij'&Hn'&Hij').
    simpl in Hij'. exists lij. split; [done|].
    apply (list_elem_of_lookup_2 _ n). congruence.
Qed.

(** A call of [extensions()] fails at the position it cannot read or
    write, and only there. *)
Lemma peg_extensions_is_Some p :
  (∀ i j, is_Some (cell (marker p) i j) → is_Some (jumps_into p i j)) →
  is_Some (peg_extensions p).
Proof.
  intros H. unfold peg_extensions. apply fmap_is_Some, mapM_is_Some.
  apply Forall_forall. intros [i j] Hij%elem_of_positions. by apply H.
Qed.

Lemma peg_extensions_at p l i j :
  peg_extensions p = Some l → is_Some (cell (marker p) i j) →
  ∃ lij, jumps_into p i j = Some lij.
Proof.
  unfold peg_extensions.
  destruct (mapM _ (positions (marker p))) as [k|] eqn:Hk; [|done].
  intros _ Hpos%elem_of_positions. apply mapM_Some_1 in Hk.
  apply list_elem_of_lookup in Hpos as [n Hn].
  destruct (Forall2_lookup_l _ _ _ _ _ Hk Hn) as (lij&_&Hij). by exists lij.
Qed.

(** What a jump found by [extensions()] does to the grid. *)
Lemma found_jump p far mid i j g :
  in_line far mid i j →
  cell (marker p) i j = Some "."%string →
  cell (marker p) far.1 far.2 = Some "*"%string →
  cell (marker p) mid.1 mid.2 = Some "*"%string →
  jump (marker p) far mid i j = Some g →
  pegs g + 1 = pegs (marker p) ∧ jumped (marker p) g far mid i j.
Proof.
  intros (?&?&?)%in_line_apart ????. by apply jump_spec.
Qed.

(** X11. The extensions of a peg solitaire configuration are the
    configurations with the same marker set whose grid is the result of one
    jump: some empty position [(i, j)] has a peg two steps away in its
    column or its row and a peg in between; both are removed and a peg is
    put at [(i, j)], and no other position changes. *)
Theorem peg_extensions_are_the_jumps p l q :
  peg_extensions p = Some l →
  q ∈ l ↔ marker_set q = marker_set p
          ∧ ∃ i j far mid, in_line far mid i j
              ∧ cell (marker p) i j = Some "."%string
              ∧ cell (marker p) far.1 far.2 = Some "*"%string
              ∧ cell (marker p) mid.1 mid.2 = Some "*"%string
              ∧ jumped (marker p) (marker q) far mid i j.
Proof.
  intros Hl. rewrite (peg_extensions_elem _ _ q Hl). split.
  - intros (i&j&lij&Hij&Hq).
    apply (jumps_into_elem _ _ _ _ q Hij) in Hq
      as (Hd&Hs&far&mid&Hline&Hf&Hm&Hj).
    split; [done|]. exists i, j, far, mid. split_and!; try done.
    by apply (found_jump p).
  - intros (Hs&i&j&far&mid&Hline&Hd&Hf&Hm&Hj).
    destruct (peg_extensions_at p l i j Hl) as [lij Hij]; [by eexists|].
    exists i, j, lij. split; [done|].
    apply (jumps_into_elem _ _ _ _ q Hij). split_and!; try done.
    exists far, mid. split_and!; try done.
    destruct (jump_is_Some (marker p) far mid i j) as [g Hg]; try by eexists.
    rewrite Hg. f_equal.
    destruct (found_jump p far mid i j g) as [_ Hg']; try done.
    by apply (jumped_unique (marker p) _ _ far mid i j).
Qed.

Lemma peg_extension_facts p l q :
  peg_extensions p = Some l → q ∈ l →
  marker_set q = marker_set p ∧ shape (marker q) = shape (marker p)
  ∧ pegs (marker q) + 1 = pegs (marker p) ∧ 1 ≤ pegs (marker q).
Proof.
  intros Hl Hq. apply (peg_extensions_elem _ _ q Hl) in Hq as (i&j&lij&Hij&Hq).
  apply (jumps_into_elem _ _ _ _ q Hij) in Hq
    as (Hd&Hs&far&mid&Hline&Hf&Hm&Hj).
  destruct (found_jump p far mid i j _ Hline Hd Hf Hm Hj) as [Hn [Hsh Hc]].
  split_and!; try done. apply (cell_pegs _ i j). rewrite Hc.
  by rewrite decide_True.
Qed.

(** X12. A jump takes one peg off the board and leaves at least one: every
    extension has exactly one peg fewer than the configuration it extends,
    at least one peg, rows of the same lengths and the same marker set. *)
Theorem peg_extension_removes_one_peg p l q :
  peg_extensions p = Some l → q ∈ l →
  pegs (marker q) + 1 = pegs (marker p) ∧ 1 ≤ pegs (marker q)
  ∧ shape (marker q) = shape (marker p) ∧ marker_set q = marker_set p.
Proof.
  intros Hl Hq. destruct (peg_extension_facts p l q Hl Hq) as (?&?&?&?).
  by split_and!.
Qed.

(** X13. A solved configuration, one with a single peg, has no
    extensions: a search never goes on from a solved configuration. *)
Theorem solved_peg_has_no_extensions p l :
  peg_is_solved p = true → peg_extensions p = Some l → l = [].
Proof.
  unfold peg_is_solved. intros Hs%bool_decide_eq_true Hl.
  destruct l as [|q l]; [done|].
  destruct (peg_extension_facts p _ q Hl) as (_&_&?&?); [by left|lia].
Qed.

Lemma valid_rows p a row :
  valid p → marker p !! a = Some row →
  length row = length (default [] (head (marker p))).
Proof.
  intros (_&Hr&_) Ha. destruct (marker p) as [|r t]; [done|].
  destruct a; simplify_eq/=; [done|]. apply Hr. by eapply list_elem_of_lookup_2.
Qed.

(** The positions of a valid grid form a rectangle. *)
Lemma valid_cell p a b :
  valid p →
  is_Some (cell (marker p) a b)
  ↔ a < length (marker p) ∧ b < length (default [] (head (marker p))).
Proof.
  intros Hv. unfold cell. destruct (marker p !! a) as [row|] eqn:Ha; simpl.
  - rewrite lookup_lt_is_Some, (valid_rows p a row Hv Ha).
    apply lookup_lt_Some in Ha. tauto.
  - apply lookup_ge_None in Ha. split; [by intros [??]|lia].
Qed.

Lemma try_jump_is_Some p (b : bool) far mid i j :
  (b = true → is_Some (cell (marker p) far.1 far.2)
              ∧ is_Some (cell (marker p) mid.1 mid.2)) →
  is_Some (cell (marker p) i j) → is_Some (try_jump p b far mid i j).
Proof.
  intros H Hd. unfold try_jump. destruct b; [|by eexists].
  destruct H as [[x Hx] [y Hy]]; [done|]. rewrite Hx. simpl.
  case_decide; [|by eexists]. rewrite Hy. simpl.
  case_decide; [|by eexists].
  destruct (jump_is_Some (marker p) far mid i j) as [g Hg];
    [by eexists|by eexists|done|].
  rewrite Hg. by eexists.
Qed.

Lemma valid_jumps_into p i j :
  valid p → is_Some (cell (marker p) i j) → is_Some (jumps_into p i j).
Proof.
  intros Hv Hd. unfold jumps_into. pose proof Hd as [c Hc]. rewrite Hc. simpl.
  case_decide; [|by eexists].
  apply (valid_cell p i j Hv) in Hd as Hij.
  assert (Hw : length (default [] (marker p !! i))
               = length (default [] (head (marker p)))).
  { destruct (marker p !! i) as [row|] eqn:Hi.
    - by apply (valid_rows p i).
    - apply lookup_ge_None in Hi. lia. }
  edestruct (try_jump_is_Some p (bool_decide (2 ≤ i)) (i - 2, j) (i - 1, j) i j)
    as [a ->]; [|done|].
  { intros ?%bool_decide_eq_true. simpl.
    rewrite !(valid_cell p) by done. lia. }
  edestruct (try_jump_is_Some p (bool_decide (i + 2 < length (marker p)))
               (i + 2, j) (i + 1, j) i j) as [b ->]; [|done|].
  { intros ?%bool_decide_eq_true. simpl.
    rewrite !(valid_cell p) by done. lia. }
  edestruct (try_jump_is_Some p (bool_decide (2 ≤ j)) (i, j - 2) (i, j - 1) i j)
    as [l ->]; [|done|].
  { intros ?%bool_decide_eq_true. simpl.
    rewrite !(valid_cell p) by done. lia. }
  edestruct (try_jump_is_Some p
               (bool_decide (j + 2 < length (default [] (marker p !! i))))
               (i, j + 2) (i, j + 1) i j) as [r ->]; [|done|].
  { intros ?%bool_decide_eq_true. simpl.
    rewrite !(valid_cell p) by done. lia. }
  by eexists.
Qed.

(** The first three assertions of [__init__] in terms of shape and
    cells. *)
Lemma valid_alt p :
  valid p ↔
  (∃ w n, shape (marker p) = replicate (S n) w)
  ∧ (∀ a b x, cell (marker p) a b = Some x → x ∈ marker_set p)
  ∧ (∀ x, x ∈ marker_set p → x = "*" ∨ x = "." ∨ x = "#")%string.
Proof.
  unfold valid, shape. split.
  - intros (Hn&Hr&Hm&Hs). split_and!; [|intros a b x Hx|done].
    + destruct (marker p) as [|r t]; [simpl in Hn; lia|].
      exists (length r), (length t). simpl in *. f_equal.
      apply list_eq_same_length with (length t);
        rewrite ?length_fmap, ?length_replicate; try done.
      intros k x y Hk. rewrite list_lookup_fmap, lookup_replicate.
      destruct (t !! k) as [row|] eqn:Hrow; simpl; [|done].
      intros [= <-] [-> _]. apply Hr. by eapply list_elem_of_lookup_2.
    + unfold cell in Hx. destruct (marker p !! a) as [row|] eqn:Ha; [|done].
      apply (Hm row); by eapply list_elem_of_lookup_2.
  - intros ((w&n&Hsh)&Hm&Hs). split_and!; [| |intros row x Hrow Hx|done].
    + apply (f_equal length) in Hsh.
      rewrite length_fmap, length_replicate in Hsh. lia.
    + destruct (marker p) as [|r t]; [done|]. simpl in *.
      injection Hsh as -> Ht. intros row [k Hk]%list_elem_of_lookup.
      assert (Hk' : (length <$> t) !! k = Some (length row))
        by by rewrite list_lookup_fmap, Hk.
      unfold fmap in Hk'. rewrite Ht in Hk'. by apply lookup_replicate in Hk' as [-> _].
    + apply list_elem_of_lookup in Hrow as [a Ha].
      apply list_elem_of_lookup in Hx as [b Hb].
      apply (Hm a b). unfold cell. by rewrite Ha.
Qed.

Lemma peg_extensions_valid p l q :
  valid p → peg_extensions p = Some l → q ∈ l → valid q.
Proof.
  intros Hv Hl Hq.
  apply (peg_extensions_elem _ _ q Hl) in Hq as (i&j&lij&Hij&Hq).
  apply (jumps_into_elem _ _ _ _ q Hij) in Hq
    as (Hd&Hs&far&mid&Hline&Hf&Hm&Hj).
  destruct (found_jump p far mid i j _ Hline Hd Hf Hm Hj) as [_ [Hsh Hc]].
  apply valid_alt in Hv as (Hrect&Hin&Hset). apply valid_alt.
  rewrite Hsh, Hs. split_and!; [done| |done].
  intros a b x. rewrite Hc. repeat case_decide.
  - intros [= <-]. by apply (Hin _ _ _ Hf).
  - intros [= <-]. by apply (Hin _ _ _ Hd).
  - apply Hin.
Qed.

Lemma valid_peg_extensions_Some p : valid p → is_Some (peg_extensions p).
Proof.
  intros Hv. apply peg_extensions_is_Some.
  intros i j. by apply valid_jumps_into.
Qed.

(** X14. On a configuration that passes the assertions of [__init__],
    [extensions()] reads and writes inside the grid only, so that it raises
    no [IndexError], and every configuration it builds passes the
    assertions in turn. *)
Theorem valid_peg_extensions p :
  valid p → ∃ l, peg_extensions p = Some l ∧ ∀ q, q ∈ l → valid q.
Proof.
  intros Hv. destruct (valid_peg_extensions_Some p Hv) as [l Hl].
  exists l. split; [done|]. intros q. by apply (peg_extensions_valid p).
Qed.

End GridPegFacts.

(** * Runs of peg solitaire *)

Section GridPegRuns.
Import GridPeg.

Lemma elem_of_all_markers x :
  x ∈ all_markers ↔ (x = "#" ∨ x = "*" ∨ x = ".")%string.
Proof. unfold all_markers. set_solver. Qed.

Lemma doctest_peg_valid : valid doctest_peg.
Proof.
  split_and!.
  - simpl. lia.
  - intros row Hrow. simpl in Hrow.
    by repeat (apply elem_of_cons in Hrow as [->|Hrow]);
      [..|apply elem_of_nil in Hrow].
  - intros row x Hrow Hx. apply elem_of_all_markers. simpl in Hrow.
    repeat (apply elem_of_cons in Hrow as [->|Hrow]);
      [..|by apply elem_of_nil in Hrow];
      repeat (apply elem_of_cons in Hx as [->|Hx]);
      try (by apply elem_of_nil in Hx); tauto.
  - intros x Hx%elem_of_all_markers. tauto.
Qed.

Lemma doctest_peg_extensions : peg_extensions doctest_peg = Some [doctest_ext].
Proof. by vm_compute. Qed.

Lemma peg_extensions_are_the_jumps_witness :
  doctest_ext ∈ [doctest_ext]
  ↔ marker_set doctest_ext = marker_set doctest_peg
    ∧ ∃ i j far mid, in_line far mid i j
        ∧ cell (marker doctest_peg) i j = Some "."%string
        ∧ cell (marker doctest_peg) far.1 far.2 = Some "*"%string
        ∧ cell (marker doctest_peg) mid.1 mid.2 = Some "*"%string
        ∧ jumped (marker doctest_peg) (marker doctest_ext) far mid i j.
Proof.
  apply (peg_extensions_are_the_jumps doctest_peg [doctest_ext] doctest_ext).
  apply doctest_peg_extensions.
Defined.

Lemma peg_extension_removes_one_peg_witness :
  pegs (marker doctest_ext) + 1 = pegs (marker doctest_peg)
  ∧ 1 ≤ pegs (marker doctest_ext)
  ∧ shape (marker doctest_ext) = shape (marker doctest_peg)
  ∧ marker_set doctest_ext = marker_set doctest_peg.
Proof.
  apply (peg_extension_removes_one_peg doctest_peg [doctest_ext] doctest_ext).
  - apply doctest_peg_extensions.
  - by left.
Defined.

Lemma solved_peg_has_no_extensions_witness : [] = @nil GridPegSolitairePuzzle.
Proof.
  apply (solved_peg_has_no_extensions last_peg []); by vm_compute.
Defined.

Lemma valid_peg_extensions_witness :
  ∃ l, peg_extensions doctest_peg = Some l ∧ ∀ q, q ∈ l → valid q.
Proof. apply (valid_peg_extensions doctest_peg), doctest_peg_valid. Defined.

End GridPegRuns.

(** * Stripped strings *)

Section Stripping.

Local Abbreviation chars := list_ascii_of_string.

Lemma lstrip_head (l : list ascii) a :
  head l = Some a → py_space a = false → lstrip l = l.
Proof. destruct l as [|c l]; [done|]. simpl. by intros [= ->] ->. Qed.

Lemma lstrip_spaces (w l : list ascii) :
  Forall (λ c, py_space c = true) w → lstrip (w ++ l) = lstrip l.
Proof. induction 1 as [|c w Hc _ IH]; [done|]. simpl. by rewrite Hc. Qed.

Lemma head_app_Some {A} (l k : list A) a :
  head l = Some a → head (l ++ k) = Some a.
Proof. by destruct l. Qed.

Lemma last_app_Some {A} (l k : list A) a :
  last k = Some a → last (l ++ k) = Some a.
Proof.
  destruct k as [|x k] using rev_ind; [done|].
  rewrite last_snoc. intros [= ->]. by rewrite app_assoc, last_snoc.
Qed.

(** White space after a tight string is what [strip] removes. *)
Lemma strip_tight_spaces (s w : string) :
  tight s → Forall (λ c, py_space c = true) (chars w) → strip (s +:+ w) = s.
Proof.
  intros (a & b & Ha & Hb & Hsa & Hsb) Hw. unfold strip.
  rewrite list_ascii_app.
  rewrite (lstrip_head (chars s ++ chars w) a);
    [|by apply head_app_Some|done].
  rewrite reverse_app, lstrip_spaces by by apply Forall_reverse.
  rewrite (lstrip_head _ b); [|by rewrite head_reverse|done].
  by rewrite reverse_involutive, string_of_list_ascii_of_string.
Qed.

Lemma strip_tight (s : string) : tight s → strip s = s.
Proof.
  intros Hs. rewrite <- (string_app_nil_r s) at 1.
  by apply strip_tight_spaces.
Qed.

Lemma tight_app (s u t : string) : tight s → tight t → tight (s +:+ u +:+ t).
Proof.
  intros (a & _ & Ha & _ & Hsa & _) (_ & b & _ & Hb & _ & Hsb).
  exists a, b. rewrite !list_ascii_app. split_and!; try done.
  - by apply head_app_Some.
  - by do 2 apply last_app_Some.
Qed.

(** [sep.join(l)] of tight strings is tight. *)
Lemma tight_concat (sep : string) (l : list string) :
  l ≠ [] → Forall tight l → tight (String.concat sep l).
Proof.
  intros Hne Hl. induction Hl as [|x l Hx Hl IH]; [done|].
  destruct l as [|y l]; [done|].
  change (tight (x +:+ sep +:+ String.concat sep (y :: l))).
  apply tight_app; [done|]. by apply IH.
Qed.

Lemma concat_merge (sep a b : string) (l : list string) :
  String.concat sep ((a +:+ sep +:+ b) :: l) = String.concat sep (a :: b :: l).
Proof.
  destruct l as [|c l]; [done|].
  change ((a +:+ sep +:+ b) +:+ sep +:+ String.concat sep (c :: l)
          = a +:+ sep +:+ b +:+ sep +:+ String.concat sep (c :: l)).
  by rewrite <- !string_app_assoc.
Qed.

Lemma string_app_inj_length (a b x y : string) :
  String.length a = String.length b → a +:+ x = b +:+ y → a = b ∧ x = y.
Proof.
  rewrite !string_length_list. intros Hlen Heq.
  apply (f_equal chars) in Heq. rewrite !list_ascii_app in Heq.
  apply app_inj_1 in Heq as [??]; [|done]. by split; apply list_ascii_inj.
Qed.

Lemma string_length_app (a b : string) :
  String.length (a +:+ b) = String.length a + String.length b.
Proof. by rewrite !string_length_list, list_ascii_app, length_app. Qed.

Lemma concat_length (sep : string) (l k : list string) :
  Forall2 (λ a b, String.length a = String.length b) l k →
  String.length (String.concat sep l) = String.length (String.concat sep k).
Proof.
  induction 1 as [|a b l k Hab Hlk IH]; [done|].
  destruct Hlk as [|a' b' l k Hab' Hlk]; [done|].
  change (String.length (a +:+ sep +:+ String.concat sep (a' :: l))
          = String.length (b +:+ sep +:+ String.concat sep (b' :: k))).
  rewrite !string_length_app. by rewrite IH, Hab.
Qed.

(** Joined strings are told apart when the pieces have the same lengths
    one by one. *)
Lemma concat_inj (sep : string) (l k : list string) :
  Forall2 (λ a b, String.length a = String.length b) l k →
  String.concat sep l = String.concat sep k → l = k.
Proof.
  induction 1 as [|a b l k Hab Hlk IH]; [done|].
  destruct Hlk as [|a' b' l k Hab' Hlk]; [simpl; by intros ->|].
  change (a +:+ sep +:+ String.concat sep (a' :: l)
          = b +:+ sep +:+ String.concat sep (b' :: k) → a :: a' :: l = b :: b' :: k).
  intros [-> Heq]%string_app_inj_length; [|done].
  apply string_app_inj_length in Heq as [_ Heq]; [|done].
  f_equal. apply IH. done.
Qed.

End Stripping.

(** * Search spaces *)

Section SearchSpaces.
Context {State : Type} {PZ : Puzzle State}.

Lemma reach_invariant (I : State → Prop) init :
  I init → (∀ s t, I s → t ∈ extensions s → I t) →
  ∀ s, reachable init s → I s.
Proof. intros H0 Hstep s [n Hn]. induction Hn; eauto. Qed.

Lemma reach_cons init s n t :
  s ∈ extensions init → reach s n t → reach init (S n) t.
Proof.
  intros Hs Hr. induction Hr as [|n u t Hr IH Ht].
  - apply (reach_step _ 0 init); [constructor|done].
  - by apply (reach_step _ (S n) u).
Qed.

Lemma reach_head init n t :
  reach init (S n) t → ∃ s, s ∈ extensions init ∧ reach s n t.
Proof.
  revert t. induction n as [|n IH]; intros t Hr;
    inversion Hr as [|? u ? Hu Ht]; subst.
  - inversion Hu; subst. exists t. split; [done|constructor].
  - destruct (IH u Hu) as (s & Hs & Hsu). exists s. split; [done|].
    by apply (reach_step _ n u).
Qed.

Lemma reach_within init n N s :
  reach init n s → n ≤ N → s ∈ within N init.
Proof.
  revert init n. induction N as [|N IH]; intros init [|n] Hr Hn; try lia.
  - inversion Hr; subst. by left.
  - inversion Hr; subst. by left.
  - apply reach_head in Hr as (s1 & Hs1 & Hr). simpl. right.
    rewrite list_elem_of_In, in_flat_map. exists s1.
    rewrite <- !list_elem_of_In. split; [done|]. apply (IH s1 n); [done|lia].
Qed.

Lemma measure_bounds_depth init (μ : State → nat) :
  (∀ s t, reachable init s → t ∈ extensions s → μ t < μ s) →
  ∀ n s, reach init n s → μ s + n ≤ μ init.
Proof.
  intros Hμ n s Hr. induction Hr as [|n s t Hr IH Ht]; [lia|].
  assert (μ t < μ s) by (apply Hμ; [by exists n|done]). lia.
Qed.

Lemma solve_returns_within init (L : list State) :
  (∀ s, reachable init s → s ∈ L) →
  ∃ fuel0, ∀ e fuel, fuel0 ≤ fuel →
    ∃ r, run_result (solve e fuel init) = Returned r.
Proof.
  intros HL. destruct (finite_space_bounds init L HL) as [Hforms HB].
  destruct (dfs_returns_within init _ Hforms) as [fd Hd].
  destruct (bfs_returns_within init _ _ Hforms HB) as [fb Hb].
  exists (fd `max` fb). intros [] fuel Hf; simpl; [apply Hd|apply Hb]; lia.
Qed.

Lemma solve_none e fuel init :
  str_separates init →
  run_result (solve e fuel init) = Returned None →
  ∀ s, reachable init s → is_solved s = false.
Proof.
  intros Hsep Hnone. destruct e; simpl in Hnone.
  - unfold depth_first_solve in Hnone.
    destruct (is_solved init) eqn:Hsol; [done|].
    destruct (dfs_more_seed init Hsol) as (h & st & Hf & HI).
    rewrite Hf in Hnone. by eapply dfs_loop_none.
  - unfold breadth_first_solve, breadth_first_search in Hnone.
    simpl in Hnone.
    destruct (bfs_loop fuel fuel [mkNode init [] None] ∅ [0] [])
      as [[[[path|]|] h'] calls'] eqn:Hb; simpl in Hnone; [| |done].
    + destruct (bfs_loop_solution _ _ _ _ _ _ _ _ _ _
                  (bfs_initial_inv init) Hb) as (r & l & -> & _). done.
    + by eapply bfs_loop_none; [|apply lvl_initial|..].
Qed.

Lemma solve_solution e fuel init r :
  run_result (solve e fuel init) = Returned (Some r) →
  ∃ l, solution_path init (run_heap (solve e fuel init)) r l.
Proof.
  destruct e; simpl.
  - unfold depth_first_solve. destruct (is_solved init) eqn:Hs.
    + simpl. intros [= <-]. exists [init]. by apply single_node_solution.
    + destruct (dfs_seed_inv init) as (h & st & -> & HI & _).
      by apply dfs_loop_solution.
  - unfold breadth_first_solve, breadth_first_search. simpl.
    destruct (bfs_loop fuel fuel [mkNode init [] None] ∅ [0] [])
      as [[[[path|]|] h'] calls'] eqn:Hb; simpl; try done.
    destruct (bfs_loop_solution _ _ _ _ _ _ _ _ _ _ (bfs_initial_inv init) Hb)
      as (r' & l & -> & Hl).
    intros [= <-]. eauto.
Qed.

Lemma read_chain_sound (h : list (PuzzleNode State)) fuel a l :
  read_chain fuel h a = Some l → is_chain h a l.
Proof.
  revert a l. induction fuel as [|fuel IH]; intros a l; simpl; [done|].
  destruct (h !! a) as [nd|] eqn:Ha; [|done]. simpl.
  destruct (children nd) as [|c [|c' cs]] eqn:Hc; [| |done].
  - intros [= <-]. by apply (chain_leaf _ a nd).
  - destruct (read_chain fuel h c) as [l0|] eqn:Hr; [|done]. simpl.
    intros [= <-]. apply (chain_cons _ a nd c); [done..|]. by apply IH.
Qed.

(** X15. When some measure of the states gets smaller with every
    application of [extensions()] within reach of the initial state, both
    engines return: every run with enough fuel does. *)
Theorem engines_return_when_a_measure_decreases init (μ : State → nat) :
  (∀ s t, reachable init s → t ∈ extensions s → μ t < μ s) →
  ∃ fuel0, ∀ e fuel, fuel0 ≤ fuel →
    ∃ r, run_result (solve e fuel init) = Returned r.
Proof.
  intros Hμ. apply (solve_returns_within init (within (μ init) init)).
  intros s [n Hn]. apply (reach_within init n); [done|].
  pose proof (measure_bounds_depth init μ Hμ n s Hn). lia.
Qed.

End SearchSpaces.

(** * Peg solitaire under the engines *)

Section GridPegSearch.
Import GridPeg.

Local Abbreviation grid := (list (list string)).

Lemma newline_spaces :
  Forall (λ c, py_space c = true) (list_ascii_of_string newline).
Proof. by repeat constructor. Qed.

Lemma blank_spaces : Forall (λ c, py_space c = true) (list_ascii_of_string " ").
Proof. by repeat constructor. Qed.

Lemma marker_tight (x : string) :
  (x = "*" ∨ x = "." ∨ x = "#")%string → tight x ∧ String.length x = 1.
Proof. intros [-> | [-> | ->]]; (split; [|done]); by eexists _, _. Qed.

(** The inner loop of [__str__]. *)
Lemma row_fold (row : list string) (board : string) :
  row ≠ [] →
  fold_left (λ b symbol, b +:+ symbol +:+ " ") row board
  = board +:+ String.concat " " row +:+ " ".
Proof.
  revert board. induction row as [|x row IH]; [done|]. intros board _.
  destruct row as [|y row]; [done|].
  change (fold_left (λ b symbol, b +:+ symbol +:+ " ") (y :: row)
            (board +:+ x +:+ " ")
          = board +:+ (x +:+ " " +:+ String.concat " " (y :: row)) +:+ " ").
  rewrite IH by done. by rewrite <- !string_app_assoc.
Qed.

(** The outer loop of [__str__], once a row has been added. *)
Lemma rows_fold (rows : grid) (T : string) :
  tight T → Forall (λ row, row ≠ [] ∧ Forall tight row) rows →
  fold_left
    (λ board row,
       strip (fold_left (λ b symbol, b +:+ symbol +:+ " ") row board)
       +:+ newline) rows (T +:+ newline)
  = String.concat newline (T :: (String.concat " " <$> rows)) +:+ newline
  ∧ tight (String.concat newline (T :: (String.concat " " <$> rows))).
Proof.
  intros HT Hrows. revert T HT.
  induction Hrows as [|row rows [Hne Hrow] _ IH]; intros T HT; [done|].
  cbn [fold_left fmap list_fmap]. rewrite row_fold by done.
  assert (Hline : tight (T +:+ newline +:+ String.concat " " row)).
  { apply tight_app; [done|]. by apply tight_concat. }
  replace ((T +:+ newline) +:+ String.concat " " row +:+ " ")
    with ((T +:+ newline +:+ String.concat " " row) +:+ " ")
    by by rewrite <- !string_app_assoc.
  rewrite strip_tight_spaces by (done || apply blank_spaces).
  destruct (IH _ Hline) as [-> Ht]. by rewrite concat_merge in *.
Qed.

Lemma valid_markers p row x :
  valid p → row ∈ marker p → x ∈ row → tight x ∧ String.length x = 1.
Proof.
  intros (_&_&Hm&Hs) Hrow Hx. apply marker_tight, Hs. by apply (Hm row).
Qed.

Lemma valid_rows_tight p :
  valid p → 0 < length (default [] (head (marker p))) →
  Forall (λ row, row ≠ [] ∧ Forall tight row) (marker p).
Proof.
  intros Hv Hw. apply Forall_forall. intros row Hrow. split.
  - apply list_elem_of_lookup in Hrow as [a Ha].
    apply (valid_rows p a row Hv) in Ha. destruct row; simpl in *; [lia|done].
  - apply Forall_forall. intros x Hx.
    by destruct (valid_markers p row x).
Qed.

(** X16. The text of a configuration that [__init__] accepts and that has
    a column is its rows separated by line feeds, the markers of a row
    separated by single spaces: the two calls of [strip] take off the
    space after the last marker of a row and the last line feed, nothing
    else. *)
Theorem peg_str_layout p :
  valid p → 0 < length (default [] (head (marker p))) →
  peg_str p = String.concat newline (String.concat " " <$> marker p).
Proof.
  intros Hv Hw. pose proof (valid_rows_tight p Hv Hw) as Hrows.
  unfold peg_str. destruct (marker p) as [|row rows]; [done|].
  apply Forall_cons in Hrows as [[Hne Hrow] Hrows].
  cbn [fold_left fmap list_fmap]. rewrite row_fold by done.
  assert (Hline : tight (String.concat " " row)) by by apply tight_concat.
  change ("" +:+ String.concat " " row +:+ " ")
    with (String.concat " " row +:+ " ").
  rewrite strip_tight_spaces by (done || apply blank_spaces).
  destruct (rows_fold rows _ Hline Hrows) as [-> Ht].
  apply strip_tight_spaces; [done|apply newline_spaces].
Qed.

Lemma shape_rows (g g' : grid) :
  shape g = shape g' → Forall2 (λ r r', length r = length r') g g'.
Proof.
  unfold shape. revert g'.
  induction g as [|r g IH]; intros [|r' g'] Hs; simplify_eq/=;
    constructor; eauto.
Qed.

Lemma same_length_symbols (r r' : list string) :
  length r = length r' →
  Forall (λ x, String.length x = 1) r → Forall (λ x, String.length x = 1) r' →
  Forall2 (λ a b, String.length a = String.length b) r r'.
Proof.
  revert r'. induction r as [|x r IH]; intros [|x' r'] Hl Hr Hr';
    simplify_eq/=; constructor;
    apply Forall_cons in Hr as [??]; apply Forall_cons in Hr' as [??];
    [congruence|eauto].
Qed.

Lemma rows_same_lengths (g g' : grid) :
  shape g = shape g' →
  Forall (Forall (λ x, String.length x = 1)) g →
  Forall (Forall (λ x, String.length x = 1)) g' →
  Forall2 (Forall2 (λ a b, String.length a = String.length b)) g g'.
Proof.
  intros Hs%shape_rows. induction Hs as [|r r' g g' Hr _ IH]; [constructor|].
  intros [??]%Forall_cons [??]%Forall_cons.
  constructor; [by apply same_length_symbols|by apply IH].
Qed.

(** Grids of markers of equal lengths are told apart by their lines. *)
Lemma lines_inj (sep : string) (g g' : grid) :
  Forall2 (Forall2 (λ a b, String.length a = String.length b)) g g' →
  String.concat sep <$> g = String.concat sep <$> g' → g = g'.
Proof.
  induction 1 as [|r r' g g' Hr _ IH]; [done|]. intros Heq.
  simplify_eq/=. f_equal; [by apply (concat_inj sep)|by apply IH].
Qed.

Lemma text_inj (sep : string) (g g' : grid) :
  Forall2 (Forall2 (λ a b, String.length a = String.length b)) g g' →
  String.concat newline (String.concat sep <$> g)
  = String.concat newline (String.concat sep <$> g') → g = g'.
Proof.
  intros H2 Heq. apply (lines_inj sep); [done|].
  apply (concat_inj newline); [|done]. apply Forall2_fmap.
  eapply Forall2_impl; [exact H2|]. intros r r'. apply concat_length.
Qed.

Lemma empty_rows_eq (g g' : grid) :
  shape g = shape g' → Forall (λ r, length r = 0) g → g = g'.
Proof.
  intros Hs%shape_rows. induction Hs as [|r r' g g' Hr _ IH]; [done|].
  intros [Hr0 ?]%Forall_cons. rewrite Hr0 in Hr.
  apply nil_length_inv in Hr0 as ->. symmetry in Hr.
  apply nil_length_inv in Hr as ->. f_equal. by apply IH.
Qed.

Lemma valid_symbols p :
  valid p → Forall (Forall (λ x, String.length x = 1)) (marker p).
Proof.
  intros Hv. apply Forall_forall. intros row Hrow.
  apply Forall_forall. intros x Hx. by destruct (valid_markers p row x).
Qed.

(** Two accepted configurations of the same shape and marker set with the
    same text are the same. *)
Lemma peg_same_text p q :
  valid p → valid q → shape (marker p) = shape (marker q) →
  marker_set p = marker_set q → peg_str p = peg_str q → p = q.
Proof.
  intros Hp Hq Hsh Hms Hstr.
  assert (marker p = marker q); [|destruct p, q; simpl in *; by subst].
  destruct (decide (0 < length (default [] (head (marker p))))) as [Hw|Hw].
  - assert (Hw' : 0 < length (default [] (head (marker q)))).
    { unfold shape in Hsh.
      destruct (marker p), (marker q); simplify_eq/=; [done|congruence]. }
    rewrite (peg_str_layout p), (peg_str_layout q) in Hstr by done.
    apply (text_inj " "); [|done].
    by apply rows_same_lengths; [|apply valid_symbols..].
  - apply empty_rows_eq; [done|]. apply Forall_forall.
    intros row [a Ha]%list_elem_of_lookup.
    apply (valid_rows p a row Hp) in Ha. lia.
Qed.

Lemma peg_step p q :
  q ∈ extensions p →
  marker_set q = marker_set p ∧ shape (marker q) = shape (marker p)
  ∧ pegs (marker q) + 1 = pegs (marker p) ∧ (valid p → valid q).
Proof.
  simpl. destruct (peg_extensions p) as [l|] eqn:Hl; simpl;
    [|by intros ?%elem_of_nil].
  intros Hq. destruct (peg_extension_facts p l q Hl Hq) as (?&?&?&?).
  split_and!; try done. intros Hv. by apply (peg_extensions_valid p l).
Qed.

Lemma peg_reachable init s :
  valid init → reachable init s →
  valid s ∧ shape (marker s) = shape (marker init)
  ∧ marker_set s = marker_set init.
Proof.
  intros Hv.
  apply (reach_invariant
           (λ s, valid s ∧ shape (marker s) = shape (marker init)
                 ∧ marker_set s = marker_set init)); [done|].
  clear s. intros s t (Hvs&Hs&Hm) Ht.
  destruct (peg_step s t Ht) as (?&?&_&?). split_and!; [auto|congruence..].
Qed.

Lemma peg_str_separates init : valid init → str_separates init.
Proof.
  intros Hv a b Ha Hb Hstr.
  destruct (peg_reachable init a Hv Ha) as (?&?&?).
  destruct (peg_reachable init b Hv Hb) as (?&?&?).
  apply peg_same_text; try done; congruence.
Qed.

(** Every jump within reach takes a peg away. *)
Lemma peg_reach_pegs init n s :
  reach init n s → pegs (marker s) + n = pegs (marker init).
Proof.
  induction 1 as [|n s t _ IH Ht]; [lia|].
  destruct (peg_step s t Ht) as (_&_&?&_). lia.
Qed.

(** X17. During a search from a configuration that [__init__] accepts no
    call of [extensions()] raises an error; both engines return, and they
    return [None] only when no sequence of jumps leaves a single peg. *)
Theorem peg_search_is_complete init :
  valid init →
  (∀ s, reachable init s → is_Some (peg_extensions s))
  ∧ (∃ fuel0, ∀ e fuel, fuel0 ≤ fuel →
       ∃ r, run_result (solve e fuel init) = Returned r)
  ∧ ∀ e fuel, run_result (solve e fuel init) = Returned None →
              ∀ s, reachable init s → pegs (marker s) ≠ 1.
Proof.
  intros Hv. split_and!.
  - intros s Hs. apply valid_peg_extensions_Some.
    by destruct (peg_reachable init s Hv Hs).
  - apply (solve_returns_within init (within (pegs (marker init)) init)).
    intros s [n Hn]. apply (reach_within init n); [done|].
    apply peg_reach_pegs in Hn. lia.
  - intros e fuel Hnone s Hs.
    assert (Hun : is_solved s = false);
      [|by apply bool_decide_eq_false in Hun].
    by apply (solve_none e fuel init); [apply peg_str_separates|..].
Qed.

(** X18. Every line of play from an accepted configuration that ends
    with a single peg has as many configurations as the first has pegs; so
    has the path that either engine returns, whichever it finds. *)
Theorem peg_solutions_have_one_length init :
  valid init →
  (∀ l t, is_path l → head l = Some init → last l = Some t →
          is_solved t = true → length l = pegs (marker init))
  ∧ ∀ e fuel r l,
      run_result (solve e fuel init) = Returned (Some r) →
      is_chain (run_heap (solve e fuel init)) r l →
      length l = pegs (marker init).
Proof.
  intros _.
  assert (Hlen : ∀ l t, is_path l → head l = Some init → last l = Some t →
                        is_solved t = true → length l = pegs (marker init)).
  { intros l t Hp Hh Hl Ht.
    pose proof (is_path_reach init l t Hp Hh Hl) as Hr.
    apply peg_reach_pegs in Hr. apply bool_decide_eq_true in Ht.
    destruct l; [done|]. simpl in *. lia. }
  split; [done|]. intros e fuel r l Hr Hc.
  destruct (solve_solution e fuel init r Hr) as (l0 & Hc0 & Hh & (t & Hl & Ht) & Hp & _).
  rewrite (is_chain_inj _ _ _ _ Hc Hc0). by apply (Hlen l0 t).
Qed.

End GridPegSearch.

(** * The sliding puzzle *)

Section MNFacts.
Import MN.

Local Abbreviation grid := (list (list string)).

Lemma blank_snoc (g : grid) (r : list string) :
  blank (g ++ [r]) = match list_find (λ x, x = "*"%string) r with
                     | Some (j, _) => (length g, j)
                     | None => blank g
                     end.
Proof.
  unfold blank. rewrite length_app. simpl. rewrite Nat.add_1_r, seq_S. simpl.
  rewrite (zip_with_app pair (seq 0 (length g)) [length g] g [r])
    by by rewrite length_seq.
  by rewrite fold_left_app.
Qed.

Lemma cell_snoc (g : grid) (r : list string) a b :
  cell (g ++ [r]) a b
  = if decide (a < length g) then cell g a b
    else if decide (a = length g) then r !! b else None.
Proof.
  unfold cell. case_decide.
  - by rewrite lookup_app_l.
  - case_decide as Ha.
    + subst. by rewrite list_lookup_middle.
    + rewrite lookup_ge_None_2; [done|]. rewrite length_app. simpl. lia.
Qed.

Lemma cell_lt (g : grid) a b x : cell g a b = Some x → a < length g.
Proof.
  unfold cell. destruct (g !! a) eqn:Ha; [|done]. intros _.
  by eapply lookup_lt_Some.
Qed.

(** What the search for the empty space finds. *)
Lemma blank_spec (g : grid) :
  ((∀ i j, cell g i j ≠ Some "*"%string) ∧ blank g = (0, 0))
  ∨ (∃ i j, blank g = (i, j) ∧ cell g i j = Some "*"%string
            ∧ (∀ b, b < j → cell g i b ≠ Some "*"%string)
            ∧ (∀ a b, i < a → cell g a b ≠ Some "*"%string)).
Proof.
  induction g as [|r g IH] using rev_ind.
  { left. split; [|done]. intros i j. unfold cell. by rewrite lookup_nil. }
  rewrite blank_snoc.
  destruct (list_find (λ x, x = "*"%string) r) as [[j x]|] eqn:Hf.
  - apply list_find_Some in Hf as (Hj & -> & Hfirst).
    right. exists (length g), j. split_and!; [done|..].
    + rewrite cell_snoc. rewrite decide_False, decide_True by lia. done.
    + intros b Hb. rewrite cell_snoc.
      rewrite decide_False, decide_True by lia.
      intros Hrb. by apply (Hfirst b "*"%string).
    + intros a b Ha. rewrite cell_snoc.
      by rewrite decide_False, decide_False by lia.
  - apply list_find_None in Hf.
    assert (Hr : ∀ b, r !! b ≠ Some "*"%string).
    { intros b Hb. by apply (Forall_lookup_1 _ _ _ _ Hf) in Hb. }
    destruct IH as [[Hno Hb]|(i & j & Hb & Hij & Hj & Hi)].
    + left. split; [|done]. intros i j. rewrite cell_snoc.
      repeat case_decide; [apply Hno|apply Hr|done].
    + right. exists i, j. apply cell_lt in Hij as Hlt.
      split_and!; [done|..].
      * rewrite cell_snoc. by rewrite decide_True.
      * intros b ?. rewrite cell_snoc. rewrite decide_True by done. by apply Hj.
      * intros a b ?. rewrite cell_snoc.
        repeat case_decide; [by apply Hi|apply Hr|done].
Qed.

(** X19. The search for the empty space of [extensions()] settles on the
    first ["*"] of the last row that has one, because its [break] leaves
    the inner loop only; on a grid without ["*"] it settles on the first
    position of the first row. *)
Theorem blank_is_first_star_of_last_row (g : grid) :
  (∀ i j, cell g i j = Some "*"%string →
          (∀ b, b < j → cell g i b ≠ Some "*"%string) →
          (∀ a b, i < a → cell g a b ≠ Some "*"%string) →
          blank g = (i, j))
  ∧ ((∀ i j, cell g i j ≠ Some "*"%string) → blank g = (0, 0)).
Proof.
  destruct (blank_spec g) as [[Hno Hb]|(i' & j' & Hb & Hij' & Hj' & Hi')].
  - split; [|done]. intros i j Hij. by destruct (Hno i j).
  - split; [|intros Hno; by destruct (Hno i' j')].
    intros i j Hij Hj Hi. rewrite Hb.
    destruct (decide (i' < i)); [by destruct (Hi' i j)|].
    destruct (decide (i < i')); [by destruct (Hi i' j')|].
    assert (i' = i) as -> by lia.
    destruct (decide (j' < j)); [by destruct (Hj j')|].
    destruct (decide (j < j')); [by destruct (Hj' j)|].
    f_equal. lia.
Qed.

Lemma blank_unique (g : grid) i j :
  cell g i j = Some "*"%string →
  (∀ a b, cell g a b = Some "*"%string → (a, b) = (i, j)) →
  blank g = (i, j).
Proof.
  intros Hij Huniq.
  destruct (blank_spec g) as [[Hno Hb]|(i' & j' & Hb & Hij' & _)].
  - by destruct (Hno i j).
  - rewrite Hb. by apply Huniq.
Qed.

Lemma swap_spec (g g' : grid) a b i j :
  (a, b) ≠ (i, j) → swap g a b i j = Some g' →
  is_Some (cell g i j) ∧ is_Some (cell g a b) ∧ swapped g g' (a, b) (i, j).
Proof.
  intros Hne. unfold swap.
  destruct (cell g i j) as [x|] eqn:Hx; [|done]. simpl.
  destruct (cell g a b) as [y|] eqn:Hy; [|done]. simpl.
  destruct (set_cell g a b x) as [g1|] eqn:H1; [|done]. simpl. intros H2.
  split_and!; [by eexists..|]. split.
  - rewrite (shape_set_cell _ _ _ _ _ H2). by apply shape_set_cell in H1.
  - intros u v. simpl. rewrite (cell_set_cell _ _ _ _ _ u v H2).
    rewrite (cell_set_cell _ _ _ _ _ u v H1).
    destruct (decide (u = i ∧ v = j)) as [[-> ->]|Hn1].
    + rewrite (decide_False (P := (i, j) = (a, b))) by congruence.
      by rewrite decide_True.
    + destruct (decide (u = a ∧ v = b)) as [[-> ->]|Hn2].
      * by rewrite decide_True.
      * rewrite !decide_False; [done|intros [= -> ->]; tauto..].
Qed.

Lemma swap_is_Some (g : grid) a b i j :
  is_Some (cell g i j) → is_Some (cell g a b) → is_Some (swap g a b i j).
Proof.
  intros [x Hx] [y Hy]. unfold swap. rewrite Hx, Hy. simpl.
  destruct (set_cell_is_Some g a b x) as [g1 H1]; [by eexists|].
  rewrite H1. simpl. apply set_cell_is_Some.
  apply (cell_shape g); [by apply shape_set_cell in H1|by eexists].
Qed.

Lemma swapped_unique (g g1 g2 : grid) n bl :
  swapped g g1 n bl → swapped g g2 n bl → g1 = g2.
Proof.
  intros [S1 C1] [S2 C2]. apply grid_ext; [congruence|].
  intros a b. by rewrite C1, C2.
Qed.

Lemma next_to_apart n bl : next_to n bl → n ≠ bl.
Proof. intros [[? [?|?]]|[? [?|?]]] ->; lia. Qed.

Lemma try_swap_elem p (c : bool) a b i j l q :
  try_swap p c a b i j = Some l →
  q ∈ l ↔ c = true ∧ to_grid q = to_grid p
          ∧ swap (from_grid p) a b i j = Some (from_grid q).
Proof.
  unfold try_swap. destruct c; [|intros [= <-]; split;
    [by intros ?%elem_of_nil|by intros [? _]]].
  destruct (swap (from_grid p) a b i j) as [g|] eqn:Hg; [|done]. simpl.
  intros [= <-]. rewrite list_elem_of_singleton. split.
  - by intros ->.
  - intros (_&Ht&[= ->]). destruct q. simpl in *. by subst.
Qed.

(** The four steps of [extensions()]. *)
Lemma mn_extensions_inv p l row col :
  mn_extensions p = Some l → blank (from_grid p) = (row, col) →
  ∃ r l1 l2 l3 l4,
    from_grid p !! row = Some r
    ∧ try_swap p (bool_decide (1 ≤ col)) row (col - 1) row col = Some l1
    ∧ try_swap p (bool_decide (col + 1 < length r)) row (col + 1) row col
      = Some l2
    ∧ try_swap p (bool_decide (1 ≤ row)) (row - 1) col row col = Some l3
    ∧ try_swap p (bool_decide (row + 1 < length (from_grid p)))
               (row + 1) col row col = Some l4
    ∧ l = l1 ++ l2 ++ l3 ++ l4.
Proof.
  unfold mn_extensions. intros Hl Hb. rewrite Hb in Hl. cbn [fst snd] in Hl.
  destruct (try_swap p _ row (col - 1) row col) as [l1|]; [|done].
  simpl in Hl. destruct (from_grid p !! row) as [r|]; [|done]. simpl in Hl.
  destruct (try_swap p _ row (col + 1) row col) as [l2|] eqn:H2; [|done].
  simpl in Hl.
  destruct (try_swap p _ (row - 1) col row col) as [l3|]; [|done].
  simpl in Hl.
  destruct (try_swap p _ (row + 1) col row col) as [l4|]; [|done].
  simpl in Hl. injection Hl as <-. by exists r, l1, l2, l3, l4.
Qed.

Lemma cell_row (g : grid) a b r :
  g !! a = Some r → cell g a b = r !! b.
Proof. unfold cell. by intros ->. Qed.

(** The moves: the exchanges of the empty space with a position next to
    it. *)
Lemma mn_extensions_elem p l q :
  mn_extensions p = Some l →
  q ∈ l ↔ to_grid q = to_grid p
          ∧ ∃ n, next_to n (blank (from_grid p))
                 ∧ swap (from_grid p) n.1 n.2 (blank (from_grid p)).1
                        (blank (from_grid p)).2 = Some (from_grid q).
Proof.
  intros Hl. destruct (blank (from_grid p)) as [row col] eqn:Hb.
  destruct (mn_extensions_inv p l row col Hl Hb)
    as (r & l1 & l2 & l3 & l4 & Hr & H1 & H2 & H3 & H4 & ->).
  simpl in *. rewrite !elem_of_app.
  rewrite (try_swap_elem _ _ _ _ _ _ _ q H1), (try_swap_elem _ _ _ _ _ _ _ q H2),
    (try_swap_elem _ _ _ _ _ _ _ q H3), (try_swap_elem _ _ _ _ _ _ _ q H4).
  rewrite !bool_decide_eq_true. unfold next_to. split.
  - intros [(?&?&?)|[(?&?&?)|[(?&?&?)|(?&?&?)]]]; (split; [done|]).
    + exists (row, col - 1). simpl. split; [left; lia|done].
    + exists (row, col + 1). simpl. split; [left; lia|done].
    + exists (row - 1, col). simpl. split; [right; lia|done].
    + exists (row + 1, col). simpl. split; [right; lia|done].
  - intros (Ht & [n1 n2] & Hn & Hs). simpl in *.
    assert (Hne : (n1, n2) ≠ (row, col)).
    { intros [= -> ->]. lia. }
    destruct (swap_spec _ _ _ _ _ _ Hne Hs) as (_ & [y Hy] & _).
    destruct Hn as [[-> [Hn| ->]]|[-> [Hn| ->]]].
    + left. replace (col - 1) with n2 by lia. split_and!; [lia|done..].
    + right. left. split_and!; [|done..].
      rewrite (cell_row _ row _ r Hr) in Hy. by apply lookup_lt_Some in Hy.
    + do 2 right. left. replace (row - 1) with n1 by lia.
      split_and!; [lia|done..].
    + do 3 right. split_and!; [|done..]. by apply cell_lt in Hy.
Qed.

(** A move that the grid has room for is made, not skipped. *)
Lemma mn_move_defined p l n :
  mn_extensions p = Some l →
  next_to n (blank (from_grid p)) → is_Some (cell (from_grid p) n.1 n.2) →
  is_Some (swap (from_grid p) n.1 n.2 (blank (from_grid p)).1
                (blank (from_grid p)).2).
Proof.
  intros Hl Hn [y Hy]. destruct (blank (from_grid p)) as [row col] eqn:Hb.
  destruct (mn_extensions_inv p l row col Hl Hb)
    as (r & l1 & l2 & l3 & l4 & Hr & H1 & H2 & H3 & H4 & ->).
  destruct n as [n1 n2]. unfold next_to, try_swap in *. simpl in *.
  destruct Hn as [[-> [Hn| ->]]|[-> [Hn| ->]]]; simpl in *.
  - rewrite bool_decide_true in H1 by lia.
    replace (col - 1) with n2 in H1 by lia.
    by destruct (swap (from_grid p) row n2 row col).
  - rewrite (cell_row _ row _ r Hr) in Hy. apply lookup_lt_Some in Hy.
    rewrite bool_decide_true in H2 by lia.
    by destruct (swap (from_grid p) row (col + 1) row col).
  - rewrite bool_decide_true in H3 by lia.
    replace (row - 1) with n1 in H3 by lia.
    by destruct (swap (from_grid p) n1 col row col).
  - apply cell_lt in Hy. rewrite bool_decide_true in H4 by lia.
    by destruct (swap (from_grid p) (row + 1) col row col).
Qed.

Lemma mn_extensions_moves p l q :
  mn_extensions p = Some l →
  q ∈ l ↔ to_grid q = to_grid p
          ∧ ∃ n, next_to n (blank (from_grid p))
                 ∧ is_Some (cell (from_grid p) n.1 n.2)
                 ∧ swapped (from_grid p) (from_grid q) n (blank (from_grid p)).
Proof.
  intros Hl. rewrite (mn_extensions_elem p l q Hl). split.
  - intros (Ht & n & Hn & Hs). split; [done|]. exists n.
    pose proof (next_to_apart _ _ Hn) as Hne.
    destruct n as [n1 n2], (blank (from_grid p)) as [row col]. simpl in *.
    destruct (swap_spec _ _ _ _ _ _ Hne Hs) as (_ & ? & ?). done.
  - intros (Ht & n & Hn & Hc & Hs). split; [done|]. exists n.
    split; [done|].
    destruct (mn_move_defined p l n Hl Hn Hc) as [g' Hg'].
    rewrite Hg'. f_equal.
    pose proof (next_to_apart _ _ Hn) as Hne.
    destruct n as [n1 n2], (blank (from_grid p)) as [row col]. simpl in *.
    destruct (swap_spec _ _ _ _ _ _ Hne Hg') as (_ & _ & Hs').
    by apply (swapped_unique (from_grid p) _ _ (n1, n2) (row, col)).
Qed.

(** X20. The extensions of a sliding puzzle are the puzzles with the same
    target whose grid is the grid with the symbol at the position found
    for the empty space and the symbol at a position next to it, in its
    row or column and within the grid, exchanged. *)
Theorem mn_extensions_are_the_moves p l q :
  mn_extensions p = Some l →
  q ∈ l ↔ to_grid q = to_grid p
          ∧ ∃ n, next_to n (blank (from_grid p))
                 ∧ is_Some (cell (from_grid p) n.1 n.2)
                 ∧ swapped (from_grid p) (from_grid q) n (blank (from_grid p)).
Proof. apply mn_extensions_moves. Qed.

Lemma mn_valid_rows p a r :
  valid p → from_grid p !! a = Some r →
  length r = length (default [] (head (from_grid p))).
Proof.
  intros (_&Hr&_) Ha. apply Hr. by eapply list_elem_of_lookup_2.
Qed.

(** The positions of an accepted grid form a rectangle. *)
Lemma mn_valid_cell p a b :
  valid p →
  is_Some (cell (from_grid p) a b)
  ↔ a < length (from_grid p) ∧ b < length (default [] (head (from_grid p))).
Proof.
  intros Hv. unfold cell. destruct (from_grid p !! a) as [row|] eqn:Ha; simpl.
  - rewrite lookup_lt_is_Some, (mn_valid_rows p a row Hv Ha).
    apply lookup_lt_Some in Ha. tauto.
  - apply lookup_ge_None in Ha. split; [by intros [??]|lia].
Qed.

Lemma blank_in_range p :
  valid p → 0 < length (default [] (head (from_grid p))) →
  is_Some (cell (from_grid p) (blank (from_grid p)).1 (blank (from_grid p)).2).
Proof.
  intros Hv Hw.
  destruct (blank_spec (from_grid p)) as [[_ ->]|(i & j & -> & Hij & _)].
  - apply (mn_valid_cell p 0 0 Hv). destruct Hv as [? _]. simpl. lia.
  - by eexists.
Qed.

Lemma try_swap_is_Some p (c : bool) a b i j :
  (c = true → is_Some (cell (from_grid p) a b)) →
  is_Some (cell (from_grid p) i j) → is_Some (try_swap p c a b i j).
Proof.
  intros Hc Hd. unfold try_swap. destruct c; [|by eexists].
  destruct (swap_is_Some (from_grid p) a b i j) as [g Hg]; [done|by apply Hc|].
  rewrite Hg. by eexists.
Qed.

Lemma valid_mn_extensions_Some p :
  valid p → 0 < length (default [] (head (from_grid p))) →
  is_Some (mn_extensions p).
Proof.
  intros Hv Hw. pose proof (blank_in_range p Hv Hw) as Hbl.
  apply (mn_valid_cell p _ _ Hv) in Hbl as Hrc.
  unfold mn_extensions. destruct (blank (from_grid p)) as [row col].
  simpl in *.
  edestruct (try_swap_is_Some p (bool_decide (1 ≤ col)) row (col - 1) row col)
    as [l1 ->]; [|done|].
  { intros ?%bool_decide_eq_true. apply (mn_valid_cell p); [done|lia]. }
  destruct (from_grid p !! row) as [r|] eqn:Hr;
    [|apply lookup_ge_None in Hr; lia].
  simpl. apply (mn_valid_rows p row r Hv) in Hr as Hlen.
  edestruct (try_swap_is_Some p (bool_decide (col + 1 < length r))
               row (col + 1) row col) as [l2 ->]; [|done|].
  { intros ?%bool_decide_eq_true. apply (mn_valid_cell p); [done|lia]. }
  edestruct (try_swap_is_Some p (bool_decide (1 ≤ row)) (row - 1) col row col)
    as [l3 ->]; [|done|].
  { intros ?%bool_decide_eq_true. apply (mn_valid_cell p); [done|lia]. }
  edestruct (try_swap_is_Some p (bool_decide (row + 1 < length (from_grid p)))
               (row + 1) col row col) as [l4 ->]; [|done|].
  { intros ?%bool_decide_eq_true. apply (mn_valid_cell p); [done|lia]. }
  by eexists.
Qed.

(** Whether [__init__] accepts a grid is a matter of its shape. *)
Lemma rows_of_shape (g g' : grid) :
  shape g' = shape g →
  (∀ r, r ∈ g → length r = length (default [] (head g))) →
  ∀ r, r ∈ g' → length r = length (default [] (head g')).
Proof.
  unfold shape. intros Hs Hg r' [a Ha]%list_elem_of_lookup.
  assert (Hh : length (default [] (head g')) = length (default [] (head g))).
  { destruct g, g'; simplify_eq/=; done. }
  assert (Hl : (length <$> g) !! a = Some (length r')).
  { by rewrite <- Hs, list_lookup_fmap, Ha. }
  rewrite list_lookup_fmap in Hl.
  destruct (g !! a) as [r|] eqn:Hr; simplify_eq/=.
  rewrite Hh, <- Hl. apply Hg. by eapply list_elem_of_lookup_2.
Qed.

Lemma valid_of_shape p q :
  shape (from_grid q) = shape (from_grid p) → to_grid q = to_grid p →
  valid p → valid q.
Proof.
  intros Hs Ht (Hn & Hr & Hto). split_and!.
  - apply (f_equal length) in Hs. unfold shape in Hs.
    rewrite !length_fmap in Hs. lia.
  - by apply (rows_of_shape (from_grid p)).
  - by rewrite Ht.
Qed.

Lemma mn_extension_shape p l q :
  mn_extensions p = Some l → q ∈ l →
  shape (from_grid q) = shape (from_grid p) ∧ to_grid q = to_grid p.
Proof.
  intros Hl Hq.
  apply (mn_extensions_moves p l q Hl) in Hq as (Ht & n & _ & _ & Hs & _).
  done.
Qed.

(** X21. On a puzzle that [__init__] accepts and whose grid has a column,
    [extensions()] indexes the grid inside its bounds only, so that it
    raises no [IndexError], and the puzzles it builds have grids of the same
    row lengths and pass the assertions of [__init__] in turn. *)
Theorem valid_mn_extensions p :
  valid p → 0 < length (default [] (head (from_grid p))) →
  ∃ l, mn_extensions p = Some l
       ∧ ∀ q, q ∈ l → valid q ∧ shape (from_grid q) = shape (from_grid p).
Proof.
  intros Hv Hw. destruct (valid_mn_extensions_Some p Hv Hw) as [l Hl].
  exists l. split; [done|]. intros q Hq.
  destruct (mn_extension_shape p l q Hl Hq) as [Hs Ht].
  split; [|done]. by apply (valid_of_shape p).
Qed.

(** X22. [__init__] accepts a grid of two or more rows without columns,
    but [extensions()] raises [IndexError] on it: the move down is tried
    from the position [(0, 0)], which the grid does not have. *)
Theorem mn_extensions_fail_without_columns p :
  valid p → length (default [] (head (from_grid p))) = 0 →
  1 < length (from_grid p) → mn_extensions p = None.
Proof.
  intros Hv Hw Hn.
  assert (Hno : ∀ a b, cell (from_grid p) a b = None).
  { intros a b. apply eq_None_not_Some. intros Hc.
    apply (mn_valid_cell p a b Hv) in Hc. lia. }
  assert (Hb : blank (from_grid p) = (0, 0)).
  { destruct (blank_spec (from_grid p)) as [[_ ?]|(i & j & _ & Hij & _)];
      [done|]. by rewrite Hno in Hij. }
  unfold mn_extensions. rewrite Hb. simpl.
  destruct (from_grid p) as [|r [|r' g]] eqn:Hg; simpl in *; try lia.
  apply nil_length_inv in Hw as ->. simpl.
  unfold swap. rewrite Hg. by rewrite (Hno 0 0).
Qed.

Lemma next_to_sym n bl : next_to n bl → next_to bl n.
Proof. unfold next_to. intros [[? [?|?]]|[? [?|?]]]; lia. Qed.

(** After a move the empty space is where the moved symbol was. *)
Lemma moved_blank (g g' : grid) n bl :
  n ≠ bl → cell g bl.1 bl.2 = Some "*"%string →
  (∀ a b, cell g a b = Some "*"%string → (a, b) = bl) →
  swapped g g' n bl →
  cell g' n.1 n.2 = Some "*"%string
  ∧ ∀ a b, cell g' a b = Some "*"%string → (a, b) = n.
Proof.
  intros Hne Hbl Huniq [_ Hc]. destruct n as [n1 n2], bl as [i j].
  simpl in *. split.
  - by rewrite Hc, decide_True.
  - intros a b. rewrite Hc. repeat case_decide; [done|..].
    + intros ?%Huniq. done.
    + intros ?%Huniq. done.
Qed.

Lemma swapped_back (g g' : grid) n bl :
  n ≠ bl → swapped g g' n bl → swapped g' g bl n.
Proof.
  intros Hne [Hs Hc]. split; [done|]. intros u v.
  rewrite !Hc. destruct n as [n1 n2], bl as [i j]. simpl.
  rewrite (decide_True (P := (n1, n2) = (n1, n2))) by done.
  rewrite (decide_False (P := (i, j) = (n1, n2))) by done.
  rewrite (decide_True (P := (i, j) = (i, j))) by done.
  repeat case_decide; simplify_eq; done.
Qed.

(** X23. On an accepted puzzle with one empty space every move can be
    taken back: the puzzle is among the extensions of each of its
    extensions, which have one empty space in turn. *)
Theorem mn_moves_can_be_undone p l q :
  valid p → one_blank (from_grid p) → mn_extensions p = Some l → q ∈ l →
  one_blank (from_grid q) ∧ ∃ l', mn_extensions q = Some l' ∧ p ∈ l'.
Proof.
  intros Hv (i & j & Hij & Huniq) Hl Hq.
  pose proof (blank_unique _ i j Hij Huniq) as Hb.
  destruct (mn_extension_shape p l q Hl Hq) as [Hsh Hto].
  apply (mn_extensions_moves p l q Hl) in Hq as (_ & n & Hn & Hcn & Hsw).
  rewrite Hb in Hn, Hsw. pose proof (next_to_apart _ _ Hn) as Hne.
  destruct (moved_blank _ _ n (i, j) Hne Hij Huniq Hsw) as [Hqn Hquniq].
  split; [by exists n.1, n.2; destruct n|].
  assert (Hbq : blank (from_grid q) = n).
  { destruct n as [n1 n2]. by apply blank_unique. }
  pose proof (valid_of_shape p q Hsh Hto Hv) as Hvq.
  destruct (valid_mn_extensions_Some q Hvq) as [l' Hl'].
  { assert (Hc : is_Some (cell (from_grid q) n.1 n.2)) by by eexists.
    apply (mn_valid_cell q _ _ Hvq) in Hc. lia. }
  exists l'. split; [done|].
  apply (mn_extensions_moves q l' p Hl'). split; [done|].
  exists (i, j). rewrite Hbq. split_and!.
  - by apply next_to_sym.
  - destruct Hsw as [_ Hc]. rewrite Hc. simpl.
    rewrite decide_False by done. by rewrite decide_True.
  - by apply swapped_back.
Qed.

Lemma row_insert_perm (r : list string) b x y :
  r !! b = Some y → y :: <[b := x]> r ≡ₚ x :: r.
Proof.
  intros Hb. rewrite insert_take_drop by by eapply lookup_lt_Some.
  rewrite <- (take_drop_middle r b y Hb) at 3.
  rewrite <- !Permutation_middle. apply perm_swap.
Qed.

Lemma set_cell_perm (g g' : grid) a b x y :
  set_cell g a b x = Some g' → cell g a b = Some y →
  y :: mjoin g' ≡ₚ x :: mjoin g.
Proof.
  unfold set_cell, cell. destruct (g !! a) as [r|] eqn:Hr; [|done]. simpl.
  destruct (decide (b < length r)); [|done]. intros [= <-] Hb.
  rewrite insert_take_drop by by eapply lookup_lt_Some.
  rewrite <- (take_drop_middle g a r Hr) at 3.
  rewrite !join_app. simpl.
  rewrite (Permutation_middle (mjoin (take a g))).
  rewrite (Permutation_middle (mjoin (take a g)) _ x).
  apply Permutation_app_head.
  change (y :: <[b:=x]> r ++ mjoin (drop (S a) g))
    with ((y :: <[b:=x]> r) ++ mjoin (drop (S a) g)).
  rewrite (row_insert_perm r b x y Hb). done.
Qed.

Lemma swap_perm (g g' : grid) a b i j :
  (a, b) ≠ (i, j) → swap g a b i j = Some g' → mjoin g' ≡ₚ mjoin g.
Proof.
  intros Hne. unfold swap.
  destruct (cell g i j) as [x|] eqn:Hx; [|done]. simpl.
  destruct (cell g a b) as [y|] eqn:Hy; [|done]. simpl.
  destruct (set_cell g a b x) as [g1|] eqn:H1; [|done]. simpl. intros H2.
  pose proof (set_cell_perm _ _ _ _ _ _ H1 Hy) as P1.
  assert (Hx1 : cell g1 i j = Some x).
  { rewrite (cell_set_cell _ _ _ _ _ i j H1).
    rewrite decide_False; [done|]. intros [-> ->]. done. }
  pose proof (set_cell_perm _ _ _ _ _ _ H2 Hx1) as P2.
  apply (Permutation_cons_inv (a := x)). by rewrite P2, P1.
Qed.

Lemma mn_extension_facts p l q :
  mn_extensions p = Some l → q ∈ l →
  mjoin (from_grid q) ≡ₚ mjoin (from_grid p)
  ∧ shape (from_grid q) = shape (from_grid p) ∧ to_grid q = to_grid p.
Proof.
  intros Hl Hq. split; [|by apply (mn_extension_shape p l)].
  apply (mn_extensions_elem p l q Hl) in Hq as (_ & n & Hn & Hs).
  apply next_to_apart in Hn.
  eapply swap_perm; [|done]. by destruct n, (blank (from_grid p)).
Qed.

(** X24. A move rearranges the symbols of the grid and nothing else:
    every extension has the symbols of the puzzle, each as often, in rows
    of the same lengths, and the same target. *)
Theorem mn_extension_keeps_symbols p l q :
  mn_extensions p = Some l → q ∈ l →
  mjoin (from_grid q) ≡ₚ mjoin (from_grid p)
  ∧ shape (from_grid q) = shape (from_grid p) ∧ to_grid q = to_grid p.
Proof. apply mn_extension_facts. Qed.

End MNFacts.

(** * The sliding puzzle under the engines *)

Section MNSearch.
Import MN.

Local Abbreviation grid := (list (list string)).

Lemma concat_empty_cons (x : string) (l : list string) :
  String.concat "" (x :: l) = x +:+ String.concat "" l.
Proof. destruct l; simpl; [by rewrite string_app_nil_r|done]. Qed.

(** The inner loop of [__str__]. *)
Lemma mn_row_fold (row : list string) (board : string) :
  fold_left (λ b symbol, b +:+ symbol) row board
  = board +:+ String.concat "" row.
Proof.
  revert board. induction row as [|x row IH]; intros board.
  - simpl. by rewrite string_app_nil_r.
  - cbn [fold_left]. rewrite IH, concat_empty_cons.
    by rewrite <- !string_app_assoc.
Qed.

(** The outer loop of [__str__]. *)
Lemma mn_rows_fold (rows : grid) (board : string) :
  fold_left
    (λ board row, fold_left (λ b symbol, b +:+ symbol) row board +:+ newline)
    rows board
  = board
    +:+ String.concat "" ((λ line, line +:+ newline)
                            <$> (String.concat "" <$> rows)).
Proof.
  revert board. induction rows as [|row rows IH]; intros board.
  - simpl. by rewrite string_app_nil_r.
  - cbn [fold_left fmap list_fmap]. rewrite IH, mn_row_fold.
    rewrite concat_empty_cons. by rewrite <- !string_app_assoc.
Qed.

Lemma mn_str_lines p :
  mn_str p = strip (String.concat "" ((λ line, line +:+ newline)
                                        <$> (String.concat "" <$> from_grid p))).
Proof. unfold mn_str. by rewrite mn_rows_fold. Qed.

(** X25. [__str__] joins the symbols of a row without a separator, and so
    forgets where one symbol ends and the next begins: two puzzles whose
    rows read the same have the same text, whatever their symbols are. *)
Theorem mn_str_forgets_symbol_bounds p q :
  String.concat "" <$> from_grid p = String.concat "" <$> from_grid q →
  mn_str p = mn_str q.
Proof. intros Heq. by rewrite !mn_str_lines, Heq. Qed.

Lemma concat_lines (lines : list string) :
  lines ≠ [] →
  String.concat "" ((λ line, line +:+ newline) <$> lines)
  = String.concat newline lines +:+ newline.
Proof.
  induction lines as [|x lines IH]; [done|]. intros _.
  destruct lines as [|y lines]; [done|].
  cbn [fmap list_fmap]. rewrite concat_empty_cons.
  cbn [fmap list_fmap] in IH. rewrite IH by done.
  change (String.concat newline (x :: y :: lines))
    with (x +:+ newline +:+ String.concat newline (y :: lines)).
  by rewrite <- !string_app_assoc.
Qed.

(** X26. The text of an accepted puzzle whose grid has a column and whose
    symbols neither begin nor end with white space is its rows, each the
    symbols one after the other, separated by line feeds. *)
Theorem mn_str_layout p :
  valid p → 0 < length (default [] (head (from_grid p))) →
  Forall (Forall tight) (from_grid p) →
  mn_str p = String.concat newline (String.concat "" <$> from_grid p).
Proof.
  intros Hv Hw Hsym. rewrite mn_str_lines.
  assert (Hne : String.concat "" <$> from_grid p ≠ []).
  { destruct Hv as [Hn _]. destruct (from_grid p); simpl in *; [lia|done]. }
  rewrite concat_lines by done.
  apply strip_tight_spaces; [|apply newline_spaces].
  apply tight_concat; [done|]. apply Forall_fmap, Forall_forall.
  intros row Hrow. simpl. apply tight_concat.
  - apply list_elem_of_lookup in Hrow as [a Ha].
    apply (mn_valid_rows p a row Hv) in Ha. destruct row; simpl in *; [lia|done].
  - by apply (Forall_forall (Forall tight) (from_grid p)).
Qed.

Lemma mn_step p q :
  q ∈ extensions p →
  mjoin (from_grid q) ≡ₚ mjoin (from_grid p)
  ∧ shape (from_grid q) = shape (from_grid p) ∧ to_grid q = to_grid p.
Proof.
  simpl. destruct (mn_extensions p) as [l|] eqn:Hl; simpl;
    [|by intros ?%elem_of_nil].
  by apply mn_extension_facts.
Qed.

Lemma mn_reachable init s :
  reachable init s →
  mjoin (from_grid s) ≡ₚ mjoin (from_grid init)
  ∧ shape (from_grid s) = shape (from_grid init)
  ∧ to_grid s = to_grid init.
Proof.
  apply (reach_invariant
           (λ s, mjoin (from_grid s) ≡ₚ mjoin (from_grid init)
                 ∧ shape (from_grid s) = shape (from_grid init)
                 ∧ to_grid s = to_grid init)); [done|].
  clear s. intros s t (Hp & Hs & Ht) Hst.
  destruct (mn_step s t Hst) as (Hp' & Hs' & Ht').
  split_and!; [by rewrite Hp'|congruence..].
Qed.

Lemma reshape_join (g : grid) : reshape (shape g) (mjoin g) = g.
Proof.
  unfold shape. induction g as [|r g IH]; [done|].
  cbn [fmap list_fmap mjoin list_join reshape].
  rewrite take_app_length, drop_app_length. f_equal. apply IH.
Qed.

(** The puzzles with the symbols of [init] in a grid of its shape. *)
Lemma mn_reachable_listed init s :
  reachable init s →
  s ∈ (λ l, mkMN (reshape (shape (from_grid init)) l) (to_grid init))
        <$> permutations (mjoin (from_grid init)).
Proof.
  intros (Hp & Hs & Ht)%mn_reachable. apply list_elem_of_fmap.
  exists (mjoin (from_grid s)). split.
  - rewrite <- Hs, reshape_join. destruct s. simpl in *. by subst.
  - by apply permutations_Permutation.
Qed.

Lemma symbols_of_join (P : string → Prop) (g : grid) :
  Forall (Forall P) g ↔ Forall P (mjoin g).
Proof.
  induction g as [|r g IH]; simpl.
  - split; constructor.
  - rewrite Forall_cons, Forall_app. tauto.
Qed.

Lemma mn_same_text p q :
  valid p → shape (from_grid p) = shape (from_grid q) →
  to_grid p = to_grid q →
  Forall (Forall (λ x, tight x ∧ String.length x = 1)) (from_grid p) →
  Forall (Forall (λ x, tight x ∧ String.length x = 1)) (from_grid q) →
  mn_str p = mn_str q → p = q.
Proof.
  intros Hp Hsh Hto Hsp Hsq Hstr.
  assert (Hq : valid q) by by apply (valid_of_shape p q).
  assert (from_grid p = from_grid q); [|destruct p, q; simpl in *; by subst].
  assert (Hl : ∀ g : grid,
            Forall (Forall (λ x, tight x ∧ String.length x = 1)) g →
            Forall (Forall tight) g
            ∧ Forall (Forall (λ x, String.length x = 1)) g).
  { intros g Hg. split; (eapply Forall_impl; [exact Hg|]); simpl;
      intros r Hr; (eapply Forall_impl; [exact Hr|]); simpl; tauto. }
  destruct (Hl _ Hsp) as [Htp Hlp], (Hl _ Hsq) as [Htq Hlq].
  destruct (decide (0 < length (default [] (head (from_grid p))))) as [Hw|Hw].
  - assert (Hw' : 0 < length (default [] (head (from_grid q)))).
    { unfold shape in Hsh.
      destruct (from_grid p), (from_grid q); simplify_eq/=; [done|congruence]. }
    rewrite (mn_str_layout p), (mn_str_layout q) in Hstr by done.
    apply (text_inj ""); [|done]. by apply rows_same_lengths.
  - apply empty_rows_eq; [done|]. apply Forall_forall.
    intros row [a Ha]%list_elem_of_lookup.
    apply (mn_valid_rows p a row Hp) in Ha. lia.
Qed.

Lemma mn_str_separates init :
  valid init →
  Forall (Forall (λ x, tight x ∧ String.length x = 1)) (from_grid init) →
  str_separates init.
Proof.
  intros Hv Hsym a b Ha Hb Hstr.
  destruct (mn_reachable init a Ha) as (Hpa & Hsa & Hta).
  destruct (mn_reachable init b Hb) as (Hpb & Hsb & Htb).
  apply mn_same_text; try done; try congruence.
  - by apply (valid_of_shape init a).
  - apply symbols_of_join. rewrite Hpa. by apply symbols_of_join.
  - apply symbols_of_join. rewrite Hpb. by apply symbols_of_join.
Qed.

(** X27. During a search from an accepted puzzle whose grid has a column
    no call of [extensions()] raises an error, and both engines return: the
    puzzles within reach have the symbols of the first in a grid of the
    same shape, and these are finitely many. *)
Theorem mn_engines_return init :
  valid init → 0 < length (default [] (head (from_grid init))) →
  (∀ s, reachable init s → is_Some (mn_extensions s))
  ∧ ∃ fuel0, ∀ e fuel, fuel0 ≤ fuel →
      ∃ r, run_result (solve e fuel init) = Returned r.
Proof.
  intros Hv Hw. split.
  - intros s (_ & Hs & Ht)%mn_reachable. apply valid_mn_extensions_Some.
    + by apply (valid_of_shape init s).
    + unfold shape in Hs.
      destruct (from_grid s), (from_grid init); simplify_eq/=; [done|congruence].
  - eapply solve_returns_within. apply mn_reachable_listed.
Qed.

(** X28. On an accepted puzzle whose grid has a column and whose symbols
    are single characters other than white space, an engine returns [None] only when no sequence of
    moves leads to the target, and the path that [breadth_first_solve]
    returns has no more moves than any other sequence of moves that leads
    to the target. *)
Theorem mn_search_is_complete init :
  valid init → 0 < length (default [] (head (from_grid init))) →
  Forall (Forall (λ x, tight x ∧ String.length x = 1)) (from_grid init) →
  (∀ e fuel, run_result (solve e fuel init) = Returned None →
             ∀ s, reachable init s → from_grid s ≠ to_grid s)
  ∧ ∀ fuel r l l',
      run_result (breadth_first_solve fuel init) = Returned (Some r) →
      is_chain (run_heap (breadth_first_solve fuel init)) r l →
      is_path l' → head l' = Some init →
      (∃ t, last l' = Some t ∧ from_grid t = to_grid t) →
      edges l ≤ edges l'.
Proof.
  intros Hv _ Hsym. pose proof (mn_str_separates init Hv Hsym) as Hsep.
  split.
  - intros e fuel Hnone s Hs.
    assert (Hun : is_solved s = false);
      [|by apply bool_decide_eq_false in Hun].
    by apply (solve_none e fuel init).
  - intros fuel r l l' Hres Hl Hpath Hhd (t & Hlast & Ht).
    unfold breadth_first_solve, breadth_first_search in *. simpl in *.
    destruct (bfs_loop fuel fuel [mkNode init [] None] ∅ [0] [])
      as [[[[path|]|] h'] calls'] eqn:Hb; simpl in *; try done.
    destruct (bfs_loop_shortest _ _ _ _ _ _ _ _ _ _
                Hsep (lvl_initial init) Hb)
      as (r' & l0 & -> & (Hc0 & _) & Hmin).
    simpl in *. simplify_eq. rewrite (is_chain_inj _ _ _ _ Hl Hc0).
    assert (length l0 ≤ length l'); [|unfold edges; lia].
    apply Hmin; [done..|]. exists t. split; [done|].
    by apply bool_decide_eq_true.
Qed.

End MNSearch.

(** * Runs on grids *)

Section GridRuns.
Import GridPeg MN.

Lemma engines_return_when_a_measure_decreases_witness :
  ∃ fuel0, ∀ e fuel, fuel0 ≤ fuel →
    ∃ r, run_result (solve e fuel doctest_peg) = Returned r.
Proof.
  apply (engines_return_when_a_measure_decreases doctest_peg
           (λ s, pegs (marker s))).
  intros s t _ Ht. destruct (peg_step s t Ht) as (_ & _ & ? & _). lia.
Defined.

Lemma peg_str_layout_witness :
  peg_str doctest_peg
  = String.concat newline (String.concat " " <$> marker doctest_peg).
Proof.
  apply (peg_str_layout doctest_peg); [apply doctest_peg_valid|simpl; lia].
Defined.

Lemma peg_search_is_complete_witness :
  (∀ s, reachable doctest_peg s → is_Some (peg_extensions s))
  ∧ (∃ fuel0, ∀ e fuel, fuel0 ≤ fuel →
       ∃ r, run_result (solve e fuel doctest_peg) = Returned r)
  ∧ ∀ e fuel, run_result (solve e fuel doctest_peg) = Returned None →
              ∀ s, reachable doctest_peg s → pegs (marker s) ≠ 1.
Proof. apply (peg_search_is_complete doctest_peg), doctest_peg_valid. Defined.

Lemma peg_solutions_have_one_length_witness :
  (∀ l t, is_path l → head l = Some doctest_peg → last l = Some t →
          is_solved t = true → length l = pegs (marker doctest_peg))
  ∧ ∀ e fuel r l,
      run_result (solve e fuel doctest_peg) = Returned (Some r) →
      is_chain (run_heap (solve e fuel doctest_peg)) r l →
      length l = pegs (marker doctest_peg).
Proof.
  apply (peg_solutions_have_one_length doctest_peg), doctest_peg_valid.
Defined.

Lemma doctest_mn_valid : MN.valid doctest_mn.
Proof.
  split_and!; [simpl; lia|..]; intros r Hr; simpl in Hr;
    by repeat (apply elem_of_cons in Hr as [->|Hr]);
      [..|apply elem_of_nil in Hr].
Qed.

Lemma doctest_mn_extensions :
  mn_extensions doctest_mn
  = Some [moved_right; moved_down].
Proof. by vm_compute. Qed.

Lemma doctest_mn_one_blank : one_blank (from_grid doctest_mn).
Proof.
  exists 0, 0. split; [done|].
  intros [|[|a]] [|[|[|b]]]; vm_compute; intros [= ]; done.
Qed.

Lemma doctest_mn_symbols :
  Forall (Forall (λ x, tight x ∧ String.length x = 1)) (from_grid doctest_mn).
Proof. repeat constructor; by eexists _, _. Qed.

Lemma mn_extensions_are_the_moves_witness :
  moved_down ∈ [moved_right; moved_down]
  ↔ to_grid moved_down = to_grid doctest_mn
    ∧ ∃ n, next_to n (blank (from_grid doctest_mn))
           ∧ is_Some (cell (from_grid doctest_mn) n.1 n.2)
           ∧ swapped (from_grid doctest_mn) (from_grid moved_down) n
                     (blank (from_grid doctest_mn)).
Proof.
  apply (mn_extensions_are_the_moves doctest_mn [moved_right; moved_down]
           moved_down).
  apply doctest_mn_extensions.
Defined.

Lemma valid_mn_extensions_witness :
  ∃ l, mn_extensions doctest_mn = Some l
       ∧ ∀ q, q ∈ l → MN.valid q
                       ∧ shape (from_grid q) = shape (from_grid doctest_mn).
Proof.
  apply (valid_mn_extensions doctest_mn); [apply doctest_mn_valid|simpl; lia].
Defined.

Lemma no_columns_valid : MN.valid no_columns.
Proof.
  split_and!; [simpl; lia|..]; intros r Hr; simpl in Hr;
    by repeat (apply elem_of_cons in Hr as [->|Hr]);
      [..|apply elem_of_nil in Hr].
Qed.

Lemma mn_extensions_fail_without_columns_witness :
  mn_extensions no_columns = None.
Proof.
  apply (mn_extensions_fail_without_columns no_columns);
    [apply no_columns_valid|done|simpl; lia].
Defined.

Lemma mn_moves_can_be_undone_witness :
  one_blank (from_grid moved_down)
  ∧ ∃ l', mn_extensions moved_down = Some l' ∧ doctest_mn ∈ l'.
Proof.
  apply (mn_moves_can_be_undone doctest_mn [moved_right; moved_down]
           moved_down).
  - apply doctest_mn_valid.
  - apply doctest_mn_one_blank.
  - apply doctest_mn_extensions.
  - right. by left.
Defined.

Lemma mn_extension_keeps_symbols_witness :
  mjoin (from_grid moved_down) ≡ₚ mjoin (from_grid doctest_mn)
  ∧ shape (from_grid moved_down) = shape (from_grid doctest_mn)
  ∧ to_grid moved_down = to_grid doctest_mn.
Proof.
  apply (mn_extension_keeps_symbols doctest_mn [moved_right; moved_down]
           moved_down).
  - apply doctest_mn_extensions.
  - right. by left.
Defined.

Lemma mn_str_forgets_symbol_bounds_witness :
  mn_str twin_start = mn_str twin_target.
Proof. by apply (mn_str_forgets_symbol_bounds twin_start twin_target). Defined.

Lemma mn_str_layout_witness :
  mn_str doctest_mn
  = String.concat newline (String.concat "" <$> from_grid doctest_mn).
Proof.
  apply (mn_str_layout doctest_mn); [apply doctest_mn_valid|simpl; lia|].
  repeat constructor; by eexists _, _.
Defined.

Lemma mn_engines_return_witness :
  (∀ s, reachable doctest_mn s → is_Some (mn_extensions s))
  ∧ ∃ fuel0, ∀ e fuel, fuel0 ≤ fuel →
      ∃ r, run_result (solve e fuel doctest_mn) = Returned r.
Proof.
  apply (mn_engines_return doctest_mn); [apply doctest_mn_valid|simpl; lia].
Defined.

Lemma mn_search_is_complete_witness :
  (∀ e fuel, run_result (solve e fuel doctest_mn) = Returned None →
             ∀ s, reachable doctest_mn s → from_grid s ≠ to_grid s)
  ∧ ∀ fuel r l l',
      run_result (breadth_first_solve fuel doctest_mn) = Returned (Some r) →
      is_chain (run_heap (breadth_first_solve fuel doctest_mn)) r l →
      is_path l' → head l' = Some doctest_mn →
      (∃ t, last l' = Some t ∧ from_grid t = to_grid t) →
      edges l ≤ edges l'.
Proof.
  apply (mn_search_is_complete doctest_mn);
    [apply doctest_mn_valid|simpl; lia|apply doctest_mn_symbols].
Defined.

(** C2, as stated, fails on a puzzle of the repository.  The tiles 1, 2,
    3, 11 and 12 of [tiles_start] are within twelve moves of their target,
    along [tiles_short]; its tenth grid has the rows 1 2 12 and 11 3,
    which read like the rows 12 1 2 and 11 3 of a grid met before, so the
    engine takes it for visited, and returns [tiles_long], of fourteen
    moves. *)
Lemma bfs_returns_a_longer_path_for_tiles :
  MN.valid tiles_start
  ∧ run_result (breadth_first_solve 300 tiles_start) = Returned (Some 0)
  ∧ is_chain (run_heap (breadth_first_solve 300 tiles_start)) 0 tiles_long
  ∧ is_path tiles_short ∧ head tiles_short = Some tiles_start
  ∧ (∃ t, last tiles_short = Some t ∧ is_solved t = true)
  ∧ edges tiles_short < edges tiles_long.
Proof.
  split_and!.
  - split_and!; [simpl; lia|..]; intros r Hr; simpl in Hr;
      by repeat (apply elem_of_cons in Hr as [->|Hr]);
        [..|apply elem_of_nil in Hr].
  - by vm_compute.
  - apply (read_chain_sound _ 20). by vm_compute.
  - unfold tiles_short. cbn [fmap list_fmap is_path]. split_and!; [..|done].
    + apply (list_elem_of_lookup_2 _ 0). by vm_compute.
    + apply (list_elem_of_lookup_2 _ 1). by vm_compute.
    + apply (list_elem_of_lookup_2 _ 1). by vm_compute.
    + apply (list_elem_of_lookup_2 _ 0). by vm_compute.
    + apply (list_elem_of_lookup_2 _ 0). by vm_compute.
    + apply (list_elem_of_lookup_2 _ 1). by vm_compute.
    + apply (list_elem_of_lookup_2 _ 0). by vm_compute.
    + apply (list_elem_of_lookup_2 _ 1). by vm_compute.
    + apply (list_elem_of_lookup_2 _ 1). by vm_compute.
    + apply (list_elem_of_lookup_2 _ 0). by vm_compute.
    + apply (list_elem_of_lookup_2 _ 2). by vm_compute.
    + apply (list_elem_of_lookup_2 _ 1). by vm_compute.
  - done.
  - exists (mkMN tiles_target tiles_target). split; done.
  - unfold edges. simpl. lia.
Qed.

(** Symbols of several characters defeat the engines: the target of
    [twin_start] is four moves away, but it reads like [twin_start]
    itself, so that both engines take it for visited and return [None]. *)
Remark mn_engines_need_single_characters :
  MN.valid twin_start ∧ one_blank (from_grid twin_start)
  ∧ reachable twin_start twin_target ∧ is_solved twin_target = true
  ∧ ∀ e, run_result (solve e 100 twin_start) = Returned None.
Proof.
  split_and!.
  - split_and!; [simpl; lia|..]; intros r Hr; simpl in Hr;
      by repeat (apply elem_of_cons in Hr as [->|Hr]);
        [..|apply elem_of_nil in Hr].
  - exists 0, 0. split; [done|].
    intros [|[|a]] [|[|b]]; vm_compute; intros [= ]; done.
  - exists 4.
    apply (reach_step _ 3 (mkMN [["1"; "1"]; ["*"; "11"]]%string
                                 (to_grid twin_start)));
      [|apply (list_elem_of_lookup_2 _ 1); by vm_compute].
    apply (reach_step _ 2 (mkMN [["1"; "1"]; ["11"; "*"]]%string
                                 (to_grid twin_start)));
      [|apply (list_elem_of_lookup_2 _ 0); by vm_compute].
    apply (reach_step _ 1 (mkMN [["1"; "*"]; ["11"; "1"]]%string
                                 (to_grid twin_start)));
      [|apply (list_elem_of_lookup_2 _ 1); by vm_compute].
    apply (reach_step _ 0 twin_start); [constructor|].
    apply (list_elem_of_lookup_2 _ 0). by vm_compute.
  - done.
  - intros []; by vm_compute.
Qed.

End GridRuns.
